(** * The-Brain-V3: orchestration core of the two-agent dialogue

    A shallow embedding of the text post-processing, topic guard, agent
    client, turn scheduler, merge pipeline and rolling memory of the
    repository, with the properties stated about them.

    Python strings are sequences of Unicode code points: [str] is a list of
    code points ([N]), so that [len], slicing and the one non-ASCII
    character the code uses (the ellipsis U+2026) are what they are in
    Python. *)

From Stdlib Require Import String Ascii.
From Stdlib Require Import List NArith ZArith QArith Bool Lia.
From Stdlib Require Import Lqa.
From Stdlib Require DecimalString Qround.
Import ListNotations.
Local Open Scope list_scope.

(** ** Python strings *)

Module PyStr.

Definition char := N.
Definition str := list char.

(** An ASCII literal as a Python string. *)
Definition py (s : string) : str :=
  map N_of_ascii (list_ascii_of_string s).

Definition DOT : char := 46%N.
Definition BANG : char := 33%N.
Definition QMARK : char := 63%N.
Definition NL : char := 10%N.
Definition SPACE : char := 32%N.
Definition COMMA : char := 44%N.
Definition SEMI : char := 59%N.
Definition COLON : char := 58%N.
Definition BACKSLASH : char := 92%N.
Definition DASH : char := 45%N.
Definition SLASH : char := 47%N.
(** U+2026 HORIZONTAL ELLIPSIS *)
Definition ELLIPSIS : char := 8230%N.

Definition mem (c : char) (set : list char) : bool :=
  existsb (N.eqb c) set.

(** [str.isspace] on one code point, which is also what [\s] matches in a
    [str] pattern: the code points CPython's [Py_UNICODE_ISSPACE] accepts. *)
Definition isspace (c : char) : bool :=
  ((9 <=? c) && (c <=? 13) || (28 <=? c) && (c <=? 32)
   || (c =? 133) || (c =? 160) || (c =? 5760)
   || (8192 <=? c) && (c <=? 8202)
   || (c =? 8232) || (c =? 8233) || (c =? 8239) || (c =? 8287)
   || (c =? 12288))%N.

Fixpoint dropwhile (p : char -> bool) (s : str) : str :=
  match s with
  | [] => []
  | c :: r => if p c then dropwhile p r else s
  end.

Definition lstrip (s : str) : str := dropwhile isspace s.
Definition rstrip (s : str) : str := rev (dropwhile isspace (rev s)).
(** [s.strip()] *)
Definition strip (s : str) : str := rstrip (lstrip s).

(** [s.rstrip(chars)] *)
Definition rstrip_chars (chars : list char) (s : str) : str :=
  rev (dropwhile (fun c => mem c chars) (rev s)).

(** [s.endswith((".", "!", "?"))] and friends: the last character is in [set]. *)
Definition ends_in (set : list char) (s : str) : bool :=
  match rev s with
  | [] => false
  | c :: _ => mem c set
  end.

Definition starts_in (set : list char) (s : str) : bool :=
  match s with
  | [] => false
  | c :: _ => mem c set
  end.

Definition is_empty (s : str) : bool :=
  match s with [] => true | _ => false end.

Fixpoint eqb (a b : str) : bool :=
  match a, b with
  | [], [] => true
  | x :: a', y :: b' => N.eqb x y && eqb a' b'
  | _, _ => false
  end.

(** [sep.join(parts)] *)
Fixpoint join (sep : str) (parts : list str) : str :=
  match parts with
  | [] => []
  | [p] => p
  | p :: rest => p ++ sep ++ join sep rest
  end.

Fixpoint is_prefix (p s : str) : bool :=
  match p, s with
  | [], _ => true
  | x :: p', y :: s' => N.eqb x y && is_prefix p' s'
  | _ :: _, [] => false
  end.

(** [needle in hay] *)
Fixpoint contains (needle hay : str) : bool :=
  is_prefix needle hay ||
  match hay with
  | [] => false
  | _ :: hay' => contains needle hay'
  end.

(** [s.rfind(c)] for a one-character [c]: the last index, or -1. *)
Fixpoint rfind_from (i : Z) (best : Z) (c : char) (s : str) : Z :=
  match s with
  | [] => best
  | d :: r => rfind_from (i + 1) (if N.eqb d c then i else best) c r
  end.
Definition rfind (c : char) (s : str) : Z := rfind_from 0 (-1) c s.

(** Sentence terminators [.!?]. *)
Definition TERMINATORS : list char := [DOT; BANG; QMARK].
Definition is_term (c : char) : bool := mem c TERMINATORS.

#[global] Arguments py : simpl never.
#[global] Arguments mem : simpl never.
#[global] Arguments isspace : simpl never.
#[global] Arguments is_term : simpl never.

End PyStr.
Import PyStr.

(** ** ResponseSanitizer: [trunc] and [dedupe_sentences] of
    [OllamaGUI._run_conversation] (gui_ollama_chat.py) *)

Module Sanitizer.

(** The keys of [cfg] that [trunc] reads. [cfg.get] gives [None] for a
    missing key. *)
Record Policy := {
  short_turn : bool;
  max_chars_a : option Z;
  max_chars_b : option Z
}.

Inductive Agent := AgentA | AgentB.

(** *** The pattern [(.+?[.!?])(\s|$)] under [re.S] *)

(** [(\s|$)] at the position where [rest] starts: a whitespace character,
    the end of the string, or the newline that ends the string. *)
Definition boundary (rest : str) : bool :=
  match rest with
  | [] => true
  | c :: r => isspace c || (N.eqb c NL && is_empty r)
  end.

(** The lazy [.+?] has consumed [acc] (at least one character); it grows one
    character at a time until a terminator followed by [boundary] is next. *)
Fixpoint lazy_sentence (acc : str) (s : str) : option str :=
  match s with
  | [] => None
  | c :: rest =>
      if is_term c && boundary rest then Some (acc ++ [c])
      else lazy_sentence (acc ++ [c]) rest
  end.

(** Group 1 of a match that starts at the head of [s]. *)
Definition match_at (s : str) : option str :=
  match s with
  | [] => None
  | c :: rest => lazy_sentence [c] rest
  end.

(** [re.search]: the leftmost start position with a match. *)
Fixpoint re_search (s : str) : option str :=
  match match_at s with
  | Some g => Some g
  | None =>
      match s with
      | [] => None
      | _ :: s' => re_search s'
      end
  end.

(** *** [re.split(r"[,;:\\-]\s*", t, maxsplit=1)] *)

Definition SEPARATORS : list char := [COMMA; SEMI; COLON; BACKSLASH; DASH].

Fixpoint re_split_once (s : str) : list str :=
  match s with
  | [] => [[]]
  | c :: rest =>
      if mem c SEPARATORS then [[]; dropwhile isspace rest]
      else
        match re_split_once rest with
        | p :: more => (c :: p) :: more
        | [] => [[c]]
        end
  end.

(** [maxc and maxc > 0 and len(s) > maxc] *)
Definition over_limit (maxc : option Z) (s : str) : bool :=
  match maxc with
  | Some m => negb (m =? 0)%Z && (0 <? m)%Z && (m <? Z.of_nat (length s))%Z
  | None => false
  end.

(** [s.rstrip(" ,;:") + "…"] unless [s] ends a sentence. *)
Definition with_ellipsis (s : str) : str :=
  if negb (ends_in TERMINATORS s)
  then rstrip_chars [SPACE; COMMA; SEMI; COLON] s ++ [ELLIPSIS]
  else s.

Definition trunc (cfg : Policy) (text : str) (agent : Agent) : str :=
  match text with
  | [] => []
  | _ =>
    let t := strip text in
    let maxc := match agent with
                | AgentA => max_chars_a cfg
                | AgentB => max_chars_b cfg
                end in
    if short_turn cfg then
      match re_search t with
      | Some g =>
          let s := strip g in
          if over_limit maxc s then s
          else
            let limit := match maxc with
                         | Some m => if negb (m =? 0)%Z && (0 <? m)%Z then m else 120%Z
                         | None => 120%Z
                         end in
            if (limit <? Z.of_nat (length s))%Z then s else s
      | None =>
          let parts := re_split_once t in
          let s := strip (hd [] parts) in
          if over_limit maxc s then s
          else with_ellipsis s
      end
    else if over_limit maxc t then
      let m := match maxc with Some m => m | None => 0%Z end in
      let snippet := firstn (Z.to_nat m) t in
      let last_pos := Z.max (Z.max (rfind DOT snippet) (rfind BANG snippet))
                            (rfind QMARK snippet) in
      if negb (last_pos =? -1)%Z && (0 <? last_pos)%Z then
        strip (firstn (Z.to_nat (last_pos + 1)) snippet)
      else
        match re_search t with
        | Some g => strip g
        | None => with_ellipsis (strip snippet)
        end
    else t
  end.

(** *** [re.findall(r"[^.!?\n]+[\.!?…]?", text, flags=re.S)] *)

(** [[^.!?\n]] *)
Definition in_run (c : char) : bool := negb (mem c [DOT; BANG; QMARK; NL]).
(** [[\.!?…]] *)
Definition closes (c : char) : bool := mem c [DOT; BANG; QMARK; ELLIPSIS].

(** The scan, left to right. [run] is what the greedy [[^.!?\n]+] has matched
    at the current match position, and is empty while no match has started.
    A character outside the class ends the run: it joins the match when the
    optional class accepts it; no match can start at it otherwise, and the
    scan moves on. *)
Fixpoint chunks_from (run : str) (s : str) : list str :=
  match s with
  | [] =>
      match run with
      | [] => []
      | _ => [run]
      end
  | c :: rest =>
      if in_run c then chunks_from (run ++ [c]) rest
      else
        match run with
        | [] => chunks_from [] rest
        | _ =>
            if closes c then (run ++ [c]) :: chunks_from [] rest
            else run :: chunks_from [] rest
        end
  end.

Definition findall_chunks (text : str) : list str := chunks_from [] text.

(** The [for p in parts] loop: [prev] is the last chunk appended to [out]. *)
Fixpoint dedupe_loop (prev : option str) (parts : list str) : list str :=
  match parts with
  | [] => []
  | p :: rest =>
      let s := strip p in
      if is_empty s then dedupe_loop prev rest
      else
        match prev with
        | Some q =>
            if eqb s q then dedupe_loop prev rest
            else s :: dedupe_loop (Some s) rest
        | None => s :: dedupe_loop (Some s) rest
        end
  end.

Definition dedupe_sentences (text : str) : str :=
  match text with
  | [] => []
  | _ =>
      match findall_chunks text with
      | [] => strip text
      | parts => strip (join [SPACE] (dedupe_loop None parts))
      end
  end.

End Sanitizer.

(** ** The run-time environment of a conversation and its effects

    A run talks to two agents, sleeps, reads a stop flag another thread may
    set, and writes events, a log file and a transcript. [Env] is what the
    outside world decides (when the flag is set, what each agent call
    yields and how long it takes, what the injection queue holds at each
    drain); [State] is the clock, the run's own variables and the trace of
    effects it has performed. Time passes in agent calls and sleeps only. *)

Module Run.

Export Sanitizer.

Inductive Role := System | User | Assistant.

Record Message := { role : Role; content : str }.

(** What [chat_with_ollama] hands back: a dict with ["content"], and
    ["endpoint"] when the client reports one. *)
Record Response := { resp_content : str; resp_endpoint : option str }.

Inductive Outcome :=
| Returned (r : Response)
| ClientRaised (e : str)      (* chat_with_ollama raised e *)
| NotStarted (e : str).       (* issuing the call raised e: the runtime
                                 options or the worker thread *)

Record Call := { outcome : Outcome; took : Q }.

(** An item of the injection queue. *)
Inductive Item := IStr (s : str) | IOther.

Record Env := {
  stop_at : option Q;           (* when stop_event is set, if ever *)
  script : nat -> Call;         (* the k-th agent call of the run *)
  has_in_queue : bool;          (* in_queue is not None *)
  inbox : nat -> list Item;     (* what the k-th drain finds queued *)
  log_open_ok : bool;           (* open(log_path, "a") succeeds *)
  errlog_ok : bool;             (* thread_error.log can be written *)
  clock_text : Q -> str         (* strftime of the wall clock *)
}.

Inductive Kind := KStatus | KA | KB | KUser | KEndpoint | KDone.

Definition Event := (Kind * str)%type.

Inductive Effect :=
| ECall (who : Agent) (url : str) (messages : list Message)
| ESleep (seconds : Q)
| EPut (ev : Event)             (* out_queue.put *)
| ELogOpen
| ELogWrite (line : str)
| ELogClose
| EPrint (line : str).

Record State := {
  now : Q;
  drains : nat;
  log_file : bool;              (* log_file holds an open file *)
  messages_a : list Message;
  messages_b : list Message;
  trace : list Effect
}.

(** An exception, by its text [str(e)]. *)
Definition Exn := str.

Inductive Res (A : Type) :=
| Val (a : A)
| Exc (e : Exn).
Arguments Val {A} a.
Arguments Exc {A} e.

Definition M (A : Type) := State -> Res A * State.

Definition ret {A} (a : A) : M A := fun st => (Val a, st).
Definition raise {A} (e : Exn) : M A := fun st => (Exc e, st).
Definition bind {A B} (c : M A) (k : A -> M B) : M B :=
  fun st =>
    match c st with
    | (Val a, st') => k a st'
    | (Exc e, st') => (Exc e, st')
    end.

Declare Scope run_scope.
Delimit Scope run_scope with run.
Notation "x <- c ;; k" := (bind c (fun x => k))
  (at level 100, c at next level, right associativity) : run_scope.
Notation "c ;; k" := (bind c (fun _ => k))
  (at level 100, right associativity) : run_scope.
Local Open Scope run_scope.

(** *** Primitive steps *)

Definition effect (e : Effect) : M unit :=
  fun st => (Val tt,
    {| now := now st; drains := drains st; log_file := log_file st;
       messages_a := messages_a st; messages_b := messages_b st;
       trace := trace st ++ [e] |}).

Definition advance (d : Q) : M unit :=
  fun st => (Val tt,
    {| now := now st + d; drains := drains st; log_file := log_file st;
       messages_a := messages_a st; messages_b := messages_b st;
       trace := trace st |}).

Definition set_messages_a (l : list Message) : M unit :=
  fun st => (Val tt,
    {| now := now st; drains := drains st; log_file := log_file st;
       messages_a := l; messages_b := messages_b st; trace := trace st |}).

Definition set_messages_b (l : list Message) : M unit :=
  fun st => (Val tt,
    {| now := now st; drains := drains st; log_file := log_file st;
       messages_a := messages_a st; messages_b := l; trace := trace st |}).

Definition set_log_file (b : bool) : M unit :=
  fun st => (Val tt,
    {| now := now st; drains := drains st; log_file := b;
       messages_a := messages_a st; messages_b := messages_b st;
       trace := trace st |}).

Definition next_drain : M nat :=
  fun st => (Val (drains st),
    {| now := now st; drains := S (drains st); log_file := log_file st;
       messages_a := messages_a st; messages_b := messages_b st;
       trace := trace st |}).

Definition get {A} (f : State -> A) : M A := fun st => (Val (f st), st).

(** [messages_a.append(m)] *)
Definition append_a (m : Message) : M unit :=
  l <- get messages_a ;; set_messages_a (l ++ [m]).
Definition append_b (m : Message) : M unit :=
  l <- get messages_b ;; set_messages_b (l ++ [m]).

Definition messages_of (who : Agent) : State -> list Message :=
  match who with AgentA => messages_a | AgentB => messages_b end.
Definition set_messages (who : Agent) : list Message -> M unit :=
  match who with AgentA => set_messages_a | AgentB => set_messages_b end.

(** [out_queue.put((kind, text))] *)
Definition put (k : Kind) (text : str) : M unit := effect (EPut (k, text)).

(** [stop_event.is_set()] *)
Definition is_set (env : Env) : M bool :=
  fun st =>
    (Val match stop_at env with
         | Some t => Qle_bool t (now st)
         | None => false
         end, st).

(** [time.sleep(d)] *)
Definition sleep (d : Q) : M unit :=
  if Qle_bool 0 d then (effect (ESleep d) ;; advance d)
  else raise (py "sleep length must be non-negative").

(** [cfg[key]]: a missing key raises [KeyError(key)], whose text is the
    key's repr. *)
Definition require {A} (key : string) (v : option A) : M A :=
  match v with
  | Some a => ret a
  | None => raise (py "'" ++ py key ++ py "'")
  end.

(** The events a trace put on [out_queue], in order. *)
Fixpoint events (tr : list Effect) : list Event :=
  match tr with
  | [] => []
  | EPut ev :: r => ev :: events r
  | _ :: r => events r
  end.

Definition is_call_of (who : Agent) (e : Effect) : bool :=
  match e, who with
  | ECall AgentA _ _, AgentA => true
  | ECall AgentB _ _, AgentB => true
  | _, _ => false
  end.

Definition is_call (e : Effect) : bool :=
  match e with ECall _ _ _ => true | _ => false end.

Definition is_close (e : Effect) : bool :=
  match e with ELogClose => true | _ => false end.

Definition is_open (e : Effect) : bool :=
  match e with ELogOpen => true | _ => false end.

Fixpoint slept (tr : list Effect) : list Q :=
  match tr with
  | [] => []
  | ESleep d :: r => d :: slept r
  | _ :: r => slept r
  end.

Definition count (p : Effect -> bool) (tr : list Effect) : nat :=
  List.length (filter p tr).

Definition initial : State :=
  {| now := 0; drains := 0; log_file := false;
     messages_a := []; messages_b := []; trace := [] |}.

End Run.

(** ** TurnScheduler: [OllamaGUI._run_conversation] and
    [OllamaGUI._call_ollama_with_timeout] (gui_ollama_chat.py) *)

Module Scheduler.

Import Run.
Local Open Scope run_scope.

(** The keys of [cfg] the run reads. A key read as [cfg[key]] is [None] when
    it is missing (a [KeyError]); one read with [cfg.get] is [None] when it
    is missing or holds [None]. *)
Record Config := {
  topic : option str;
  a_persona : option str; a_age : option str; a_quirk : option str;
  b_persona : option str; b_age : option str; b_quirk : option str;
  a_name : option str; b_name : option str;
  greeting : option str;
  humanize : bool;
  turns : option Z;
  delay : option Q;
  a_url : option str; b_url : option str;
  a_api_path : option str; b_api_path : option str;
  a_model : option str; b_model : option str;
  log : bool;
  log_path : option str;
  policy : Policy
}.

(** [x or default] for an optional string: empty strings are falsy. *)
Definition or_else (x : option str) (default : str) : str :=
  match x with
  | Some (c :: s) => c :: s
  | _ => default
  end.

Definition truthy (x : option str) : bool :=
  match x with
  | Some (_ :: _) => true
  | _ => false
  end.

Definition build_persona (base age quirk : option str) : str :=
  let parts :=
    (if truthy base then [or_else base []] else []) ++
    (if truthy age then [py "Age: " ++ or_else age []] else []) ++
    (if truthy quirk then [py "Quirk: " ++ or_else quirk []] else []) in
  join (py " | ") parts.

Definition instruction : str :=
  join [SPACE]
    [ py "Important: In every reply, explicitly reference the discussion topic";
      py "and keep responses focused on it.";
      py "Begin each response by briefly restating the topic and avoid unrelated tangents.";
      py "Always respond in complete sentences. Do not use sentence fragments or single-word replies;";
      py "each response should be a full sentence ending with appropriate punctuation." ].

Definition system_prompt (name other topic persona : str) : str :=
  strip (join [SPACE]
    [ instruction;
      py "You are " ++ name ++ py ".";
      py "Discuss '" ++ topic ++ py "' with " ++ other ++ py ".";
      persona ]).

Definition initial_prompt (cfg : Config) (topic : str) : str :=
  if truthy (greeting cfg) then or_else (greeting cfg) []
  else if humanize cfg then py "Hello, how are you?"
  else py "Let's discuss " ++ topic ++ py ". I think...".

(** The API path override of an endpoint URL. *)
Definition with_api_path (url : str) (api : option str) : str :=
  let a := or_else api [] in
  if is_empty a then url
  else
    let a := if is_prefix [SLASH] a then a else SLASH :: a in
    rstrip_chars [SLASH] url ++ a.

Definition TIMEOUT : Q := 20.

Definition error_reply (text : str) : Response :=
  {| resp_content := text; resp_endpoint := None |}.

(** [self._call_ollama_with_timeout(url, model, messages, timeout=20)]: the
    worker thread runs [chat_with_ollama]; the caller waits [timeout]
    seconds at most and returns a placeholder when the worker is still
    alive. *)
Definition _call_ollama_with_timeout (env : Env) (who : Agent) (url : str)
  : M Response :=
  msgs <- get (messages_of who) ;;
  k <- get (fun st => count is_call (trace st)) ;;
  effect (ECall who url msgs) ;;
  let c := script env k in
  match outcome c with
  | NotStarted e => raise e
  | Returned r =>
      if Qle_bool TIMEOUT (took c) then
        advance TIMEOUT ;;
        ret (error_reply (py "[ERROR: timeout after 20s contacting " ++ url ++ py "]"))
      else advance (took c) ;; ret r
  | ClientRaised e =>
      if Qle_bool TIMEOUT (took c) then
        advance TIMEOUT ;;
        ret (error_reply (py "[ERROR: timeout after 20s contacting " ++ url ++ py "]"))
      else
        advance (took c) ;;
        ret (error_reply (py "[ERROR calling " ++ url ++ py ": " ++ e ++ py "]"))
  end.

(** The [while True: um = in_q.get_nowait() ...] loop over what is queued;
    [queue.Empty] ends it. *)
Fixpoint drain_items (items : list Item) : M unit :=
  match items with
  | [] => ret tt
  | IStr um :: rest =>
      if negb (is_empty (strip um)) then
        append_b {| role := User; content := strip um |} ;;
        append_a {| role := User; content := strip um |} ;;
        put KUser (strip um) ;;
        drain_items rest
      else drain_items rest
  | IOther :: rest => drain_items rest
  end.

Definition drain (env : Env) : M unit :=
  if has_in_queue env then k <- next_drain ;; drain_items (inbox env k)
  else ret tt.

(** [if log_file: log_file.write(f"[{ts()}] {who}: {text}\n")] *)
Definition log_write (env : Env) (label text : str) : M unit :=
  opened <- get log_file ;;
  if opened then
    t <- get now ;;
    effect (ELogWrite (py "[" ++ clock_text env t ++ py "] " ++ label ++ py ": "
                       ++ text ++ [NL]))
  else ret tt.

Definition publish_endpoint (label : str) (r : Response) : M unit :=
  if truthy (resp_endpoint r)
  then put KEndpoint (label ++ py ": " ++ or_else (resp_endpoint r) [])
  else ret tt.

Inductive LoopCtl := Next | Break.

(** [for i in range(n): body], with [break]. *)
Fixpoint for_range (n : nat) (i : nat) (body : nat -> M LoopCtl) : M unit :=
  match n with
  | O => ret tt
  | S n' =>
      c <- body i ;;
      match c with
      | Break => ret tt
      | Next => for_range n' (S i) body
      end
  end.

Definition decimal (z : Z) : str :=
  py (DecimalString.NilZero.string_of_int (Z.to_int z)).

(** The reply of one agent: call, sanitize, emit, log, append to both
    histories, publish the endpoint. *)
Definition agent_turn (env : Env) (cfg : Config) (who : Agent) (url : str)
  : M unit :=
  resp <- _call_ollama_with_timeout env who url ;;
  let text := dedupe_sentences (trunc (policy cfg) (resp_content resp) who) in
  match who with
  | AgentB =>
      put KB text ;;
      log_write env (py "B") text ;;
      append_b {| role := Assistant; content := text |} ;;
      append_a {| role := User; content := text |} ;;
      publish_endpoint (py "B") resp
  | AgentA =>
      put KA text ;;
      log_write env (py "A") text ;;
      append_a {| role := Assistant; content := text |} ;;
      append_b {| role := User; content := text |} ;;
      publish_endpoint (py "A") resp
  end.

(** The delay at the end of a round: one check of the flag, then one
    [time.sleep(delay)]. *)
Definition inter_turn_delay (env : Env) (delay : Q) : M LoopCtl :=
  stopped <- is_set env ;;
  if stopped then ret Break
  else sleep delay ;; ret Next.

(** One round of the [for i in range(turns)] loop. *)
Definition round (env : Env) (cfg : Config) (turns : Z) (delay : Q)
  (url_a url_b : str) (i : nat) : M LoopCtl :=
  stopped <- is_set env ;;
  if stopped then ret Break else
  put KStatus (py "Turn " ++ decimal (Z.of_nat i + 1) ++ py "/" ++ decimal turns) ;;
  drain env ;;
  agent_turn env cfg AgentB url_b ;;
  stopped <- is_set env ;;
  if stopped then ret Break else
  agent_turn env cfg AgentA url_a ;;
  inter_turn_delay env delay.

Definition open_log (env : Env) (cfg : Config) : M unit :=
  if log cfg && truthy (log_path cfg) then
    if log_open_ok env then effect ELogOpen ;; set_log_file true
    else ret tt
  else ret tt.

(** What the run fixes before its first round. *)
Record Settings := {
  s_turns : Z;
  s_delay : Q;
  s_url_a : str;
  s_url_b : str
}.

(** The [try] block up to the loop: the two histories, the seed prompt, the
    endpoints and the log file. *)
Definition prologue (env : Env) (cfg : Config) : M Settings :=
  topic <- require "topic" (topic cfg) ;;
  put KStatus (py "Using topic: " ++ topic) ;;
  let persona_a := build_persona (a_persona cfg) (a_age cfg) (a_quirk cfg) in
  let persona_b := build_persona (b_persona cfg) (b_age cfg) (b_quirk cfg) in
  let name_a := or_else (a_name cfg) (py "Agent_A") in
  let name_b := or_else (b_name cfg) (py "Agent_B") in
  set_messages_a [{| role := System;
                     content := system_prompt name_a name_b topic persona_a |}] ;;
  set_messages_b [{| role := System;
                     content := system_prompt name_b name_a topic persona_b |}] ;;
  let prompt := initial_prompt cfg topic in
  put KB (py "(initial) " ++ prompt) ;;
  append_b {| role := User; content := prompt |} ;;
  append_a {| role := User; content := prompt |} ;;
  turns <- require "turns" (turns cfg) ;;
  delay <- require "delay" (delay cfg) ;;
  a_url <- require "a_url" (a_url cfg) ;;
  b_url <- require "b_url" (b_url cfg) ;;
  let a_url := with_api_path a_url (a_api_path cfg) in
  let b_url := with_api_path b_url (b_api_path cfg) in
  _ <- require "a_model" (a_model cfg) ;;
  _ <- require "b_model" (b_model cfg) ;;
  open_log env cfg ;;
  ret {| s_turns := turns; s_delay := delay;
         s_url_a := a_url; s_url_b := b_url |}.

(** The [try] block. *)
Definition body (env : Env) (cfg : Config) : M unit :=
  s <- prologue env cfg ;;
  for_range (Z.to_nat (s_turns s)) 0
    (round env cfg (s_turns s) (s_delay s) (s_url_a s) (s_url_b s)).

(** The [except Exception as e] handler. *)
Definition handler (env : Env) (e : Exn) : M unit :=
  if errlog_ok env
  then put KStatus (py "Error: " ++ e ++ py " (see thread_error.log)")
  else put KStatus (py "Error: " ++ e).

(** The [finally] block. *)
Definition finally : M unit :=
  opened <- get log_file ;;
  (if opened then effect ELogClose else ret tt) ;;
  put KDone [].

(** [_run_conversation(cfg, stop_event, out_queue, in_queue)], from a fresh
    thread: the state it leaves behind. *)
Definition _run_conversation (env : Env) (cfg : Config) : State :=
  let '(r, st1) := body env cfg initial in
  let st2 := match r with
             | Val _ => st1
             | Exc e => snd (handler env e st1)
             end in
  snd (finally st2).

End Scheduler.

(** ** TopicGuard and the command-line orchestrator: [run_conversation]
    (multi_ollama_chat.py) *)

Module TopicGuard.

Import Run.
Local Open Scope run_scope.

(** The module's globals and the arguments of [run_conversation]. *)
Record CliConfig := {
  AGENT_A_URL : str; AGENT_A_NAME : str;
  AGENT_B_URL : str; AGENT_B_NAME : str;
  topic : str;
  turns : Z;
  delay : Q;
  humanize : bool;
  greeting : option str;
  persona_a : option str;
  persona_b : option str;
  max_chars : option Z;
  short_turn : bool
}.

Definition url_of (cfg : CliConfig) (who : Agent) : str :=
  match who with AgentA => AGENT_A_URL cfg | AgentB => AGENT_B_URL cfg end.
Definition name_of (cfg : CliConfig) (who : Agent) : str :=
  match who with AgentA => AGENT_A_NAME cfg | AgentB => AGENT_B_NAME cfg end.
Definition other (who : Agent) : Agent :=
  match who with AgentA => AgentB | AgentB => AgentA end.

Definition truncate_text (cfg : CliConfig) (text : str) : str :=
  match text with
  | [] => []
  | _ =>
      match (if short_turn cfg then re_search (strip text) else None) with
      | Some g => strip g
      | None =>
          match max_chars cfg with
          | Some m =>
              if negb (m =? 0)%Z && (0 <? m)%Z
              then firstn (Z.to_nat m) (strip text)
              else strip text
          | None => strip text
          end
      end
  end.

Definition QUOTE : char := 34%N.

Definition NEEDLE : str := py "IMPORTANT: Stay strictly on topic".

(** The synthetic corrective user message. *)
Definition corrective (topic : str) : Message :=
  {| role := User;
     content := py "IMPORTANT: Stay strictly on topic: " ++ [QUOTE] ++ topic
                ++ [QUOTE]
                ++ py ". Give a short, focused answer only about this topic." |}.

Definition is_user (m : Message) : bool :=
  match role m with User => true | _ => false end.

(** [chat_with_ollama(url, model, messages).get("content", "")]: the call
    blocks until the client answers. *)
Definition chat (env : Env) (cfg : CliConfig) (who : Agent) : M str :=
  msgs <- get (messages_of who) ;;
  k <- get (fun st => count is_call (trace st)) ;;
  effect (ECall who (url_of cfg who) msgs) ;;
  let c := script env k in
  advance (took c) ;;
  match outcome c with
  | Returned r => ret (resp_content r)
  | ClientRaised e => raise e
  | NotStarted e => raise e
  end.

Definition append (who : Agent) (m : Message) : M unit :=
  l <- get (messages_of who) ;; set_messages who (l ++ [m]).

(** [if messages and messages[-1] is the corrective prompt: messages.pop()] *)
Definition pop_corrective (who : Agent) : M unit :=
  l <- get (messages_of who) ;;
  match rev l with
  | m :: before =>
      if is_user m && contains NEEDLE (content m)
      then set_messages who (rev before)
      else ret tt
  | [] => ret tt
  end.

(** [log(message)]: the entry is printed and kept in the transcript. *)
Definition log (env : Env) (message : str) : M unit :=
  t <- get now ;;
  effect (EPrint (py "[" ++ clock_text env t ++ py "] " ++ message)).

Definition Qlt_bool (a b : Q) : bool := negb (Qle_bool b a).

(** [min(a, b)] *)
Definition qmin (a b : Q) : Q := if Qle_bool a b then a else b.

Section Tables.

(** Python's Unicode tables, taken as given: the characters [\w] matches in
    a [str] pattern, and [str.lower]. *)
Variable word_char : char -> bool.
Variable lower : str -> str.

(** [re.findall(r"\w+", s)]: the maximal runs of word characters. *)
Fixpoint words_from (run : str) (s : str) : list str :=
  match s with
  | [] =>
      match run with
      | [] => []
      | _ => [run]
      end
  | c :: rest =>
      if word_char c then words_from (run ++ [c]) rest
      else
        match run with
        | [] => words_from [] rest
        | _ => run :: words_from [] rest
        end
  end.

Definition findall_words (s : str) : list str := words_from [] s.

(** [t in tset] *)
Definition in_set (t : str) (tset : list str) : bool := existsb (eqb t) tset.

(** [topic_similarity(text, topic)]. The quotient
    [common / max(1, len(toks))] is kept as an exact rational; Python's
    float is this quotient rounded to nearest, which keeps it within
    [[0,1]] and, for texts of fewer than 2^53 tokens, on the same side of
    0.5. The token set is a list read through [in_set]. *)
Definition topic_similarity (text topic : str) : Q :=
  if is_empty text || is_empty topic then 0
  else
    let toks := findall_words (lower text) in
    let tset := findall_words (lower topic) in
    match tset with
    | [] => 0
    | _ =>
        let common := List.length (filter (fun t => in_set t tset) toks) in
        Z.of_nat common # Pos.of_nat (Nat.max 1 (List.length toks))
    end.

(** The [for _ in range(n)] enforcement loop; [text] is [content_b]
    (or [content_a]). *)
Fixpoint enforce (env : Env) (cfg : CliConfig) (who : Agent) (n : nat)
  (text : str) : M str :=
  match n with
  | O => ret text
  | S n' =>
      stopped <- is_set env ;;
      if stopped then ret text
      else
        let sim := topic_similarity text (topic cfg) in
        if Qlt_bool sim (1 # 2) then
          append who (corrective (topic cfg)) ;;
          r2 <- chat env cfg who ;;
          let text2 := truncate_text cfg r2 in
          let text := if Qlt_bool sim (topic_similarity text2 (topic cfg))
                      then text2 else text in
          pop_corrective who ;;
          enforce env cfg who n' text
        else ret text
  end.

(** One agent's reply in a turn: the call, the enforcement, the log line
    and the two appends. *)
Definition agent_reply (env : Env) (cfg : CliConfig) (who : Agent) : M unit :=
  r <- chat env cfg who ;;
  text <- enforce env cfg who 2 (truncate_text cfg r) ;;
  log env (name_of cfg who ++ py ": " ++ text) ;;
  append who {| role := Assistant; content := text |} ;;
  append (other who) {| role := User; content := text |}.

(** [while slept < delay: if stop: break; sleep(min(0.05, delay - slept));
    slept += 0.05], in exact arithmetic. [fuel] bounds the iterations. *)
Fixpoint delay_loop (env : Env) (fuel : nat) (slept delay : Q) : M unit :=
  match fuel with
  | O => ret tt
  | S fuel' =>
      if Qlt_bool slept delay then
        stopped <- is_set env ;;
        if stopped then ret tt
        else
          sleep (qmin (1 # 20) (delay - slept)) ;;
          delay_loop env fuel' (slept + (1 # 20)) delay
      else ret tt
  end.

Definition interruptible_delay (env : Env) (delay : Q) : M unit :=
  delay_loop env (Z.to_nat (Qround.Qceiling (delay * 20))) 0 delay.

Definition round (env : Env) (cfg : CliConfig) (i : nat)
  : M Scheduler.LoopCtl :=
  stopped <- is_set env ;;
  if stopped then ret Scheduler.Break else
  log env ([NL] ++ py "--- Turn " ++ Scheduler.decimal (Z.of_nat i + 1) ++ py " ---") ;;
  agent_reply env cfg AgentB ;;
  stopped <- is_set env ;;
  if stopped then ret Scheduler.Break else
  agent_reply env cfg AgentA ;;
  interruptible_delay env (delay cfg) ;;
  ret Scheduler.Next.

Definition human_instruct : str :=
  py "Speak like a friendly human: keep replies short, natural, use contractions and greetings, and occasionally use small talk. Follow the example exchange: "
  ++ [NL] ++ py "Agent_B: 'Hello, how are you?'" ++ [NL]
  ++ py "Agent_A: 'I'm very well, thank you.'".

Definition base_sys (cfg : CliConfig) (who : Agent) : str :=
  let persona := match who with AgentA => persona_a cfg | AgentB => persona_b cfg end in
  py "You are " ++ name_of cfg who ++ py ". You are discussing the topic: '"
  ++ topic cfg ++ py "' with " ++ name_of cfg (other who)
  ++ py ". Be concise and engaging."
  ++ (if Scheduler.truthy persona
      then py " Persona: " ++ Scheduler.or_else persona [] else [])
  ++ (if humanize cfg then [SPACE] ++ human_instruct else []).

Definition initial_prompt (cfg : CliConfig) : str :=
  if humanize cfg then Scheduler.or_else (greeting cfg) (py "Hello, how are you?")
  else py "Let's discuss " ++ topic cfg ++ py ". I think...".

(** The histories at the first turn, then the [for i in range(turns)] loop. *)
Definition run_conversation (env : Env) (cfg : CliConfig) : M unit :=
  set_messages_a [{| role := System; content := base_sys cfg AgentA |}] ;;
  set_messages_b [{| role := System; content := base_sys cfg AgentB |}] ;;
  effect (EPrint (AGENT_B_NAME cfg ++ py " (initial thought): " ++ initial_prompt cfg)) ;;
  append_b {| role := User; content := initial_prompt cfg |} ;;
  Scheduler.for_range (Z.to_nat (turns cfg)) 0 (round env cfg).

End Tables.

(** The two tables on ASCII text, where they are [[A-Za-z0-9_]] and the
    shift of [A-Z] to [a-z]. *)
Definition ascii_word_char (c : char) : bool :=
  ((48 <=? c) && (c <=? 57) || (65 <=? c) && (c <=? 90) || (c =? 95)
   || (97 <=? c) && (c <=? 122))%N.
Definition ascii_lower (s : str) : str :=
  map (fun c => if ((65 <=? c) && (c <=? 90))%N then (c + 32)%N else c) s.

End TopicGuard.

(** ** AgentClient: how [chat_with_ollama] (multi_ollama_chat.py) reads the
    client's response *)

Module AgentClient.

(** A response payload: JSON-like values, and [PObj] for any other object
    (the client library's own response class). *)
#[warnings="-register-all"]
Inductive pyval :=
| PNone
| PBool (b : bool)
| PInt (z : Z)
| PStr (s : str)
| PList (l : list pyval)
| PDict (d : list (str * pyval))
| PObj (repr : str).

(** [bool(v)] *)
Definition truthy (v : pyval) : bool :=
  match v with
  | PNone => false
  | PBool b => b
  | PInt z => negb (z =? 0)%Z
  | PStr s => negb (is_empty s)
  | PList l => match l with [] => false | _ => true end
  | PDict d => match d with [] => false | _ => true end
  | PObj _ => true
  end.

Fixpoint lookup (key : str) (d : list (str * pyval)) : option pyval :=
  match d with
  | [] => None
  | (k, v) :: rest => if eqb k key then Some v else lookup key rest
  end.

(** [d.get(key)] *)
Definition get (key : str) (d : list (str * pyval)) : pyval :=
  match lookup key d with
  | Some v => v
  | None => PNone
  end.

(** [a or b] *)
Definition py_or (a b : pyval) : pyval := if truthy a then a else b.

(** What the function does: return [{"content": text}], or let an exception
    escape. *)
Inductive Result :=
| Content (text : str)
| Raises (exn : string).

Inductive Transport :=
| Answered (response : pyval)
| Failed (e : str).              (* client.chat raised e *)

Definition MESSAGE : str := py "message".
Definition CONTENT : str := py "content".
Definition TEXT : str := py "text".

Section Text.

(** Taken as given: [str(x)], the two regular-expression probes of
    [extract_from_text] on a non-empty string, and the rewriting steps of
    [clean_content] on a non-empty string. *)
Variable py_str : pyval -> str.
Variable extract_re : str -> str.
Variable clean_re : str -> str.

(** [extract_from_text(text)]: [re.search] on anything but a string raises
    [TypeError]. *)
Definition extract_from_text (text : pyval) : Result :=
  if negb (truthy text) then Content []
  else
    match text with
    | PStr s => Content (extract_re s)
    | _ => Raises "TypeError"
    end.

Definition clean_content (text : str) : str :=
  match text with
  | [] => []
  | _ => clean_re text
  end.

(** [{"content": clean_content(extract_from_text(v))}] *)
Definition reply (v : pyval) : Result :=
  match extract_from_text v with
  | Content t => Content (clean_content t)
  | Raises e => Raises e
  end.

(** The dispatch on the response's shape. *)
Definition read_response (response : pyval) : Result :=
  match response with
  | PDict d =>
      match lookup MESSAGE d with
      | Some (PDict m) =>
          reply (py_or (get CONTENT m)
                   (py_or (get TEXT m) (PStr (py_str (PDict m)))))
      | Some msg => reply (PStr (py_str msg))
      | None =>
          match lookup CONTENT d with
          | Some c => reply c
          | None => reply (PStr (py_str response))
          end
      end
  | _ => reply (PStr (py_str response))
  end.

Definition chat_with_ollama (client_url : str) (t : Transport) : Result :=
  match t with
  | Failed e =>
      Content (py "[ERROR calling " ++ client_url ++ py ": " ++ e ++ py "]")
  | Answered response => read_response response
  end.

End Text.

Definition is_string (v : option pyval) : bool :=
  match v with
  | Some (PStr _) => true
  | _ => false
  end.

(** The payload holds a content string, directly or under a message object. *)
Definition has_content_string (response : pyval) : bool :=
  match response with
  | PDict d =>
      is_string (lookup CONTENT d) ||
      match lookup MESSAGE d with
      | Some (PDict m) => is_string (lookup CONTENT m)
      | _ => false
      end
  | _ => false
  end.

End AgentClient.

(** ** MergePipeline: [run_and_inject] (tools/live_merge_and_inject.py) and
    [run] (tools/real_merge_run.py) *)

Module Merge.

(** What one [chat_with_ollama] call does. *)
Inductive CallOutcome :=
| Answer (content : str)
| Error (e : str)               (* the call raised e *)
| Hang.                         (* no answer ever comes *)

Record MergeRecord := {
  answer_a : str; answer_b : str;
  crit_a : str; crit_b : str;
  draft_a : str; draft_b : str;
  final : str
}.

(** [a or b] on strings *)
Definition or_str (a b : str) : str :=
  match a with
  | [] => b
  | _ => a
  end.

Definition SENTINEL : str := py "[ERROR: no merged output]".

(** [call_with_timeout(url, model, messages, timeout=30).get("content", "")]
    of live_merge_and_inject.py: the worker's exception and the timeout both
    become inline text. *)
Definition call_with_timeout (client_url : str) (o : CallOutcome) : str :=
  match o with
  | Answer c => c
  | Error e => py "[ERROR contacting " ++ client_url ++ py ": " ++ e ++ py "]"
  | Hang => py "[ERROR: timeout contacting " ++ client_url ++ py "]"
  end.

(** [run_and_inject], up to the value of [final]. The seven calls are, in
    order: answers A and B, critiques A and B, drafts A and B, synthesis
    (by A). *)
Definition run_and_inject (a_url b_url : str) (calls : nat -> CallOutcome)
  : MergeRecord :=
  let answer_a := strip (call_with_timeout a_url (calls 0%nat)) in
  let answer_b := strip (call_with_timeout b_url (calls 1%nat)) in
  let crit_a := strip (call_with_timeout a_url (calls 2%nat)) in
  let crit_b := strip (call_with_timeout b_url (calls 3%nat)) in
  let draft_a := strip (call_with_timeout a_url (calls 4%nat)) in
  let draft_b := strip (call_with_timeout b_url (calls 5%nat)) in
  let final := strip (call_with_timeout a_url (calls 6%nat)) in
  let final := match final with
               | [] => or_str draft_a (or_str draft_b SENTINEL)
               | _ => final
               end in
  {| answer_a := answer_a; answer_b := answer_b;
     crit_a := crit_a; crit_b := crit_b;
     draft_a := draft_a; draft_b := draft_b; final := final |}.

(** One guarded call of real_merge_run.py:
    [try: x = chat_with_ollama(...).get("content","").strip()
     except Exception as e: x = on_error(e)]. The call has no timeout of its
    own: [None] when it never answers. *)
Definition guarded (o : CallOutcome) (on_error : str -> str) : option str :=
  match o with
  | Answer c => Some (strip c)
  | Error e => Some (on_error e)
  | Hang => None
  end.

Definition tagged (tag : string) (e : str) : str :=
  py "[ERROR " ++ py tag ++ py ": " ++ e ++ py "]".

Definition and_then {A B} (x : option A) (k : A -> option B) : option B :=
  match x with
  | Some a => k a
  | None => None
  end.

(** [run(question, a_url, a_model, b_url, b_model)] of real_merge_run.py. *)
Definition run (calls : nat -> CallOutcome) : option MergeRecord :=
  and_then (guarded (calls 0%nat) (fun e => strip (tagged "contacting A" e))) (fun answer_a =>
  and_then (guarded (calls 1%nat) (fun e => strip (tagged "contacting B" e))) (fun answer_b =>
  and_then (guarded (calls 2%nat) (tagged "critique A")) (fun crit_a =>
  and_then (guarded (calls 3%nat) (tagged "critique B")) (fun crit_b =>
  and_then (guarded (calls 4%nat) (tagged "merge draft A")) (fun draft_a =>
  and_then (guarded (calls 5%nat) (tagged "merge draft B")) (fun draft_b =>
  and_then (guarded (calls 6%nat)
              (fun e => or_str draft_a (or_str draft_b (tagged "synth" e)))) (fun final =>
  Some {| answer_a := answer_a; answer_b := answer_b;
          crit_a := crit_a; crit_b := crit_b;
          draft_a := draft_a; draft_b := draft_b; final := final |}))))))).

End Merge.

(** ** The rolling memory: brain.py *)

Module Brain.

Record Entry := {
  timestamp : str;
  agent : str;
  role : str;
  message : str
}.

(** brain.json: [None] while the file does not exist, its ['history'] list
    otherwise. *)
Definition BrainFile := option (list Entry).

Definition load_brain (file : BrainFile) : list Entry :=
  match file with
  | Some history => history
  | None => []
  end.

Definition save_brain (history : list Entry) : BrainFile := Some history.

(** [l[-n:]] for [n > 0] *)
Definition last_n {A} (n : nat) (l : list A) : list A :=
  skipn (List.length l - n) l.

Definition LIMIT : nat := 200.

(** [add_to_brain(agent, message, role)] at wall-clock time [now]. *)
Definition add_to_brain (now : str) (agent message role : str)
  (file : BrainFile) : BrainFile :=
  let history := load_brain file in
  let history := history ++ [{| timestamp := now; agent := agent;
                                role := role; message := message |}] in
  save_brain (last_n LIMIT history).

(** A sequence of calls, oldest first. *)
Definition add_all (calls : list Entry) (file : BrainFile) : BrainFile :=
  fold_left
    (fun f e => add_to_brain (timestamp e) (agent e) (message e) (role e) f)
    calls file.

(** One line of the summary: [f"{h['agent']} ({h['role']}): {h['message']}"] *)
Definition line (h : Entry) : str :=
  agent h ++ py " (" ++ role h ++ py "): " ++ message h.

Definition HEADER : str :=
  py "Summarize the main arguments and conclusions from our conversation so far. "
  ++ py "Be concise and cover both perspectives." ++ [NL].

(** [get_brain_summary_prompt()] *)
Definition get_brain_summary_prompt (file : BrainFile) : str :=
  let history := last_n 40 (load_brain file) in
  HEADER ++ join [NL] (map line history).

End Brain.

(** ** The recent endpoints of an agent: [OllamaGUI._add_recent_url]
    (gui_ollama_chat.py) *)

Module RecentUrls.

(** [url in lst] *)
Definition member (url : str) (lst : list str) : bool := existsb (eqb url) lst.

(** [lst.remove(url)]: the first occurrence goes. *)
Fixpoint remove (url : str) (lst : list str) : list str :=
  match lst with
  | [] => []
  | x :: rest => if eqb x url then rest else x :: remove url rest
  end.

Definition CAPACITY : nat := 10.

(** [_add_recent_url(agent, url)] on the list kept for [agent]: what the
    list is afterwards. [url] is [None] for anything that is not a string. *)
Definition _add_recent_url (lst : list str) (url : option str) : list str :=
  match url with
  | Some (c :: s) =>
      let url := strip (c :: s) in
      if is_empty url then lst
      else
        let lst := if member url lst then remove url lst else lst in
        firstn CAPACITY (url :: lst)
  | _ => lst
  end.

End RecentUrls.

(** * Properties *)

(** ** Stripping and trimming *)

Section StringFacts.

Variable p : char -> bool.

Lemma dropwhile_length (s : str) :
  (List.length (dropwhile p s) <= List.length s)%nat.
Proof.
  induction s as [|c r IH]; simpl; [lia|].
  destruct (p c); simpl; lia.
Qed.

Lemma dropwhile_idem (s : str) : dropwhile p (dropwhile p s) = dropwhile p s.
Proof.
  induction s as [|c r IH]; simpl; [reflexivity|].
  destruct (p c) eqn:E; [exact IH|].
  simpl. now rewrite E.
Qed.

Lemma dropwhile_head (s : str) (c : char) (r : str) :
  dropwhile p s = c :: r -> p c = false.
Proof.
  induction s as [|d s' IH]; simpl; [discriminate|].
  destruct (p d) eqn:E; [exact IH|].
  intros H. injection H as -> _. exact E.
Qed.

Lemma dropwhile_keep (c : char) (r : str) :
  p c = false -> dropwhile p (c :: r) = c :: r.
Proof. intros H. simpl. now rewrite H. Qed.

(** Dropping from the left of [x ++ [c]]. *)
Lemma dropwhile_snoc (x : str) (c : char) :
  dropwhile p (x ++ [c]) =
  match dropwhile p x with
  | [] => if p c then [] else [c]
  | y => y ++ [c]
  end.
Proof.
  induction x as [|d x IH]; simpl; [reflexivity|].
  destruct (p d); [exact IH|reflexivity].
Qed.

(** [rev (dropwhile p (rev s))]: dropping from the right. *)
Definition rdrop (s : str) : str := rev (dropwhile p (rev s)).

Lemma rdrop_length (s : str) : (List.length (rdrop s) <= List.length s)%nat.
Proof.
  unfold rdrop. rewrite length_rev.
  etransitivity; [apply dropwhile_length|]. now rewrite length_rev.
Qed.

Lemma rdrop_cons (c : char) (r : str) :
  rdrop (c :: r) =
  match rdrop r with
  | [] => if p c then [] else [c]
  | x => c :: x
  end.
Proof.
  unfold rdrop. simpl. rewrite dropwhile_snoc.
  destruct (dropwhile p (rev r)) as [|d y] eqn:E; simpl.
  - destruct (p c); reflexivity.
  - rewrite rev_app_distr. simpl.
    destruct (rev y ++ [d]) eqn:E'; [|reflexivity].
    now destruct (rev y).
Qed.

Lemma rdrop_idem (s : str) : rdrop (rdrop s) = rdrop s.
Proof.
  unfold rdrop. rewrite rev_involutive, dropwhile_idem. reflexivity.
Qed.

Lemma rdrop_snoc_keep (s : str) (c : char) :
  p c = false -> rdrop (s ++ [c]) = s ++ [c].
Proof.
  intros H. unfold rdrop. rewrite rev_app_distr. simpl.
  rewrite H. simpl. now rewrite rev_involutive.
Qed.

End StringFacts.

Lemma rstrip_is_rdrop (s : str) : rstrip s = rdrop isspace s.
Proof. reflexivity. Qed.

Lemma strip_length (s : str) : (List.length (strip s) <= List.length s)%nat.
Proof.
  unfold strip, lstrip. rewrite rstrip_is_rdrop.
  etransitivity; [apply rdrop_length|apply dropwhile_length].
Qed.

Lemma rstrip_chars_length (cs : list char) (s : str) :
  (List.length (rstrip_chars cs s) <= List.length s)%nat.
Proof. apply (rdrop_length (fun c => mem c cs)). Qed.

(** A string is trimmed when neither end is whitespace. *)
Definition trimmed (s : str) : Prop := lstrip s = s /\ rstrip s = s.

Lemma strip_trimmed_id (s : str) : trimmed s -> strip s = s.
Proof. intros [L R]. unfold strip. now rewrite L, R. Qed.

Lemma rstrip_keeps_head (c : char) (r : str) :
  isspace c = false -> exists r', rstrip (c :: r) = c :: r'.
Proof.
  intros H. rewrite rstrip_is_rdrop, rdrop_cons. rewrite H.
  destruct (rdrop isspace r); eauto.
Qed.

Lemma strip_is_trimmed (s : str) : trimmed (strip s).
Proof.
  unfold trimmed, strip. split.
  - destruct (lstrip s) as [|c r] eqn:E; [reflexivity|].
    apply dropwhile_head in E.
    destruct (rstrip_keeps_head c r E) as [r' ->].
    unfold lstrip. now apply dropwhile_keep.
  - rewrite !rstrip_is_rdrop. apply rdrop_idem.
Qed.

Lemma strip_idem (s : str) : strip (strip s) = strip s.
Proof. apply strip_trimmed_id, strip_is_trimmed. Qed.

Lemma trimmed_nil : trimmed [].
Proof. split; reflexivity. Qed.

Lemma trimmed_head (c : char) (r : str) : trimmed (c :: r) -> isspace c = false.
Proof. intros [L _]. unfold lstrip in L. now apply dropwhile_head in L. Qed.

(** A string that starts and ends with non-whitespace is trimmed. *)
Lemma trimmed_ends (c : char) (u : str) (d : char) :
  isspace c = false -> isspace d = false -> trimmed ((c :: u) ++ [d]).
Proof.
  intros Hc Hd. split.
  - unfold lstrip. simpl. now rewrite Hc.
  - rewrite rstrip_is_rdrop. now apply rdrop_snoc_keep.
Qed.

Lemma trimmed_single (c : char) : isspace c = false -> trimmed [c].
Proof.
  intros H. split.
  - unfold lstrip. simpl. now rewrite H.
  - rewrite rstrip_is_rdrop. now apply (rdrop_snoc_keep isspace []).
Qed.

Lemma term_not_space (c : char) : is_term c = true -> isspace c = false.
Proof.
  unfold is_term, TERMINATORS, mem. simpl. rewrite !orb_true_iff.
  intros [H|[H|[H|H]]]; try discriminate;
    apply N.eqb_eq in H; subst; reflexivity.
Qed.

Lemma eqb_refl (s : str) : eqb s s = true.
Proof. induction s; simpl; [reflexivity|]. now rewrite N.eqb_refl. Qed.

Lemma eqb_eq (a b : str) : eqb a b = true <-> a = b.
Proof.
  split.
  - revert b. induction a as [|x a IH]; destruct b as [|y b]; simpl;
      try discriminate; [reflexivity|].
    rewrite andb_true_iff. intros [H1 H2].
    apply N.eqb_eq in H1. apply IH in H2. now subst.
  - intros ->. apply eqb_refl.
Qed.

Lemma ends_in_snoc (set : list char) (s : str) (c : char) :
  ends_in set (s ++ [c]) = mem c set.
Proof. unfold ends_in. rewrite rev_app_distr. reflexivity. Qed.

(** ** ResponseSanitizer: the short-turn policy *)

Section ShortTurn.

Import Sanitizer.

Lemma lazy_sentence_some (s : str) :
  forall acc g, lazy_sentence acc s = Some g ->
  exists u c rest, s = u ++ c :: rest /\ g = acc ++ u ++ [c] /\ is_term c = true.
Proof.
  induction s as [|c rest IH]; simpl; intros acc g H; [discriminate|].
  destruct (is_term c && boundary rest) eqn:E.
  - injection H as <-. apply andb_true_iff in E as [E _].
    exists [], c, rest. auto.
  - apply IH in H as (u & d & rest' & -> & -> & Hd).
    exists (c :: u), d, rest'. rewrite <- app_assoc. auto.
Qed.

(** Whether the lazy scan fails does not depend on what it has consumed. *)
Lemma lazy_sentence_none (s : str) :
  forall acc acc', lazy_sentence acc s = None -> lazy_sentence acc' s = None.
Proof.
  induction s as [|c rest IH]; simpl; intros acc acc' H; [reflexivity|].
  destruct (is_term c && boundary rest); [discriminate|].
  eapply IH, H.
Qed.

(** The leftmost match starts at the first character: [.] matches anything
    under [re.S], so a later start never succeeds where the first fails. *)
Lemma re_search_match_at (s : str) : re_search s = match_at s.
Proof.
  induction s as [|c s IH]; [reflexivity|].
  cbn [re_search]. destruct (match_at (c :: s)) eqn:E; [reflexivity|].
  rewrite IH. destruct s as [|d s']; [reflexivity|].
  cbn [match_at lazy_sentence] in *.
  destruct (is_term d && boundary s'); [discriminate|].
  eapply lazy_sentence_none, E.
Qed.

Lemma re_search_prefix (s g : str) :
  re_search s = Some g ->
  exists h u c rest,
    s = g ++ rest /\ g = (h :: u) ++ [c] /\ is_term c = true.
Proof.
  rewrite re_search_match_at. destruct s as [|h s']; [discriminate|].
  cbn [match_at]. intros H.
  apply lazy_sentence_some in H as (u & c & rest & -> & -> & Hc).
  exists h, u, c, rest. repeat split; auto.
  simpl. now rewrite <- app_assoc.
Qed.

Lemma re_split_once_hd_length (s : str) :
  (List.length (hd [] (re_split_once s)) <= List.length s)%nat.
Proof.
  induction s as [|c r IH]; simpl; [lia|].
  destruct (mem c SEPARATORS); simpl; [lia|].
  destruct (re_split_once r); simpl in *; lia.
Qed.

Lemma with_ellipsis_length (s : str) :
  (List.length (with_ellipsis s) <= List.length s + 1)%nat.
Proof.
  unfold with_ellipsis. destruct (negb (ends_in TERMINATORS s)); [|lia].
  rewrite length_app. simpl.
  pose proof (rstrip_chars_length [SPACE; COMMA; SEMI; COLON] s). lia.
Qed.

(** The first sentence found in a trimmed text is itself trimmed. *)
Lemma first_sentence_trimmed (t g : str) :
  trimmed t -> re_search t = Some g -> trimmed g.
Proof.
  intros Ht H. apply re_search_prefix in H as (h & u & c & rest & E & -> & Hc).
  apply trimmed_ends; [|now apply term_not_space].
  rewrite E in Ht. now apply trimmed_head in Ht.
Qed.

Lemma trunc_short_unfold (cfg : Policy) (text : str) (who : Agent) :
  text <> [] -> short_turn cfg = true ->
  trunc cfg text who =
  let maxc := match who with
              | AgentA => max_chars_a cfg
              | AgentB => max_chars_b cfg
              end in
  match re_search (strip text) with
  | Some g => strip g
  | None =>
      let s := strip (hd [] (re_split_once (strip text))) in
      if over_limit maxc s then s else with_ellipsis s
  end.
Proof.
  intros Hne Hshort. destruct text as [|c0 text']; [congruence|].
  unfold trunc. rewrite Hshort.
  destruct (re_search (strip (c0 :: text'))); [|reflexivity].
  cbv zeta. destruct (over_limit _ (strip s)); [reflexivity|].
  now destruct (_ <? _)%Z.
Qed.

(** C1, as amended. Under the short-turn policy [trunc] returns the empty
    string for an empty text; the whole first sentence of the stripped text,
    verbatim and whatever [maxChars] is, when there is one; and otherwise the
    fragment before the first comma, semicolon, colon, backslash or dash,
    which gets an ellipsis appended unless it is longer than a positive
    [maxChars] or already ends in a terminator. The result is at most one
    character longer than the text. *)
Theorem trunc_short_turn (cfg : Policy) (text : str) (who : Agent) :
  short_turn cfg = true ->
  let t := strip text in
  let maxc := match who with
              | AgentA => max_chars_a cfg
              | AgentB => max_chars_b cfg
              end in
  let out := trunc cfg text who in
  (List.length out <= List.length text + 1)%nat /\
  (text = [] -> out = []) /\
  (text <> [] ->
   match re_search t with
   | Some g => out = g /\ exists rest, t = g ++ rest
   | None =>
       let s := strip (hd [] (re_split_once t)) in
       if over_limit maxc s || ends_in TERMINATORS s then out = s
       else out = rstrip_chars [SPACE; COMMA; SEMI; COLON] s ++ [ELLIPSIS]
            /\ ends_in [ELLIPSIS] out = true
   end).
Proof.
  intros Hshort.
  assert (Hd : text = [] \/ text <> [])
    by (destruct text; [left|right]; congruence).
  destruct Hd as [->|Hne].
  { simpl. repeat split; [lia|congruence]. }
  intros t maxc out.
  pose proof (trunc_short_unfold cfg text who Hne Hshort) as Hout.
  fold out t maxc in Hout. cbv zeta in Hout. fold t in Hout.
  pose proof (strip_length text) as Ht. fold t in Ht.
  assert (Hcases :
    match re_search t with
    | Some g => out = g /\ exists rest, t = g ++ rest
    | None =>
        let s := strip (hd [] (re_split_once t)) in
        if over_limit maxc s || ends_in TERMINATORS s then out = s
        else out = rstrip_chars [SPACE; COMMA; SEMI; COLON] s ++ [ELLIPSIS]
             /\ ends_in [ELLIPSIS] out = true
    end).
  { destruct (re_search t) as [g|] eqn:Eg.
    - pose proof (first_sentence_trimmed t g (strip_is_trimmed text) Eg) as Hg.
      rewrite (strip_trimmed_id g Hg) in Hout.
      apply re_search_prefix in Eg as (h & u & c & rest & E & _ & _).
      split; [exact Hout|]. now exists rest.
    - cbv zeta. set (s := strip (hd [] (re_split_once t))) in *.
      destruct (over_limit maxc s); simpl; [exact Hout|].
      unfold with_ellipsis in Hout.
      destruct (ends_in TERMINATORS s); simpl in *; [exact Hout|].
      split; [exact Hout|]. rewrite Hout. now rewrite ends_in_snoc. }
  split; [|split; [congruence|intros _; exact Hcases]].
  destruct (re_search t) as [g|] eqn:Eg.
  - destruct Hcases as [-> [rest E]].
    assert (List.length g <= List.length t)%nat
      by (rewrite E, length_app; lia).
    lia.
  - rewrite Hout.
    set (s := strip (hd [] (re_split_once t))) in *.
    assert (Hs : (List.length s <= List.length text)%nat).
    { subst s. etransitivity; [apply strip_length|].
      etransitivity; [apply re_split_once_hd_length|exact Ht]. }
    destruct (over_limit maxc s); [lia|].
    pose proof (with_ellipsis_length s). lia.
Qed.

Definition short_policy (maxc : option Z) : Policy :=
  {| short_turn := true; max_chars_a := maxc; max_chars_b := maxc |}.

Lemma trunc_short_turn_witness :
  short_turn (short_policy None) = true /\
  trunc (short_policy None) (py "Hello there. How are you? Fine.") AgentB
  = py "Hello there.".
Proof.
  split; [reflexivity|].
  refine (proj1 (proj2 (proj2 (trunc_short_turn (short_policy None)
                          (py "Hello there. How are you? Fine.") AgentB
                          eq_refl)) _)).
  discriminate.
Defined.

(** C1 as stated fails: a text with no terminator and no separator comes
    back one character longer, and a fragment longer than [maxChars] comes
    back without an ellipsis although the text has no sentence. *)
Lemma trunc_short_turn_counterexample :
  trunc (short_policy None) (py "abc") AgentA = py "abc" ++ [ELLIPSIS]
  /\ (List.length (py "abc")
      < List.length (trunc (short_policy None) (py "abc") AgentA))%nat
  /\ re_search (strip (py "abcdef, xyz")) = None
  /\ trunc (short_policy (Some 3%Z)) (py "abcdef, xyz") AgentA = py "abcdef"
  /\ ends_in [ELLIPSIS] (py "abcdef") = false.
Proof. vm_compute. repeat split; lia. Qed.

(** Scenario 1 and scenario 2 of the specification. *)
Example trunc_scenario_1 :
  trunc (short_policy None) (py "Hello there. How are you? Fine.") AgentA
  = py "Hello there.".
Proof. reflexivity. Qed.

Example trunc_scenario_2 :
  trunc {| short_turn := false; max_chars_a := Some 5%Z; max_chars_b := Some 5%Z |}
        (py "abcdefghij") AgentA
  = py "abcde" ++ [ELLIPSIS].
Proof. reflexivity. Qed.

End ShortTurn.

(** ** The rolling memory *)

Section BrainFacts.

Import Brain.

Lemma last_n_length {A} (n : nat) (l : list A) :
  List.length (last_n n l) = Nat.min n (List.length l).
Proof. unfold last_n. rewrite length_skipn. lia. Qed.

Lemma last_n_short {A} (n : nat) (l : list A) :
  (List.length l <= n)%nat -> last_n n l = l.
Proof.
  intros H. unfold last_n.
  replace (List.length l - n)%nat with 0%nat by lia. reflexivity.
Qed.

(** Trimming before appending loses nothing the final trim would keep. *)
Lemma last_n_app {A} (n : nat) (l m : list A) :
  last_n n (last_n n l ++ m) = last_n n (l ++ m).
Proof.
  destruct (Nat.le_gt_cases (List.length l) n) as [H|H].
  - now rewrite (last_n_short n l H).
  - unfold last_n. rewrite !length_app, length_skipn.
    set (k := (List.length l - n)%nat).
    replace (List.length l - k + List.length m - n)%nat
      with (List.length m) by lia.
    replace (List.length l + List.length m - n)%nat
      with (k + List.length m)%nat by lia.
    rewrite (Nat.add_comm k), <- skipn_skipn.
    rewrite (skipn_app k l m).
    replace (k - List.length l)%nat with 0%nat by lia.
    reflexivity.
Qed.

Lemma load_add (e : Entry) (file : BrainFile) :
  load_brain (add_to_brain (timestamp e) (agent e) (message e) (role e) file)
  = last_n LIMIT (load_brain file ++ [e]).
Proof. destruct e. reflexivity. Qed.

Lemma load_add_all (calls : list Entry) :
  forall (file : BrainFile) (e : Entry),
  load_brain (add_all (e :: calls) file)
  = last_n LIMIT (load_brain file ++ e :: calls).
Proof.
  induction calls as [|e' calls IH]; intros file e.
  - apply load_add.
  - change (add_all (e :: e' :: calls) file)
      with (add_all (e' :: calls)
              (add_to_brain (timestamp e) (agent e) (message e) (role e) file)).
    rewrite IH, load_add, last_n_app, <- app_assoc. reflexivity.
Qed.

(** C10. After a call of [add_to_brain] the stored history has at most 200
    entries; it is the last 200 of the old history followed by the new
    entry, so a history that was full loses exactly its oldest entry; and
    after any sequence of calls it is the last 200 of everything appended. *)
Theorem add_to_brain_keeps_last_200
  (now agent message role : str) (file : BrainFile) (earlier : list Entry) :
  let e := {| timestamp := now; agent := agent; role := role;
              message := message |} in
  let after := load_brain (add_to_brain now agent message role file) in
  (List.length after <= 200)%nat
  /\ after = last_n 200 (load_brain file ++ [e])
  /\ (List.length (load_brain file) = 200%nat ->
      after = tl (load_brain file) ++ [e])
  /\ (List.length (load_brain file) < 200 ->
      after = load_brain file ++ [e])%nat
  /\ load_brain (add_all (earlier ++ [e]) file)
     = last_n 200 (load_brain file ++ earlier ++ [e]).
Proof.
  intros e after.
  assert (Hafter : after = last_n 200 (load_brain file ++ [e])) by reflexivity.
  split; [|split; [|split; [|split]]].
  - rewrite Hafter, last_n_length. lia.
  - exact Hafter.
  - intros H. rewrite Hafter. unfold last_n.
    rewrite length_app, H. simpl.
    destruct (load_brain file); [discriminate|reflexivity].
  - intros H. rewrite Hafter. apply last_n_short.
    rewrite length_app. simpl. lia.
  - destruct earlier as [|e0 earlier]; [exact (load_add e file)|].
    exact (load_add_all (earlier ++ [e]) file e0).
Qed.

Lemma add_to_brain_keeps_last_200_witness :
  List.length (load_brain (add_to_brain (py "t") (py "Ava") (py "hi") (py "user")
                   (Some (repeat {| timestamp := []; agent := []; role := [];
                                    message := [] |} 200))))
  = 200%nat.
Proof.
  pose proof (add_to_brain_keeps_last_200 (py "t") (py "Ava") (py "hi") (py "user")
                (Some (repeat {| timestamp := []; agent := []; role := [];
                                 message := [] |} 200)) []) as H.
  cbv zeta in H. destruct H as (_ & _ & H & _).
  rewrite H by apply repeat_length.
  vm_compute. reflexivity.
Defined.

End BrainFacts.

(** ** MergePipeline: the value of [final] *)

Section MergeFacts.

Import Merge.

Lemma strip_contact_error (url e : str) :
  strip (call_with_timeout url (Error e)) = call_with_timeout url (Error e).
Proof.
  apply strip_trimmed_id. unfold call_with_timeout. rewrite !app_assoc.
  apply (trimmed_ends 91%N
           (((py "ERROR contacting " ++ url) ++ py ": ") ++ e) 93%N);
    reflexivity.
Qed.

Lemma strip_timeout_error (url : str) :
  strip (call_with_timeout url Hang) = call_with_timeout url Hang.
Proof.
  apply strip_trimmed_id. unfold call_with_timeout. rewrite !app_assoc.
  apply (trimmed_ends 91%N (py "ERROR: timeout contacting " ++ url) 93%N);
    reflexivity.
Qed.

(** C5, as amended. In [run_and_inject] a synthesis call that returns text
    which is empty once stripped makes [final] draft A when that is
    non-empty, else draft B when that is non-empty, else the sentinel; a
    synthesis call that raises or times out makes [final] its inline error
    text, with no fallback; so [final] is never empty. In [run] of
    real_merge_run.py a synthesis call that raises [e] makes [final] draft A,
    else draft B, else ["[ERROR synth: e]"]. *)
Theorem merge_final (a_url b_url : str) (calls : nat -> CallOutcome) :
  let r := run_and_inject a_url b_url calls in
  final r <> []
  /\ match calls 6%nat with
     | Answer c =>
         match strip c with
         | [] =>
             match draft_a r, draft_b r with
             | _ :: _, _ => final r = draft_a r
             | [], _ :: _ => final r = draft_b r
             | [], [] => final r = SENTINEL
             end
         | s => final r = s
         end
     | Error e =>
         final r = py "[ERROR contacting " ++ a_url ++ py ": " ++ e ++ py "]"
     | Hang => final r = py "[ERROR: timeout contacting " ++ a_url ++ py "]"
     end
  /\ (forall e r', calls 6%nat = Error e -> run calls = Some r' ->
      match draft_a r', draft_b r' with
      | _ :: _, _ => final r' = draft_a r'
      | [], _ :: _ => final r' = draft_b r'
      | [], [] => final r' = py "[ERROR synth: " ++ e ++ py "]"
      end).
Proof.
  intros r.
  assert (Hcases :
    match calls 6%nat with
    | Answer c =>
        match strip c with
        | [] =>
            match draft_a r, draft_b r with
            | _ :: _, _ => final r = draft_a r
            | [], _ :: _ => final r = draft_b r
            | [], [] => final r = SENTINEL
            end
        | s => final r = s
        end
    | Error e =>
        final r = py "[ERROR contacting " ++ a_url ++ py ": " ++ e ++ py "]"
    | Hang => final r = py "[ERROR: timeout contacting " ++ a_url ++ py "]"
    end).
  { subst r. unfold run_and_inject. cbn [final draft_a draft_b].
    destruct (calls 6%nat) as [c|e|].
    - cbn [call_with_timeout]. destruct (strip c); [|reflexivity].
      destruct (strip (call_with_timeout a_url (calls 4%nat)));
        [|reflexivity].
      destruct (strip (call_with_timeout b_url (calls 5%nat))); reflexivity.
    - rewrite strip_contact_error. reflexivity.
    - rewrite strip_timeout_error. reflexivity. }
  split; [|split; [exact Hcases|]].
  - destruct (calls 6%nat) as [c|e|].
    + destruct (strip c).
      * destruct (draft_a r), (draft_b r); rewrite Hcases; discriminate.
      * rewrite Hcases. discriminate.
    + rewrite Hcases. discriminate.
    + rewrite Hcases. discriminate.
  - intros e r' He Hrun. unfold run, and_then in Hrun.
    repeat match type of Hrun with
    | match guarded ?o ?h with _ => _ end = _ =>
        let x := fresh "x" in
        destruct (guarded o h) as [x|] eqn:?; [|discriminate]
    end.
    injection Hrun as <-. cbn [final draft_a draft_b].
    match goal with H : guarded (calls 6%nat) _ = _ |- _ =>
      rewrite He in H; cbn [guarded] in H; injection H as <- end.
    destruct x3, x4; reflexivity.
Qed.

Definition timed_out_synthesis (k : nat) : CallOutcome :=
  if (k =? 6)%nat then Hang else Answer (py "draft").

(** C5 as stated fails: the synthesis call fails (it times out), both drafts
    are non-empty, and [final] is the inline error text, not a draft. *)
Lemma merge_final_counterexample :
  draft_a (run_and_inject (py "http://a") (py "http://b") timed_out_synthesis)
  = py "draft"
  /\ final (run_and_inject (py "http://a") (py "http://b") timed_out_synthesis)
     = py "[ERROR: timeout contacting http://a]"
  /\ final (run_and_inject (py "http://a") (py "http://b") timed_out_synthesis)
     <> draft_a (run_and_inject (py "http://a") (py "http://b")
                   timed_out_synthesis).
Proof. vm_compute. repeat split. discriminate. Qed.

Definition empty_synthesis (k : nat) : CallOutcome :=
  if (k =? 6)%nat then Answer (py "  ") else Answer (py "draft").

Lemma merge_final_witness :
  final (run_and_inject (py "http://a") (py "http://b") empty_synthesis)
  = py "draft".
Proof.
  exact (proj1 (proj2 (merge_final (py "http://a") (py "http://b")
                         empty_synthesis))).
Defined.

(** In [run] of real_merge_run.py an empty synthesis answer is kept as it
    is: the fallback there guards the exception only. *)
Example real_merge_run_empty_final :
  option_map final (run empty_synthesis) = Some []
  /\ option_map draft_a (run empty_synthesis) = Some (py "draft").
Proof. vm_compute. split; reflexivity. Qed.

End MergeFacts.

(** ** AgentClient: payloads without a content string *)

Section AgentClientFacts.

Import AgentClient.

Variable py_str : pyval -> str.
Variable extract_re : str -> str.
Variable clean_re : str -> str.

(** The content [chat_with_ollama] returns when it reads [s] as the text. *)
Definition as_text (s : str) : Result :=
  reply extract_re clean_re (PStr s).

Lemma reply_falsy (v : pyval) :
  truthy v = false -> reply extract_re clean_re v = Content [].
Proof.
  intros H. unfold reply, extract_from_text. now rewrite H.
Qed.

Lemma reply_not_string (v : pyval) :
  truthy v = true -> is_string (Some v) = false ->
  reply extract_re clean_re v = Raises "TypeError".
Proof.
  intros H S. unfold reply, extract_from_text. rewrite H.
  destruct v; simpl in *; congruence.
Qed.

Lemma get_not_string (key : str) (d : list (str * pyval)) :
  is_string (lookup key d) = false -> is_string (Some (get key d)) = false.
Proof. unfold get. now destruct (lookup key d). Qed.

(** C7, as amended. For a response whose payload holds no content string,
    [chat_with_ollama] reports no error of its own: it reads the payload as
    text. The content is the cleaned [str(payload)] when the payload is no
    dict or has neither key, the cleaned [str(message)] when the message is
    no dict or has no truthy content or text, the message's text field when
    that is a non-empty string, and empty for a falsy content field; a truthy
    content or text field that is no string makes the regular-expression
    probe raise [TypeError], which escapes. *)
Theorem chat_without_content_string (client_url : str) (response : pyval) :
  has_content_string response = false ->
  let out := chat_with_ollama py_str extract_re clean_re client_url
               (Answered response) in
  match response with
  | PDict d =>
      match lookup MESSAGE d with
      | Some (PDict m) =>
          if truthy (get CONTENT m) then out = Raises "TypeError"
          else
            match get TEXT m with
            | PStr (c :: s) => out = as_text (c :: s)
            | v => if truthy v then out = Raises "TypeError"
                   else out = as_text (py_str (PDict m))
            end
      | Some msg => out = as_text (py_str msg)
      | None =>
          match lookup CONTENT d with
          | Some c => if truthy c then out = Raises "TypeError"
                      else out = Content []
          | None => out = as_text (py_str response)
          end
      end
  | _ => out = as_text (py_str response)
  end.
Proof.
  intros H out. subst out. unfold chat_with_ollama, read_response, as_text.
  destruct response as [| | | | |d|]; try reflexivity.
  cbn [has_content_string] in H. apply orb_false_iff in H as [Hc Hm].
  destruct (lookup MESSAGE d) as [msg|] eqn:Em.
  - destruct msg as [| | | | |m|]; try reflexivity.
    apply get_not_string in Hm. unfold py_or.
    destruct (truthy (get CONTENT m)) eqn:Tc.
    + now apply reply_not_string.
    + destruct (get TEXT m) as [|b|z|t|l|d'|o] eqn:Et.
      all: try (destruct t as [|c t]; reflexivity).
      all: match goal with
           | |- if truthy ?v then _ else _ =>
               destruct (truthy v) eqn:Tt;
               [now apply reply_not_string|reflexivity]
           end.
  - destruct (lookup CONTENT d) as [c|] eqn:Ec; [|reflexivity].
    destruct (truthy c) eqn:Tc.
    + now apply reply_not_string.
    + now apply reply_falsy.
Qed.

End AgentClientFacts.

Lemma chat_without_content_string_witness :
  AgentClient.has_content_string (AgentClient.PInt 7) = false
  /\ AgentClient.chat_with_ollama (fun _ => py "7") (fun s => s) (fun s => s)
       (py "http://a") (AgentClient.Answered (AgentClient.PInt 7))
     = AgentClient.Content (py "7").
Proof.
  split; [reflexivity|].
  exact (chat_without_content_string (fun _ => py "7") (fun s => s)
           (fun s => s) (py "http://a") (AgentClient.PInt 7) eq_refl).
Defined.

(** C7 as stated fails: the empty dict holds no content string, and whatever
    the text helpers do, [chat_with_ollama] returns content for it. *)
Lemma chat_without_content_string_counterexample :
  AgentClient.has_content_string (AgentClient.PDict []) = false
  /\ forall py_str extract_re clean_re,
     exists text,
       AgentClient.chat_with_ollama py_str extract_re clean_re (py "http://a")
         (AgentClient.Answered (AgentClient.PDict []))
       = AgentClient.Content text.
Proof.
  split; [reflexivity|]. intros py_str extract_re clean_re.
  unfold AgentClient.chat_with_ollama, AgentClient.read_response. simpl.
  unfold AgentClient.reply, AgentClient.extract_from_text.
  destruct (negb _); eauto.
Qed.

(** ** TopicGuard: the overlap score *)

Section TopicFacts.

Import TopicGuard.

Variable word_char : char -> bool.
Variable lower : str -> str.

Lemma in_set_In (t : str) (tset : list str) : In t tset -> in_set t tset = true.
Proof.
  intros H. unfold in_set. apply existsb_exists.
  exists t. split; [exact H|]. apply eqb_eq. reflexivity.
Qed.

Lemma filter_all {A} (f : A -> bool) (l : list A) :
  (forall x, In x l -> f x = true) -> filter f l = l.
Proof.
  induction l as [|a l IH]; intros H; simpl; [reflexivity|].
  rewrite (H a (or_introl eq_refl)). f_equal.
  apply IH. intros x Hx. apply H. now right.
Qed.

Lemma pos_of_max (n : nat) :
  Z.pos (Pos.of_nat (Nat.max 1 n)) = Z.of_nat (Nat.max 1 n).
Proof. rewrite <- positive_nat_Z, Nat2Pos.id; lia. Qed.

Lemma ratio_range (common n : nat) :
  (common <= n)%nat ->
  0 <= Z.of_nat common # Pos.of_nat (Nat.max 1 n) /\
  Z.of_nat common # Pos.of_nat (Nat.max 1 n) <= 1.
Proof.
  intros H. unfold Qle. cbn [Qnum Qden]. rewrite pos_of_max. lia.
Qed.

Lemma ratio_one (n : nat) :
  (0 < n)%nat -> Z.of_nat n # Pos.of_nat (Nat.max 1 n) == 1.
Proof.
  intros H. unfold Qeq. cbn [Qnum Qden]. rewrite pos_of_max. lia.
Qed.

(** C9, as amended. The score lies in [[0,1]]; it is 0 when the text or the
    topic is empty; and the score of a topic against itself is 1 whenever
    the topic holds at least one word, repeated or not. *)
Theorem topic_similarity_range (text topic : str) :
  (0 <= topic_similarity word_char lower text topic
   /\ topic_similarity word_char lower text topic <= 1)
  /\ topic_similarity word_char lower [] topic == 0
  /\ topic_similarity word_char lower text [] == 0
  /\ (topic <> [] -> findall_words word_char (lower topic) <> [] ->
      topic_similarity word_char lower topic topic == 1).
Proof.
  split; [|split; [|split]].
  - unfold topic_similarity.
    destruct (is_empty text || is_empty topic); [split; discriminate|].
    destruct (findall_words word_char (lower topic)) eqn:E;
      [split; discriminate|].
    apply ratio_range. apply filter_length_le.
  - reflexivity.
  - unfold topic_similarity. rewrite orb_comm. reflexivity.
  - intros Hne Hw. unfold topic_similarity.
    destruct topic as [|c topic']; [congruence|]. cbn [is_empty orb].
    set (ws := findall_words word_char (lower (c :: topic'))) in *.
    destruct ws as [|w ws'] eqn:E; [congruence|]. rewrite <- E.
    rewrite filter_all by (intros x Hx; now apply in_set_In).
    apply ratio_one. rewrite E. simpl. lia.
Qed.

End TopicFacts.

Lemma topic_similarity_range_witness :
  py "remote work" <> []
  /\ TopicGuard.findall_words TopicGuard.ascii_word_char
       (TopicGuard.ascii_lower (py "remote work")) <> []
  /\ TopicGuard.topic_similarity TopicGuard.ascii_word_char
       TopicGuard.ascii_lower (py "remote work") (py "remote work") == 1.
Proof.
  assert (H1 : py "remote work" <> []) by discriminate.
  assert (H2 : TopicGuard.findall_words TopicGuard.ascii_word_char
                 (TopicGuard.ascii_lower (py "remote work")) <> [])
    by discriminate.
  split; [exact H1|]. split; [exact H2|].
  exact (proj2 (proj2 (proj2
           (topic_similarity_range TopicGuard.ascii_word_char
              TopicGuard.ascii_lower [] (py "remote work")))) H1 H2).
Defined.

(** C9 as stated fails: a topic made of punctuation has no repeated word,
    and scores 0 against itself. *)
Lemma topic_similarity_counterexample :
  NoDup (TopicGuard.findall_words TopicGuard.ascii_word_char
           (TopicGuard.ascii_lower (py "?!")))
  /\ TopicGuard.topic_similarity TopicGuard.ascii_word_char
       TopicGuard.ascii_lower (py "?!") (py "?!") == 0
  /\ ~ TopicGuard.topic_similarity TopicGuard.ascii_word_char
         TopicGuard.ascii_lower (py "?!") (py "?!") == 1.
Proof.
  split; [constructor|]. split; [reflexivity|]. discriminate.
Qed.

(** A repeated word does not lower the score of a topic against itself. *)
Example topic_similarity_repeated_word :
  TopicGuard.topic_similarity TopicGuard.ascii_word_char TopicGuard.ascii_lower
    (py "work work") (py "work work") == 1.
Proof. reflexivity. Qed.

(** ** TurnScheduler: what a run leaves on its trace *)

Section TraceFacts.

Import Run Scheduler.
Local Open Scope run_scope.

(** An effect of the loop: no [done] event, and the log file is neither
    opened nor closed. *)
Definition quiet (e : Effect) : Prop :=
  match e with
  | EPut (KDone, _) => False
  | ELogOpen => False
  | ELogClose => False
  | _ => True
  end.

(** [c] only adds quiet effects, and leaves [log_file] as it is. *)
Definition extends {A} (c : M A) : Prop :=
  forall st, exists new,
    trace (snd (c st)) = trace st ++ new
    /\ Forall quiet new
    /\ log_file (snd (c st)) = log_file st.

Lemma extends_ret {A} (a : A) : extends (ret a).
Proof. intros st. exists []. simpl. rewrite app_nil_r. auto. Qed.

Lemma extends_raise {A} (e : Exn) : extends (@raise A e).
Proof. intros st. exists []. simpl. rewrite app_nil_r. auto. Qed.

Lemma extends_bind {A B} (c : M A) (k : A -> M B) :
  extends c -> (forall a, extends (k a)) -> extends (bind c k).
Proof.
  intros Hc Hk st. unfold bind.
  destruct (Hc st) as (n1 & T1 & Q1 & L1).
  destruct (c st) as [[a|e] st1]; simpl in *.
  - destruct (Hk a st1) as (n2 & T2 & Q2 & L2).
    exists (n1 ++ n2). rewrite T2, T1, app_assoc, L2, L1.
    split; [reflexivity|]. split; [|reflexivity].
    apply Forall_app. auto.
  - exists n1. auto.
Qed.

Lemma extends_effect (e : Effect) : quiet e -> extends (effect e).
Proof. intros H st. exists [e]. simpl. auto. Qed.

Lemma extends_silent {A} (c : M A) :
  (forall st, trace (snd (c st)) = trace st
              /\ log_file (snd (c st)) = log_file st) ->
  extends c.
Proof.
  intros H st. destruct (H st) as [T L].
  exists []. rewrite app_nil_r. auto.
Qed.

Lemma extends_advance (d : Q) : extends (advance d).
Proof. apply extends_silent. intros st. split; reflexivity. Qed.

Lemma extends_set_messages_a (l : list Message) : extends (set_messages_a l).
Proof. apply extends_silent. intros st. split; reflexivity. Qed.

Lemma extends_set_messages_b (l : list Message) : extends (set_messages_b l).
Proof. apply extends_silent. intros st. split; reflexivity. Qed.

Lemma extends_next_drain : extends next_drain.
Proof. apply extends_silent. intros st. split; reflexivity. Qed.

Lemma extends_get {A} (f : State -> A) : extends (get f).
Proof. apply extends_silent. intros st. split; reflexivity. Qed.

Lemma extends_is_set (env : Env) : extends (is_set env).
Proof. apply extends_silent. intros st. split; reflexivity. Qed.

Lemma extends_require {A} (key : string) (v : option A) :
  extends (require key v).
Proof. destruct v; [apply extends_ret|apply extends_raise]. Qed.

Lemma extends_put (k : Kind) (text : str) : k <> KDone -> extends (put k text).
Proof. intros H. apply extends_effect. destruct k; simpl; auto. Qed.

Lemma extends_if {A} (b : bool) (c1 c2 : M A) :
  extends c1 -> extends c2 -> extends (if b then c1 else c2).
Proof. now destruct b. Qed.

Create HintDb quiet_db.

#[local] Hint Resolve extends_ret extends_raise extends_advance extends_set_messages_a
  extends_set_messages_b extends_next_drain extends_get extends_is_set
  extends_require : quiet_db.

(** Decompose a computation into its steps. *)
Ltac quiet_steps :=
  repeat first
    [ solve [auto with quiet_db]
    | apply extends_put; discriminate
    | apply extends_effect; exact I
    | apply extends_if
    | apply extends_bind; [|intros ?; cbv zeta] ].

Lemma extends_append_a (m : Message) : extends (append_a m).
Proof. unfold append_a. quiet_steps. Qed.

Lemma extends_append_b (m : Message) : extends (append_b m).
Proof. unfold append_b. quiet_steps. Qed.

Lemma extends_sleep (d : Q) : extends (sleep d).
Proof. unfold sleep. quiet_steps. Qed.

#[local] Hint Resolve extends_append_a extends_append_b extends_sleep : quiet_db.

Lemma extends_call (env : Env) (who : Agent) (url : str) :
  extends (_call_ollama_with_timeout env who url).
Proof.
  unfold _call_ollama_with_timeout. quiet_steps.
  destruct (outcome _); quiet_steps.
Qed.

Lemma extends_drain_items (items : list Item) : extends (drain_items items).
Proof.
  induction items as [|[um|] rest IH]; cbn [drain_items]; quiet_steps; auto.
Qed.

Lemma extends_drain (env : Env) : extends (drain env).
Proof. unfold drain. quiet_steps. apply extends_drain_items. Qed.

Lemma extends_log_write (env : Env) (label text : str) :
  extends (log_write env label text).
Proof. unfold log_write. quiet_steps. Qed.

Lemma extends_publish (label : str) (r : Response) :
  extends (publish_endpoint label r).
Proof. unfold publish_endpoint. quiet_steps. Qed.

#[local] Hint Resolve extends_call extends_drain extends_log_write
  extends_publish : quiet_db.

Lemma extends_agent_turn (env : Env) (cfg : Config) (who : Agent) (url : str) :
  extends (agent_turn env cfg who url).
Proof. unfold agent_turn. destruct who; quiet_steps. Qed.

Lemma extends_delay (env : Env) (d : Q) : extends (inter_turn_delay env d).
Proof. unfold inter_turn_delay. quiet_steps. Qed.

#[local] Hint Resolve extends_agent_turn extends_delay : quiet_db.

Lemma extends_round (env : Env) (cfg : Config) (turns : Z) (delay : Q)
  (url_a url_b : str) (i : nat) :
  extends (round env cfg turns delay url_a url_b i).
Proof. unfold round. quiet_steps. Qed.

Lemma extends_for_range (body : nat -> M LoopCtl) (n : nat) :
  (forall i, extends (body i)) -> forall i, extends (for_range n i body).
Proof.
  intros Hb. induction n as [|n IH]; intros i; cbn [for_range].
  - apply extends_ret.
  - apply extends_bind; [apply Hb|]. intros [|]; [apply IH|apply extends_ret].
Qed.

(** [c], started with no log file open, adds no [done] and no close, and
    opens the log file at most once: exactly when it leaves [log_file] set. *)
Definition calm (e : Effect) : Prop :=
  match e with
  | EPut (KDone, _) => False
  | ELogClose => False
  | _ => True
  end.

Definition opens_once {A} (c : M A) : Prop :=
  forall st, log_file st = false -> exists new,
    trace (snd (c st)) = trace st ++ new
    /\ Forall calm new
    /\ count is_open new = (if log_file (snd (c st)) then 1 else 0)%nat.

Lemma quiet_calm (e : Effect) : quiet e -> calm e.
Proof. destruct e as [| |[[] ?]| | | |]; simpl; auto. Qed.

Lemma quiet_not_open (new : list Effect) :
  Forall quiet new -> count is_open new = 0%nat.
Proof.
  unfold count. induction 1 as [|e l He _ IH]; [reflexivity|].
  destruct e; simpl in *; try exact IH. contradiction.
Qed.

Lemma count_app (p : Effect -> bool) (l m : list Effect) :
  count p (l ++ m) = (count p l + count p m)%nat.
Proof. unfold count. now rewrite filter_app, length_app. Qed.

Lemma extends_then_opens {A B} (c : M A) (k : A -> M B) :
  extends c -> (forall a, opens_once (k a)) -> opens_once (bind c k).
Proof.
  intros Hc Hk st Hst. unfold bind.
  destruct (Hc st) as (n1 & T1 & Q1 & L1).
  destruct (c st) as [[a|e] st1]; simpl in *.
  - rewrite <- L1 in Hst. destruct (Hk a st1 Hst) as (n2 & T2 & Q2 & C2).
    exists (n1 ++ n2). rewrite T2, T1, app_assoc.
    split; [reflexivity|]. split.
    + apply Forall_app. split; [|exact Q2].
      eapply Forall_impl; [apply quiet_calm|exact Q1].
    + rewrite count_app, (quiet_not_open n1 Q1). exact C2.
  - exists n1. split; [exact T1|]. split.
    + eapply Forall_impl; [apply quiet_calm|exact Q1].
    + rewrite L1, Hst. now apply quiet_not_open.
Qed.

Lemma opens_then_extends {A B} (c : M A) (k : A -> M B) :
  opens_once c -> (forall a, extends (k a)) -> opens_once (bind c k).
Proof.
  intros Hc Hk st Hst. unfold bind.
  destruct (Hc st Hst) as (n1 & T1 & Q1 & C1).
  destruct (c st) as [[a|e] st1]; simpl in *.
  - destruct (Hk a st1) as (n2 & T2 & Q2 & L2).
    exists (n1 ++ n2). rewrite T2, T1, app_assoc.
    split; [reflexivity|]. split.
    + apply Forall_app. split; [exact Q1|].
      eapply Forall_impl; [apply quiet_calm|exact Q2].
    + rewrite count_app, (quiet_not_open n2 Q2), L2, C1. lia.
  - exists n1. auto.
Qed.

Lemma opens_open_log (env : Env) (cfg : Config) : opens_once (open_log env cfg).
Proof.
  intros st Hst. unfold open_log.
  destruct (log cfg && truthy (log_path cfg)), (log_open_ok env); simpl.
  - exists [ELogOpen]. repeat split. constructor; [exact I|constructor].
  - exists []. rewrite app_nil_r, Hst. auto.
  - exists []. rewrite app_nil_r, Hst. auto.
  - exists []. rewrite app_nil_r, Hst. auto.
Qed.

Lemma opens_prologue (env : Env) (cfg : Config) : opens_once (prologue env cfg).
Proof.
  unfold prologue.
  repeat (apply extends_then_opens;
          [solve [quiet_steps]|intros ?; cbv zeta]).
  apply opens_then_extends; [apply opens_open_log|].
  intros _. apply extends_ret.
Qed.

Lemma opens_body (env : Env) (cfg : Config) : opens_once (body env cfg).
Proof.
  unfold body. apply opens_then_extends; [apply opens_prologue|].
  intros s. apply extends_for_range. intros i. apply extends_round.
Qed.

Lemma events_app (l m : list Effect) : events (l ++ m) = events l ++ events m.
Proof.
  induction l as [|e l IH]; [reflexivity|].
  destruct e; simpl; rewrite IH; reflexivity.
Qed.

Lemma calm_events (tr : list Effect) :
  Forall calm tr -> ~ In KDone (map fst (events tr)).
Proof.
  induction 1 as [|e l He _ IH]; simpl; [tauto|].
  destruct e as [| |[k t]| | | |]; simpl; try exact IH.
  intros [H|H]; [|now apply IH]. simpl in H. subst k. exact He.
Qed.

Lemma calm_not_close (tr : list Effect) :
  Forall calm tr -> count is_close tr = 0%nat.
Proof.
  unfold count. induction 1 as [|e l He _ IH]; [reflexivity|].
  destruct e; simpl in *; try exact IH. contradiction.
Qed.

(** C4. Whatever the configuration and the environment do, a run of
    [_run_conversation] puts exactly one [done] event on the queue, as the
    last thing it does, and closes the log file exactly as often as it
    opened it, which is at most once. *)
Theorem run_ends_with_one_done (env : Env) (cfg : Config) :
  let st := _run_conversation env cfg in
  (exists evs, events (trace st) = evs ++ [(KDone, [])]
               /\ ~ In KDone (map fst evs))
  /\ (exists before, trace st = before ++ [EPut (KDone, [])])
  /\ count is_close (trace st) = count is_open (trace st)
  /\ (count is_open (trace st) <= 1)%nat.
Proof.
  intros st. subst st. unfold _run_conversation.
  destruct (opens_body env cfg initial eq_refl) as (n1 & T1 & Q1 & C1).
  destruct (body env cfg initial) as [r st1]. simpl in T1, C1.
  set (st2 := match r with
              | Val _ => st1
              | Exc e => snd (handler env e st1)
              end).
  assert (H2 : exists n2, trace st2 = n1 ++ n2 /\ Forall quiet n2
                          /\ log_file st2 = log_file st1).
  { subst st2. destruct r as [u|e].
    - exists []. rewrite app_nil_r. auto.
    - unfold handler. destruct (errlog_ok env); simpl;
        rewrite T1; eexists; repeat split; repeat constructor. }
  destruct H2 as (n2 & T2 & Q2 & L2).
  assert (Qall : Forall calm (n1 ++ n2)).
  { apply Forall_app. split; [exact Q1|].
    eapply Forall_impl; [apply quiet_calm|exact Q2]. }
  assert (Call : count is_open (n1 ++ n2)
                 = (if log_file st2 then 1 else 0)%nat).
  { rewrite count_app, (quiet_not_open n2 Q2), L2, C1. lia. }
  remember (n1 ++ n2) as tr eqn:Etr. clear Etr.
  unfold finally, bind, get, put, effect, ret. simpl.
  destruct (log_file st2); simpl; rewrite T2.
  - repeat split.
    + exists (events tr). rewrite !events_app. simpl.
      rewrite app_nil_r. split; [reflexivity|now apply calm_events].
    + exists (tr ++ [ELogClose]). reflexivity.
    + rewrite !count_app, Call, (calm_not_close _ Qall). reflexivity.
    + rewrite !count_app, Call. unfold count. simpl. lia.
  - repeat split.
    + exists (events tr). rewrite events_app. simpl.
      split; [reflexivity|now apply calm_events].
    + exists tr. reflexivity.
    + rewrite !count_app, Call, (calm_not_close _ Qall). reflexivity.
    + rewrite count_app, Call. unfold count. simpl. lia.
Qed.

End TraceFacts.

(** ** TurnScheduler: the two histories *)

Section HistoryFacts.

Import Run Scheduler.
Local Open Scope run_scope.

Variable env : Env.
Hypothesis no_stop : stop_at env = None.
Hypothesis no_injection : has_in_queue env = false \/ forall k, inbox env k = [].

(** When [c] returns, its value satisfies [post] and the two histories have
    grown by messages of roles [ra] and [rb]. *)
Definition grows {A} (ra rb : list Role) (post : A -> Prop) (c : M A) : Prop :=
  forall st,
    match c st with
    | (Val a, st') =>
        post a /\
        exists xa xb,
          messages_a st' = messages_a st ++ xa /\ map role xa = ra /\
          messages_b st' = messages_b st ++ xb /\ map role xb = rb
    | (Exc _, _) => True
    end.

Definition any {A} (a : A) : Prop := True.

Lemma grows_bind {A B} ra rb ra' rb' (P : A -> Prop) (Q : B -> Prop)
  (c : M A) (k : A -> M B) :
  grows ra rb P c -> (forall a, P a -> grows ra' rb' Q (k a)) ->
  grows (ra ++ ra') (rb ++ rb') Q (bind c k).
Proof.
  intros Hc Hk st. unfold bind. specialize (Hc st).
  destruct (c st) as [[a|e] st1]; [|exact I].
  destruct Hc as (Pa & xa & xb & Ea & Ra & Eb & Rb).
  specialize (Hk a Pa st1).
  destruct (k a st1) as [[b|e] st2]; [|exact I].
  destruct Hk as (Qb & ya & yb & Ea' & Ra' & Eb' & Rb').
  split; [exact Qb|]. exists (xa ++ ya), (xb ++ yb).
  rewrite Ea', Ea, Eb', Eb, <- !app_assoc, !map_app, Ra, Ra', Rb, Rb'. auto.
Qed.

Lemma grows_weaken {A} ra rb (P Q : A -> Prop) (c : M A) :
  (forall a, P a -> Q a) -> grows ra rb P c -> grows ra rb Q c.
Proof.
  intros H Hc st. specialize (Hc st).
  destruct (c st) as [[a|e] st1]; [|exact I].
  destruct Hc as [Pa R]. auto.
Qed.

(** A step that leaves both histories alone. *)
Lemma grows_still {A} (P : A -> Prop) (c : M A) :
  (forall st, messages_a (snd (c st)) = messages_a st
              /\ messages_b (snd (c st)) = messages_b st
              /\ match fst (c st) with Val a => P a | Exc _ => True end) ->
  grows [] [] P c.
Proof.
  intros H st. specialize (H st).
  destruct (c st) as [[a|e] st1]; [|exact I]. simpl in H.
  destruct H as (Ea & Eb & Pa). split; [exact Pa|].
  exists [], []. rewrite !app_nil_r. auto.
Qed.

Lemma grows_ret {A} (a : A) : grows [] [] (eq a) (ret a).
Proof. apply grows_still. intros st. simpl. auto. Qed.

Lemma grows_raise {A} (P : A -> Prop) (e : Exn) : grows [] [] P (raise e).
Proof. intros st. exact I. Qed.

Lemma grows_effect (e : Effect) : grows [] [] any (effect e).
Proof. apply grows_still. intros st. simpl. unfold any. auto. Qed.

Lemma grows_put (k : Kind) (text : str) : grows [] [] any (put k text).
Proof. apply grows_effect. Qed.

Lemma grows_advance (d : Q) : grows [] [] any (advance d).
Proof. apply grows_still. intros st. simpl. unfold any. auto. Qed.

Lemma grows_get {A} (f : State -> A) : grows [] [] any (get f).
Proof. apply grows_still. intros st. simpl. unfold any. auto. Qed.

Lemma grows_is_set : grows [] [] (eq false) (is_set env).
Proof.
  apply grows_still. intros st. unfold is_set. rewrite no_stop. simpl. auto.
Qed.

Lemma grows_append_a (m : Message) : grows [role m] [] any (append_a m).
Proof.
  intros st. simpl. split; [exact I|].
  exists [m], []. rewrite app_nil_r. auto.
Qed.

Lemma grows_append_b (m : Message) : grows [] [role m] any (append_b m).
Proof.
  intros st. simpl. split; [exact I|].
  exists [], [m]. rewrite app_nil_r. auto.
Qed.

Lemma grows_if {A} ra rb (P : A -> Prop) (b : bool) (c1 c2 : M A) :
  grows ra rb P c1 -> grows ra rb P c2 -> grows ra rb P (if b then c1 else c2).
Proof. now destruct b. Qed.

(** Sequencing a step that leaves the histories alone. *)
Lemma grows_after {A B} ra rb (P : A -> Prop) (Q : B -> Prop)
  (c : M A) (k : A -> M B) :
  grows [] [] P c -> (forall a, P a -> grows ra rb Q (k a)) ->
  grows ra rb Q (bind c k).
Proof. intros Hc Hk. apply (grows_bind [] [] ra rb P Q c k Hc Hk). Qed.

Lemma grows_sleep (d : Q) : grows [] [] any (sleep d).
Proof.
  unfold sleep. destruct (Qle_bool 0 d); [|apply grows_raise].
  eapply grows_after; [apply grows_effect|]. intros _ _. apply grows_advance.
Qed.

Lemma grows_call (who : Agent) (url : str) :
  grows [] [] any (_call_ollama_with_timeout env who url).
Proof.
  unfold _call_ollama_with_timeout.
  eapply grows_after; [apply grows_get|]. intros msgs _.
  eapply grows_after; [apply grows_get|]. intros k _.
  eapply grows_after; [apply grows_effect|]. intros _ _.
  destruct (outcome (script env k)); [| |apply grows_raise];
    (apply grows_if;
     (eapply grows_after; [apply grows_advance|]; intros _ _;
      eapply grows_weaken; [|apply grows_ret]; intros; exact I)).
Qed.

Lemma grows_drain : grows [] [] any (drain env).
Proof.
  unfold drain. destruct no_injection as [H|H].
  - rewrite H. eapply grows_weaken; [|apply grows_ret]. intros; exact I.
  - destruct (has_in_queue env).
    + apply grows_still. intros st. unfold bind, next_drain. simpl.
      rewrite H. simpl. unfold any. auto.
    + eapply grows_weaken; [|apply grows_ret]. intros; exact I.
Qed.

Lemma grows_log_write (label text : str) :
  grows [] [] any (log_write env label text).
Proof.
  unfold log_write. eapply grows_after; [apply grows_get|]. intros opened _.
  destruct opened.
  - eapply grows_after; [apply grows_get|]. intros t _. apply grows_effect.
  - eapply grows_weaken; [|apply grows_ret]. intros; exact I.
Qed.

Lemma grows_publish (label : str) (r : Response) :
  grows [] [] any (publish_endpoint label r).
Proof.
  unfold publish_endpoint. apply grows_if; [apply grows_put|].
  eapply grows_weaken; [|apply grows_ret]. intros; exact I.
Qed.

(** Agent B's reply is an assistant turn of B's history and a user turn of
    A's; agent A's reply is the converse. *)
Lemma grows_agent_turn_b (cfg : Config) (url : str) :
  grows [User] [Assistant] any (agent_turn env cfg AgentB url).
Proof.
  unfold agent_turn.
  eapply grows_after; [apply grows_call|]. intros resp _. cbv zeta.
  eapply grows_after; [apply grows_put|]. intros _ _.
  eapply grows_after; [apply grows_log_write|]. intros _ _.
  eapply (grows_bind [] [Assistant] [User] []);
    [apply (grows_append_b {| role := Assistant; content := _ |})|].
  intros _ _.
  eapply (grows_bind [User] [] [] []);
    [apply (grows_append_a {| role := User; content := _ |})|].
  intros _ _. apply grows_publish.
Qed.

Lemma grows_agent_turn_a (cfg : Config) (url : str) :
  grows [Assistant] [User] any (agent_turn env cfg AgentA url).
Proof.
  unfold agent_turn.
  eapply grows_after; [apply grows_call|]. intros resp _. cbv zeta.
  eapply grows_after; [apply grows_put|]. intros _ _.
  eapply grows_after; [apply grows_log_write|]. intros _ _.
  eapply (grows_bind [Assistant] [] [] [User]);
    [apply (grows_append_a {| role := Assistant; content := _ |})|].
  intros _ _.
  eapply (grows_bind [] [User] [] []);
    [apply (grows_append_b {| role := User; content := _ |})|].
  intros _ _. apply grows_publish.
Qed.

Lemma grows_delay (d : Q) : grows [] [] (eq Next) (inter_turn_delay env d).
Proof.
  unfold inter_turn_delay.
  eapply grows_after; [apply grows_is_set|]. intros b <-.
  eapply grows_after; [apply grows_sleep|]. intros _ _. apply grows_ret.
Qed.

(** With the flag never set, a round that returns has run to its end. *)
Lemma grows_round (cfg : Config) (turns : Z) (delay : Q) (url_a url_b : str)
  (i : nat) :
  grows [User; Assistant] [Assistant; User] (eq Next)
    (round env cfg turns delay url_a url_b i).
Proof.
  unfold round.
  eapply grows_after; [apply grows_is_set|]. intros b <-.
  eapply grows_after; [apply grows_put|]. intros _ _.
  eapply grows_after; [apply grows_drain|]. intros _ _.
  eapply (grows_bind [User] [Assistant] [Assistant] [User]);
    [apply grows_agent_turn_b|]. intros _ _.
  eapply grows_after; [apply grows_is_set|]. intros b <-.
  eapply (grows_bind [Assistant] [User] [] []);
    [apply grows_agent_turn_a|]. intros _ _.
  apply grows_delay.
Qed.

Lemma grows_for_range (body : nat -> M LoopCtl) (ra rb : list Role) (n : nat) :
  (forall i, grows ra rb (eq Next) (body i)) ->
  forall i, grows (concat (repeat ra n)) (concat (repeat rb n)) any
              (for_range n i body).
Proof.
  intros Hb. induction n as [|n IH]; intros i; cbn [for_range repeat concat].
  - eapply grows_weaken; [|apply grows_ret]. intros; exact I.
  - eapply grows_bind; [apply Hb|]. intros c <-. apply IH.
Qed.

End HistoryFacts.

Section RoundsFacts.

Import Run Scheduler.
Local Open Scope run_scope.

Lemma prologue_histories (env : Env) (cfg : Config) (t : str) (s : Settings)
  (st1 : State) :
  topic cfg = Some t ->
  prologue env cfg initial = (Val s, st1) ->
  turns cfg = Some (s_turns s)
  /\ exists sys_a sys_b,
       messages_a st1 = [ {| role := System; content := sys_a |};
                          {| role := User; content := initial_prompt cfg t |} ]
       /\ messages_b st1 = [ {| role := System; content := sys_b |};
                             {| role := User; content := initial_prompt cfg t |} ].
Proof.
  intros Ht H. unfold prologue in H. rewrite Ht in H.
  destruct (turns cfg) as [n|], (delay cfg) as [d|], (a_url cfg) as [ua|],
    (b_url cfg) as [ub|], (a_model cfg) as [ma|], (b_model cfg) as [mb|];
    try discriminate H.
  unfold open_log in H.
  destruct (log cfg && truthy (log_path cfg)), (log_open_ok env);
    injection H as <- <-; (split; [reflexivity|]);
    eexists; eexists; split; reflexivity.
Qed.

Lemma concat_repeat_length {A} (l : list A) (n : nat) :
  List.length (concat (repeat l n)) = (n * List.length l)%nat.
Proof.
  induction n as [|n IH]; simpl; [reflexivity|].
  rewrite length_app, IH. reflexivity.
Qed.

(** C3. A run with no cancellation and no injected message that completes
    its [N] rounds leaves in each history the system prompt, then the seed
    prompt as a user turn, then [2N] alternating turns: [1 + 1 + 2N]
    entries. *)
Theorem histories_after_rounds
  (env : Env) (cfg : Config) (t : str) (N : Z) (st' : State) :
  stop_at env = None ->
  (has_in_queue env = false \/ forall k, inbox env k = []) ->
  topic cfg = Some t ->
  turns cfg = Some N ->
  body env cfg initial = (Val tt, st') ->
  (exists sys_a sys_b turns_a turns_b,
     messages_a st' = {| role := System; content := sys_a |}
                      :: {| role := User; content := initial_prompt cfg t |}
                      :: turns_a
     /\ messages_b st' = {| role := System; content := sys_b |}
                         :: {| role := User; content := initial_prompt cfg t |}
                         :: turns_b
     /\ map role turns_a = concat (repeat [User; Assistant] (Z.to_nat N))
     /\ map role turns_b = concat (repeat [Assistant; User] (Z.to_nat N)))
  /\ List.length (messages_a st') = (1 + 1 + 2 * Z.to_nat N)%nat
  /\ List.length (messages_b st') = (1 + 1 + 2 * Z.to_nat N)%nat
  /\ messages_a (_run_conversation env cfg) = messages_a st'
  /\ messages_b (_run_conversation env cfg) = messages_b st'.
Proof.
  intros Hstop Hinj Ht HN Hbody.
  assert (Hfinal : messages_a (_run_conversation env cfg) = messages_a st'
                   /\ messages_b (_run_conversation env cfg) = messages_b st').
  { unfold _run_conversation. rewrite Hbody.
    unfold finally, bind, get. simpl. destruct (log_file st'); auto. }
  unfold body, bind in Hbody.
  destruct (prologue env cfg initial) as [[s|e] st1] eqn:Hpro;
    [|discriminate Hbody].
  destruct (prologue_histories env cfg t s st1 Ht Hpro)
    as (Hturns & sys_a & sys_b & Ea & Eb).
  rewrite HN in Hturns. injection Hturns as HNs.
  pose proof (grows_for_range
                (round env cfg (s_turns s) (s_delay s) (s_url_a s) (s_url_b s))
                [User; Assistant] [Assistant; User] (Z.to_nat (s_turns s))
                (fun i => grows_round env Hstop Hinj cfg _ _ _ _ i) 0%nat st1)
    as Hloop.
  rewrite Hbody in Hloop.
  destruct Hloop as (_ & xa & xb & Ea' & Ra & Eb' & Rb).
  rewrite Ea in Ea'. rewrite Eb in Eb'. rewrite <- HNs in Ra, Rb.
  assert (La : List.length xa = (2 * Z.to_nat N)%nat).
  { rewrite <- (length_map role), Ra, concat_repeat_length. simpl. lia. }
  assert (Lb : List.length xb = (2 * Z.to_nat N)%nat).
  { rewrite <- (length_map role), Rb, concat_repeat_length. simpl. lia. }
  split; [|split; [|split]].
  - exists sys_a, sys_b, xa, xb. auto.
  - rewrite Ea', length_app, La. simpl. lia.
  - rewrite Eb', length_app, Lb. simpl. lia.
  - exact Hfinal.
Qed.

End RoundsFacts.

(** ** TopicGuard: the corrective retries *)

Section EnforceFacts.

Import Run TopicGuard.
Local Open Scope run_scope.

Variable word_char : char -> bool.
Variable lower : str -> str.
Variable env : Env.
Variable cfg : CliConfig.

(** The state after [messages.append] / [messages.pop]. *)
Definition with_messages (who : Agent) (l : list Message) (st : State) : State :=
  snd (set_messages who l st).

Lemma with_messages_same (who : Agent) (l : list Message) (st : State) :
  messages_of who (with_messages who l st) = l.
Proof. destruct who; reflexivity. Qed.

Lemma with_messages_other (who : Agent) (l : list Message) (st : State) :
  messages_of (other who) (with_messages who l st) = messages_of (other who) st.
Proof. destruct who; reflexivity. Qed.

Lemma with_messages_trace (who : Agent) (l : list Message) (st : State) :
  trace (with_messages who l st) = trace st.
Proof. destruct who; reflexivity. Qed.

Lemma append_run (who : Agent) (m : Message) (st : State) :
  append who m st
  = (Val tt, with_messages who (messages_of who st ++ [m]) st).
Proof. destruct who; reflexivity. Qed.

(** The corrective message is recognised by the test that guards the pop. *)
Lemma corrective_recognised (topic : str) :
  is_user (corrective topic) && contains NEEDLE (content (corrective topic))
  = true.
Proof. reflexivity. Qed.

Lemma pop_run (who : Agent) (m : list Message) (st : State) :
  messages_of who st = m ++ [corrective (topic cfg)] ->
  pop_corrective who st = (Val tt, with_messages who m st).
Proof.
  intros H. unfold pop_corrective, bind, get. rewrite H, rev_app_distr.
  cbn [rev app]. rewrite corrective_recognised, rev_involutive.
  destruct who; reflexivity.
Qed.

(** A call adds itself to the trace and leaves the histories alone. *)
Lemma chat_run (who : Agent) (st : State) :
  trace (snd (chat env cfg who st))
  = trace st ++ [ECall who (url_of cfg who) (messages_of who st)]
  /\ messages_a (snd (chat env cfg who st)) = messages_a st
  /\ messages_b (snd (chat env cfg who st)) = messages_b st.
Proof.
  unfold chat, bind, get, effect, advance. simpl.
  destruct (outcome _); simpl; auto.
Qed.

Lemma messages_of_eq (who : Agent) (st st' : State) :
  messages_a st' = messages_a st -> messages_b st' = messages_b st ->
  messages_of who st' = messages_of who st.
Proof. destruct who; simpl; auto. Qed.

Definition stopped (st : State) : bool :=
  match stop_at env with
  | Some t => Qle_bool t (now st)
  | None => false
  end.

(** One iteration of the loop, step by step. *)
Lemma enforce_step (who : Agent) (n : nat) (text : str) (st : State) :
  enforce word_char lower env cfg who (S n) text st =
  if stopped st then (Val text, st)
  else
    let sim := topic_similarity word_char lower text (topic cfg) in
    if Qlt_bool sim (1 # 2) then
      let st1 := with_messages who
                   (messages_of who st ++ [corrective (topic cfg)]) st in
      match chat env cfg who st1 with
      | (Val r2, st2) =>
          let text2 := truncate_text cfg r2 in
          let text' :=
            if Qlt_bool sim (topic_similarity word_char lower text2 (topic cfg))
            then text2 else text in
          match pop_corrective who st2 with
          | (Val _, st3) => enforce word_char lower env cfg who n text' st3
          | (Exc e, st3) => (Exc e, st3)
          end
      | (Exc e, st2) => (Exc e, st2)
      end
    else (Val text, st).
Proof.
  cbn [enforce]. unfold bind at 1. unfold is_set, stopped.
  destruct (match stop_at env with Some _ => _ | None => _ end);
    [reflexivity|].
  cbv zeta. destruct (Qlt_bool _ (1 # 2)); [|reflexivity].
  unfold bind at 1. rewrite append_run. unfold bind at 1.
  destruct (chat env cfg who _) as [[r2|e] st2]; [|reflexivity].
  unfold bind at 1. reflexivity.
Qed.

(** The enforcement loop of [n] iterations issues at most [n] calls, each a
    retry on the agent's history extended by the corrective message, and
    hands both histories back as it found them. *)
Lemma enforce_calls (who : Agent) (n : nat) :
  forall (text : str) (st : State),
  exists calls,
    trace (snd (enforce word_char lower env cfg who n text st))
    = trace st ++ calls
    /\ (List.length calls <= n)%nat
    /\ Forall (eq (ECall who (url_of cfg who)
                     (messages_of who st ++ [corrective (topic cfg)]))) calls
    /\ (forall v, fst (enforce word_char lower env cfg who n text st) = Val v ->
        forall x, messages_of x (snd (enforce word_char lower env cfg who n text st))
                  = messages_of x st).
Proof.
  induction n as [|n IH]; intros text st.
  - exists []. rewrite app_nil_r. split; [reflexivity|].
    split; [simpl; lia|]. split; [constructor|]. intros; reflexivity.
  - rewrite enforce_step.
    destruct (stopped st).
    { exists []. rewrite app_nil_r. split; [reflexivity|].
      split; [simpl; lia|]. split; [constructor|]. intros; reflexivity. }
    cbv zeta. destruct (Qlt_bool _ (1 # 2)).
    2:{ exists []. rewrite app_nil_r. split; [reflexivity|].
        split; [simpl; lia|]. split; [constructor|]. intros; reflexivity. }
    set (st1 := with_messages who _ st).
    assert (M1 : messages_of who st1
                 = messages_of who st ++ [corrective (topic cfg)])
      by apply with_messages_same.
    destruct (chat_run who st1) as (T2 & A2 & B2).
    destruct (chat env cfg who st1) as [[r2|e] st2]; cbn [snd] in *.
    2:{ exists [ECall who (url_of cfg who) (messages_of who st1)].
        cbn [fst snd]. rewrite T2. unfold st1 at 1.
        rewrite with_messages_trace, M1.
        split; [reflexivity|]. split; [simpl; lia|].
        split; [repeat constructor|]. discriminate. }
    rewrite (pop_run who (messages_of who st) st2)
      by (rewrite (messages_of_eq who st1 st2 A2 B2); exact M1).
    set (st3 := with_messages who (messages_of who st) st2).
    assert (M3 : forall x, messages_of x st3 = messages_of x st).
    { intros x. unfold st3.
      destruct who, x; cbn; rewrite ?A2, ?B2; reflexivity. }
    match goal with
    | |- context [enforce _ _ _ _ _ n ?t st3] =>
        destruct (IH t st3) as (calls & T & L & F & R)
    end.
    exists (ECall who (url_of cfg who) (messages_of who st1) :: calls).
    rewrite T. unfold st3 at 1. rewrite with_messages_trace, T2.
    unfold st1 at 1. rewrite with_messages_trace, <- app_assoc.
    split; [reflexivity|]. split; [simpl; lia|]. split.
    + constructor; [now rewrite M1|]. now rewrite <- (M3 who).
    + intros v Hv x. rewrite (R v Hv x). apply M3.
Qed.

(** C2, as amended. Within one turn the enforcement of one agent issues at
    most two corrective retry calls, never a third: each retry follows the
    one synthetic corrective user message appended to that agent's history,
    and when the loop returns both histories are as it found them. A text
    that scores 0.5 or more is kept without any retry. *)
Theorem enforce_at_most_two_retries (who : Agent) (text : str) (st : State) :
  (exists retries,
     trace (snd (enforce word_char lower env cfg who 2 text st))
     = trace st ++ retries
     /\ (List.length retries <= 2)%nat
     /\ Forall (eq (ECall who (url_of cfg who)
                      (messages_of who st ++ [corrective (topic cfg)]))) retries
     /\ (forall v, fst (enforce word_char lower env cfg who 2 text st) = Val v ->
         messages_a (snd (enforce word_char lower env cfg who 2 text st))
         = messages_a st
         /\ messages_b (snd (enforce word_char lower env cfg who 2 text st))
            = messages_b st))
  /\ (Qlt_bool (topic_similarity word_char lower text (topic cfg)) (1 # 2)
      = false ->
      enforce word_char lower env cfg who 2 text st = (Val text, st)).
Proof.
  split.
  - destruct (enforce_calls who 2 text st) as (calls & T & L & F & R).
    exists calls. split; [exact T|]. split; [exact L|]. split; [exact F|].
    intros v H. split; [apply (R v H AgentA)|apply (R v H AgentB)].
  - intros H. rewrite enforce_step. cbv zeta. rewrite H.
    now destruct (stopped st).
Qed.

Lemma count_is_call_calls (who : Agent) (url : str) (h : list Message)
  (calls : list Effect) :
  Forall (eq (ECall who url h)) calls ->
  count is_call calls = List.length calls.
Proof.
  unfold count. induction 1 as [|e l <- _ IH]; [reflexivity|].
  simpl. now rewrite IH.
Qed.

(** So one agent's reply in a turn takes at most three calls: the answer and
    two retries. *)
Lemma agent_reply_calls (who : Agent) (st : State) :
  exists new,
    trace (snd (agent_reply word_char lower env cfg who st)) = trace st ++ new
    /\ (count is_call new <= 3)%nat.
Proof.
  unfold agent_reply. unfold bind at 1.
  destruct (chat_run who st) as (T1 & _ & _).
  destruct (chat env cfg who st) as [[r|e] st1]; cbn [snd] in *.
  2:{ eexists. split; [exact T1|]. unfold count. simpl. lia. }
  unfold bind at 1.
  destruct (enforce_calls who 2 (truncate_text cfg r) st1)
    as (calls & T2 & L & F & _).
  pose proof (count_is_call_calls _ _ _ _ F) as C.
  destruct (enforce word_char lower env cfg who 2 (truncate_text cfg r) st1)
    as [[text|e] st2]; cbn [snd] in *.
  2:{ exists (ECall who (url_of cfg who) (messages_of who st) :: calls).
      rewrite T2, T1, <- app_assoc. split; [reflexivity|].
      change (count is_call (ECall who (url_of cfg who) (messages_of who st) :: calls))
        with (S (count is_call calls)). lia. }
  exists (ECall who (url_of cfg who) (messages_of who st) :: calls
          ++ [EPrint (py "[" ++ clock_text env (now st2) ++ py "] "
                      ++ name_of cfg who ++ py ": " ++ text)]).
  split.
  - unfold log, get, effect. unfold bind. cbn [fst snd].
    rewrite append_run. cbn [fst snd]. rewrite append_run. cbn [snd].
    rewrite !with_messages_trace.
    cbn [trace]. rewrite T2, T1, <- !app_assoc. reflexivity.
  - change (count is_call (?e :: ?l)) with (S (count is_call l)).
    rewrite count_app, C. unfold count. simpl. lia.
Qed.

End EnforceFacts.

(** ** Concrete runs *)

Definition reply_with (text : str) (seconds : Q) : Run.Call :=
  {| Run.outcome := Run.Returned {| Run.resp_content := text;
                                    Run.resp_endpoint := None |};
     Run.took := seconds |}.

(** Agent B always answers "ok.", agent A always "sure." (B is called first
    in every round); every call takes half a second. *)
Definition ok_sure (k : nat) : Run.Call :=
  reply_with (if Nat.even k then py "ok." else py "sure.") (1 # 2).

Definition quiet_env (stop : option Q) (calls : nat -> Run.Call) : Run.Env :=
  {| Run.stop_at := stop;
     Run.script := calls;
     Run.has_in_queue := true;
     Run.inbox := fun _ => [];
     Run.log_open_ok := true;
     Run.errlog_ok := true;
     Run.clock_text := fun _ => py "now" |}.

Definition tea_cfg (turns : option Z) (delay : Q) : Scheduler.Config :=
  {| Scheduler.topic := Some (py "tea");
     Scheduler.a_persona := None; Scheduler.a_age := None;
     Scheduler.a_quirk := None;
     Scheduler.b_persona := None; Scheduler.b_age := None;
     Scheduler.b_quirk := None;
     Scheduler.a_name := None; Scheduler.b_name := None;
     Scheduler.greeting := None;
     Scheduler.humanize := false;
     Scheduler.turns := turns;
     Scheduler.delay := Some delay;
     Scheduler.a_url := Some (py "http://a");
     Scheduler.b_url := Some (py "http://b");
     Scheduler.a_api_path := None; Scheduler.b_api_path := None;
     Scheduler.a_model := Some (py "llama2");
     Scheduler.b_model := Some (py "llama2");
     Scheduler.log := true;
     Scheduler.log_path := Some (py "chat.log");
     Scheduler.policy := short_policy None |}.

Lemma histories_after_rounds_witness :
  List.length (Run.messages_a
                 (Scheduler._run_conversation (quiet_env None ok_sure)
                    (tea_cfg (Some 2%Z) 1)))
  = 6%nat
  /\ List.length (Run.messages_b
                    (Scheduler._run_conversation (quiet_env None ok_sure)
                       (tea_cfg (Some 2%Z) 1)))
     = 6%nat.
Proof.
  assert (Hbody : Scheduler.body (quiet_env None ok_sure) (tea_cfg (Some 2%Z) 1)
                    Run.initial
                  = (Run.Val tt,
                     snd (Scheduler.body (quiet_env None ok_sure)
                            (tea_cfg (Some 2%Z) 1) Run.initial)))
    by (vm_compute; reflexivity).
  destruct (histories_after_rounds (quiet_env None ok_sure)
              (tea_cfg (Some 2%Z) 1) (py "tea") 2 _
              eq_refl (or_intror (fun _ => eq_refl)) eq_refl eq_refl Hbody)
    as (_ & La & Lb & Fa & Fb).
  rewrite Fa, Fb, La, Lb. split; reflexivity.
Defined.

(** Scenario 3 of the specification, after the two opening events. *)
Example scheduler_scenario_3 :
  Run.events (Run.trace (Scheduler._run_conversation (quiet_env None ok_sure)
                           (tea_cfg (Some 2%Z) 1)))
  = [ (Run.KStatus, py "Using topic: tea");
      (Run.KB, py "(initial) Let's discuss tea. I think...");
      (Run.KStatus, py "Turn 1/2");
      (Run.KB, py "ok."); (Run.KA, py "sure.");
      (Run.KStatus, py "Turn 2/2");
      (Run.KB, py "ok."); (Run.KA, py "sure.");
      (Run.KDone, []) ].
Proof. vm_compute. reflexivity. Qed.

(** The three ways a run ends: after its rounds (above), by cancellation,
    and by an internal error. *)
Example scheduler_cancelled :
  Run.events (Run.trace (Scheduler._run_conversation
                           (quiet_env (Some (1 # 4)) ok_sure)
                           (tea_cfg (Some 2%Z) 1)))
  = [ (Run.KStatus, py "Using topic: tea");
      (Run.KB, py "(initial) Let's discuss tea. I think...");
      (Run.KStatus, py "Turn 1/2");
      (Run.KB, py "ok.");
      (Run.KDone, []) ]
  /\ Run.count Run.is_close
       (Run.trace (Scheduler._run_conversation
                     (quiet_env (Some (1 # 4)) ok_sure)
                     (tea_cfg (Some 2%Z) 1)))
     = 1%nat.
Proof. vm_compute. split; reflexivity. Qed.

Example scheduler_internal_error :
  Run.events (Run.trace (Scheduler._run_conversation (quiet_env None ok_sure)
                           (tea_cfg None 1)))
  = [ (Run.KStatus, py "Using topic: tea");
      (Run.KB, py "(initial) Let's discuss tea. I think...");
      (Run.KStatus, py "Error: 'turns' (see thread_error.log)");
      (Run.KDone, []) ].
Proof. vm_compute. reflexivity. Qed.

(** C6 at a failing input: two rounds, a delay of 5 seconds, calls of half a
    second, and the stop flag set 1.5 seconds into the run, that is half a
    second into the first delay. [_run_conversation] performs one sleep of
    the whole 5 seconds and ends at 6 seconds, 4.5 seconds after the flag
    was set. *)
Lemma gui_delay_is_one_blocking_sleep :
  Run.slept (Run.trace (Scheduler._run_conversation
                          (quiet_env (Some (3 # 2)) ok_sure)
                          (tea_cfg (Some 2%Z) 5)))
  = [5]
  /\ Run.now (Scheduler._run_conversation (quiet_env (Some (3 # 2)) ok_sure)
                (tea_cfg (Some 2%Z) 5))
     == 6.
Proof. vm_compute. split; reflexivity. Qed.

(** The delay step in general: whenever the flag is not yet set when the
    step starts, it sleeps once, for the whole delay, whatever [stop_at]. *)
Lemma inter_turn_delay_blocks (env : Run.Env) (delay : Q) (st : Run.State) :
  fst (Run.is_set env st) = Run.Val false ->
  Qle_bool 0 delay = true ->
  Scheduler.inter_turn_delay env delay st
  = (Run.Val Scheduler.Next,
     snd (Run.advance delay (snd (Run.effect (Run.ESleep delay) st)))).
Proof.
  intros Hset Hpos. unfold Scheduler.inter_turn_delay, Run.bind.
  destruct (Run.is_set env st) as [r st0] eqn:E.
  assert (st0 = st) as -> by (unfold Run.is_set in E; congruence).
  simpl in Hset. subst r. unfold Run.sleep. rewrite Hpos. reflexivity.
Qed.

(** The command-line orchestrator, from one second into the same run: its
    delay sleeps in steps of 0.05 seconds and ends when the flag is set. *)
Example cli_delay_is_interruptible :
  Run.slept (Run.trace (snd (TopicGuard.interruptible_delay
                               (quiet_env (Some (3 # 2)) ok_sure) 5
                               (snd (Run.advance 1 Run.initial)))))
  = repeat (1 # 20) 10
  /\ Run.now (snd (TopicGuard.interruptible_delay
                     (quiet_env (Some (3 # 2)) ok_sure) 5
                     (snd (Run.advance 1 Run.initial))))
     == 3 # 2.
Proof. vm_compute. split; reflexivity. Qed.

(** A command-line run about remote work in which both agents keep talking
    about bananas. *)
Definition bananas (k : nat) : Run.Call := reply_with (py "I like bananas.") 1.

Definition remote_work : TopicGuard.CliConfig :=
  {| TopicGuard.AGENT_A_URL := py "http://a";
     TopicGuard.AGENT_A_NAME := py "Agent_A";
     TopicGuard.AGENT_B_URL := py "http://b";
     TopicGuard.AGENT_B_NAME := py "Agent_B";
     TopicGuard.topic := py "remote work";
     TopicGuard.turns := 1;
     TopicGuard.delay := 0;
     TopicGuard.humanize := false;
     TopicGuard.greeting := None;
     TopicGuard.persona_a := None;
     TopicGuard.persona_b := None;
     TopicGuard.max_chars := None;
     TopicGuard.short_turn := false |}.

Definition cli_run (calls : nat -> Run.Call) : Run.State :=
  snd (TopicGuard.run_conversation TopicGuard.ascii_word_char
         TopicGuard.ascii_lower (quiet_env None calls) remote_work
         Run.initial).

(** C2 as stated fails: in the one turn of this run the enforcement of
    agent B retries twice, so B is called three times, and so is A. The
    score of the reply is 0, below the threshold, each time. *)
Lemma enforce_retries_twice :
  TopicGuard.topic_similarity TopicGuard.ascii_word_char TopicGuard.ascii_lower
    (py "I like bananas.") (py "remote work") == 0
  /\ Run.count Run.is_call
       (Run.trace
          (snd (TopicGuard.enforce TopicGuard.ascii_word_char
                  TopicGuard.ascii_lower (quiet_env None bananas) remote_work
                  Sanitizer.AgentB 2 (py "I like bananas.") Run.initial)))
     = 2%nat
  /\ Run.count (Run.is_call_of Sanitizer.AgentB) (Run.trace (cli_run bananas)) = 3%nat
  /\ Run.count (Run.is_call_of Sanitizer.AgentA) (Run.trace (cli_run bananas)) = 3%nat.
Proof. vm_compute. repeat split; reflexivity. Qed.

Lemma enforce_at_most_two_retries_witness :
  TopicGuard.Qlt_bool
    (TopicGuard.topic_similarity TopicGuard.ascii_word_char
       TopicGuard.ascii_lower (py "Remote work works.") (py "remote work"))
    (1 # 2) = false
  /\ TopicGuard.enforce TopicGuard.ascii_word_char TopicGuard.ascii_lower
       (quiet_env None bananas) remote_work Sanitizer.AgentB 2
       (py "Remote work works.") Run.initial
     = (Run.Val (py "Remote work works."), Run.initial).
Proof.
  split; [reflexivity|].
  exact (proj2 (enforce_at_most_two_retries TopicGuard.ascii_word_char
                  TopicGuard.ascii_lower (quiet_env None bananas) remote_work
                  Sanitizer.AgentB (py "Remote work works.") Run.initial)
           eq_refl).
Defined.

(** An on-topic reply is not retried. *)
Example enforce_on_topic :
  Run.count Run.is_call
    (Run.trace (cli_run (fun _ => reply_with (py "Remote work works.") 1)))
  = 2%nat.
Proof. vm_compute. reflexivity. Qed.

(** ** ResponseSanitizer: [dedupe_sentences] applied twice *)

Section DedupeFacts.

Import Sanitizer.

(** A character the run class [[^.!?\n]] accepts. *)
Definition plain (c : char) : Prop := in_run c = true.

Lemma in_run_cases (c : char) :
  in_run c = true \/ is_term c = true \/ c = NL.
Proof.
  unfold in_run, is_term, TERMINATORS, mem. simpl.
  destruct (N.eqb c DOT) eqn:E1; [auto|].
  destruct (N.eqb c BANG) eqn:E2; [auto|].
  destruct (N.eqb c QMARK) eqn:E3; [auto|].
  destruct (N.eqb c NL) eqn:E4; [|auto].
  apply N.eqb_eq in E4. auto.
Qed.

Lemma term_not_plain (c : char) : is_term c = true -> in_run c = false.
Proof.
  unfold in_run, is_term, TERMINATORS, mem. simpl.
  destruct (N.eqb c DOT), (N.eqb c BANG), (N.eqb c QMARK); simpl;
    intros H; try reflexivity; discriminate.
Qed.

Lemma term_closes (c : char) : is_term c = true -> closes c = true.
Proof.
  unfold closes, is_term, TERMINATORS, mem. simpl.
  destruct (N.eqb c DOT), (N.eqb c BANG), (N.eqb c QMARK); simpl;
    intros H; try reflexivity; discriminate.
Qed.

Lemma space_plain : plain SPACE.
Proof. reflexivity. Qed.

(** The scan swallows a stretch of plain characters into the run. *)
Lemma chunks_run (u : str) :
  Forall plain u ->
  forall run s, chunks_from run (u ++ s) = chunks_from (run ++ u) s.
Proof.
  induction 1 as [|c u Hc _ IH]; intros run s.
  - now rewrite app_nil_r.
  - cbn [app chunks_from]. rewrite Hc, IH, <- app_assoc. reflexivity.
Qed.

(** A terminator closes a non-empty run, and is skipped otherwise. *)
Lemma chunks_close (run : str) (t : char) (s : str) :
  is_term t = true -> run <> [] ->
  chunks_from run (t :: s) = (run ++ [t]) :: chunks_from [] s.
Proof.
  intros Ht Hrun. cbn [chunks_from].
  rewrite (term_not_plain t Ht), (term_closes t Ht).
  destruct run; [congruence|reflexivity].
Qed.

Lemma chunks_skip (t : char) (s : str) :
  is_term t = true -> chunks_from [] (t :: s) = chunks_from [] s.
Proof. intros Ht. cbn [chunks_from]. now rewrite (term_not_plain t Ht). Qed.

Lemma chunks_end (run : str) : run <> [] -> chunks_from run [] = [run].
Proof. destruct run; [congruence|reflexivity]. Qed.

(** A chunk that ends in a terminator, and one that does not. *)
Definition closed (p : str) : Prop :=
  exists u t, p = u ++ [t] /\ Forall plain u /\ is_term t = true.

Definition opened (p : str) : Prop := Forall plain p.

(** Every element but the last satisfies [C]; the last [C] or [O]. *)
Fixpoint chain (C O : str -> Prop) (l : list str) : Prop :=
  match l with
  | [] => True
  | p :: rest =>
      match rest with
      | [] => C p \/ O p
      | _ => C p /\ chain C O rest
      end
  end.

Lemma chain_cons (C O : str -> Prop) (p : str) (rest : list str) :
  C p -> chain C O rest -> chain C O (p :: rest).
Proof. intros Hp Hr. cbn [chain]. destruct rest; auto. Qed.

Lemma chain_inv (C O : str -> Prop) (p : str) (rest : list str) :
  chain C O (p :: rest) ->
  (C p \/ (O p /\ rest = [])) /\ chain C O rest.
Proof.
  cbn [chain]. destruct rest as [|q rest'].
  - intros [H|H]; split; simpl; auto.
  - intros [H1 H2]. auto.
Qed.

(** On a text with no newline, every chunk but the last ends in a
    terminator. *)
Lemma chunks_chain (s : str) :
  ~ In NL s ->
  forall run, Forall plain run -> chain closed opened (chunks_from run s).
Proof.
  induction s as [|c s IH]; intros Hnl run Hrun.
  - cbn [chunks_from]. destruct run; cbn [chain]; auto.
  - assert (Hs : ~ In NL s) by (intros H; apply Hnl; now right).
    assert (Hc : c <> NL) by (intros ->; apply Hnl; now left).
    cbn [chunks_from]. destruct (in_run c) eqn:E.
    + apply IH; [exact Hs|]. apply Forall_app. split; [exact Hrun|].
      constructor; [exact E|constructor].
    + assert (Ht : is_term c = true).
      { destruct (in_run_cases c) as [H|[H|H]]; congruence. }
      destruct run as [|r run']; [apply IH; auto|].
      rewrite (term_closes c Ht). apply chain_cons; [|apply IH; auto].
      exists (r :: run'), c. auto.
Qed.

(** What the loop keeps: a trimmed chunk that ends in a terminator, or a
    trimmed chunk of plain characters. *)
Definition sentence (o : str) : Prop :=
  exists u t, o = u ++ [t] /\ Forall plain u /\ is_term t = true /\ trimmed o.

Definition fragment (o : str) : Prop :=
  o <> [] /\ Forall plain o /\ trimmed o.

Definition tight (o : str) : Prop := o <> [] /\ trimmed o.

Lemma Forall_dropwhile (P : char -> Prop) (q : char -> bool) (s : str) :
  Forall P s -> Forall P (dropwhile q s).
Proof.
  induction 1 as [|c s Hc Hs IH]; simpl; [constructor|].
  destruct (q c); [exact IH|now constructor].
Qed.

Lemma Forall_strip (P : char -> Prop) (s : str) :
  Forall P s -> Forall P (strip s).
Proof.
  intros H. unfold strip, rstrip, lstrip.
  apply Forall_rev, Forall_dropwhile, Forall_rev, Forall_dropwhile, H.
Qed.

Lemma lstrip_snoc (u : str) (t : char) :
  isspace t = false -> lstrip (u ++ [t]) = lstrip u ++ [t].
Proof.
  intros H. unfold lstrip. rewrite dropwhile_snoc, H.
  now destruct (dropwhile isspace u).
Qed.

Lemma strip_closed (p : str) : closed p -> sentence (strip p).
Proof.
  intros (u & t & -> & Hu & Ht).
  pose proof (term_not_space t Ht) as Hs.
  exists (lstrip u), t. split; [|split; [|split]].
  - unfold strip. rewrite (lstrip_snoc u t Hs), rstrip_is_rdrop.
    now apply rdrop_snoc_keep.
  - now apply Forall_dropwhile.
  - exact Ht.
  - apply strip_is_trimmed.
Qed.

Lemma sentence_tight (o : str) : sentence o -> tight o.
Proof.
  intros (u & t & -> & _ & _ & H). split; [|exact H]. now destruct u.
Qed.

Lemma fragment_tight (o : str) : fragment o -> tight o.
Proof. intros (H1 & _ & H2). now split. Qed.

Lemma is_empty_false (s : str) : is_empty s = false -> s <> [].
Proof. destruct s; [discriminate|discriminate]. Qed.

Lemma loop_chain (l : list str) :
  chain closed opened l ->
  forall prev, chain sentence fragment (dedupe_loop prev l).
Proof.
  induction l as [|p rest IH]; intros Hl prev; [exact I|].
  apply chain_inv in Hl as [Hp Hrest]. cbn [dedupe_loop]. cbv zeta.
  assert (Hkeep : is_empty (strip p) = false ->
                  chain sentence fragment
                    (strip p :: dedupe_loop (Some (strip p)) rest)).
  { intros Hne. destruct Hp as [Hp|[Hp ->]].
    - apply chain_cons; [now apply strip_closed|now apply IH].
    - cbn [dedupe_loop chain]. right. split; [|split].
      + now apply is_empty_false.
      + now apply Forall_strip.
      + apply strip_is_trimmed. }
  destruct (is_empty (strip p)) eqn:E; [now apply IH|].
  destruct prev as [q|]; [|now apply Hkeep].
  destruct (eqb (strip p) q); [now apply IH|now apply Hkeep].
Qed.

Lemma chain_Forall (C O P : str -> Prop) (l : list str) :
  (forall x, C x -> P x) -> (forall x, O x -> P x) ->
  chain C O l -> Forall P l.
Proof.
  intros HC HO. induction l as [|p rest IH]; intros H; [constructor|].
  apply chain_inv in H as [[H|[H _]] Hr]; constructor; auto.
Qed.

(** The first element differs from [prev]; neighbours differ. *)
Definition fresh (prev : option str) (l : list str) : Prop :=
  match prev, l with
  | Some q, o :: _ => o <> q
  | _, _ => True
  end.

Fixpoint distinct (l : list str) : Prop :=
  match l with
  | [] => True
  | a :: r => fresh (Some a) r /\ distinct r
  end.

Lemma eqb_false (a b : str) : eqb a b = false -> a <> b.
Proof. intros H E. apply eqb_eq in E. congruence. Qed.

Lemma loop_distinct (l : list str) :
  forall prev,
    distinct (dedupe_loop prev l) /\ fresh prev (dedupe_loop prev l).
Proof.
  induction l as [|p rest IH]; intros prev.
  - split; [exact I|]. now destruct prev.
  - cbn [dedupe_loop]. cbv zeta.
    destruct (is_empty (strip p)); [apply IH|].
    destruct prev as [q|].
    + destruct (eqb (strip p) q) eqn:E; [apply IH|].
      destruct (IH (Some (strip p))) as [D F].
      split; [split; assumption|]. now apply eqb_false.
    + destruct (IH (Some (strip p))) as [D F].
      split; [split; assumption|exact I].
Qed.

(** The loop keeps a list of trimmed chunks with no repeated neighbour as
    it is. *)
Lemma loop_fixed (l : list str) :
  Forall tight l ->
  forall prev, distinct l -> fresh prev l -> dedupe_loop prev l = l.
Proof.
  induction 1 as [|o l [Hne Ht] _ IH]; intros prev Hd Hf; [reflexivity|].
  cbn [dedupe_loop]. cbv zeta. rewrite (strip_trimmed_id o Ht).
  destruct o as [|c o']; [congruence|]. cbn [is_empty].
  destruct Hd as [Hf' Hd].
  destruct prev as [q|].
  - simpl in Hf. destruct (eqb (c :: o') q) eqn:E.
    + apply eqb_eq in E. congruence.
    + f_equal. now apply IH.
  - f_equal. now apply IH.
Qed.

(** The loop looks at its chunks only through [strip]. *)
Lemma loop_ext (l : list str) :
  forall l' prev, map strip l = map strip l' ->
                  dedupe_loop prev l = dedupe_loop prev l'.
Proof.
  induction l as [|p rest IH]; intros [|p' rest'] prev H;
    try discriminate H; [reflexivity|].
  injection H as Hp Hrest. cbn [dedupe_loop]. cbv zeta. rewrite Hp.
  destruct (is_empty (strip p')); [now apply IH|].
  destruct prev as [q|].
  - destruct (eqb (strip p') q); [now apply IH|]. f_equal. now apply IH.
  - f_equal. now apply IH.
Qed.

Lemma strip_spaced (o : str) : strip (SPACE :: o) = strip o.
Proof. reflexivity. Qed.

Definition spaced (l : list str) : list str := map (cons SPACE) l.

Lemma map_strip_spaced (l : list str) : map strip (spaced l) = map strip l.
Proof. unfold spaced. rewrite map_map. reflexivity. Qed.

Lemma join_spaced (o : str) (rest : list str) :
  join [SPACE] (o :: rest) = o ++ concat (spaced rest).
Proof.
  revert o. induction rest as [|o' rest IH]; intros o.
  - simpl. now rewrite app_nil_r.
  - change (join [SPACE] (o :: o' :: rest))
      with (o ++ [SPACE] ++ join [SPACE] (o' :: rest)).
    rewrite IH. reflexivity.
Qed.

(** Scanning the joined text gives the chunks back, each after the first
    behind its separating space. *)
Lemma rescan_one (run o s : str) (rest : list str) :
  Forall plain run ->
  (sentence o \/ (fragment o /\ rest = [] /\ s = [])) ->
  (run <> [] \/ starts_in TERMINATORS o = false) ->
  (rest <> [] -> sentence o) ->
  exists tail,
    chunks_from run (o ++ s) = (run ++ o) :: tail
    /\ (sentence o -> tail = chunks_from [] s)
    /\ (rest = [] -> s = [] -> tail = []).
Proof.
  intros Hrun Ho Hstart Hrest.
  destruct Ho as [(u & t & -> & Hu & Ht & _)|((Hne & Hp & _) & -> & ->)].
  - exists (chunks_from [] s). rewrite <- app_assoc, (chunks_run u Hu).
    cbn [app]. rewrite chunks_close.
    + rewrite <- app_assoc. repeat split; auto. intros _ ->. reflexivity.
    + exact Ht.
    + destruct Hstart as [H|H].
      * now destruct run.
      * destruct u; [|now destruct run].
        unfold starts_in in H. cbn [app] in H. unfold is_term in Ht.
        congruence.
  - exists []. rewrite (chunks_run o Hp), chunks_end.
    + repeat split; auto.
    + destruct o; [congruence|]. now destruct run.
Qed.

Lemma rescan_tail (rest : list str) :
  chain sentence fragment rest ->
  chunks_from [] (concat (spaced rest)) = spaced rest.
Proof.
  induction rest as [|o rest IH]; intros H; [reflexivity|].
  apply chain_inv in H as [Ho Hr].
  change (concat (spaced (o :: rest)))
    with (SPACE :: (o ++ concat (spaced rest))).
  cbn [chunks_from]. rewrite space_plain. cbn [app].
  destruct (rescan_one [SPACE] o (concat (spaced rest)) rest) as (tail & E & T1 & T2).
  - constructor; [exact space_plain|constructor].
  - destruct Ho as [Ho|[Ho ->]]; [now left|]. right. auto.
  - left. discriminate.
  - intros Hne. destruct Ho as [Ho|[_ ->]]; [exact Ho|congruence].
  - rewrite E. cbn [spaced map app]. f_equal.
    destruct Ho as [Ho|[_ ->]].
    + rewrite (T1 Ho). now apply IH.
    + now apply T2.
Qed.

Lemma rescan (o : str) (rest : list str) :
  chain sentence fragment (o :: rest) ->
  starts_in TERMINATORS o = false ->
  chunks_from [] (join [SPACE] (o :: rest)) = o :: spaced rest.
Proof.
  intros H Hstart. rewrite join_spaced.
  apply chain_inv in H as [Ho Hr].
  destruct (rescan_one [] o (concat (spaced rest)) rest) as (tail & E & T1 & T2).
  - constructor.
  - destruct Ho as [Ho|[Ho ->]]; [now left|]. right. auto.
  - now right.
  - intros Hne. destruct Ho as [Ho|[_ ->]]; [exact Ho|congruence].
  - rewrite E. cbn [app]. f_equal.
    destruct Ho as [Ho|[_ ->]].
    + rewrite (T1 Ho). now apply rescan_tail.
    + now apply T2.
Qed.

Lemma tight_head (b : str) :
  tight b -> exists c b', b = c :: b' /\ isspace c = false.
Proof.
  intros [Hne Ht]. destruct b as [|c b']; [congruence|].
  exists c, b'. split; [reflexivity|]. now apply trimmed_head in Ht.
Qed.

Lemma tight_last (b : str) :
  tight b -> exists b' d, b = b' ++ [d] /\ isspace d = false.
Proof.
  intros [Hne [_ Hr]].
  destruct (exists_last Hne) as (b' & d & ->).
  exists b', d. split; [reflexivity|].
  destruct (isspace d) eqn:E; [|reflexivity].
  exfalso. rewrite rstrip_is_rdrop in Hr. unfold rdrop in Hr.
  rewrite rev_app_distr in Hr. cbn [rev app dropwhile] in Hr.
  rewrite E in Hr. apply (f_equal (@List.length char)) in Hr.
  rewrite length_rev, length_app in Hr. cbn [List.length] in Hr.
  pose proof (dropwhile_length isspace (rev b')) as L.
  rewrite length_rev in L. lia.
Qed.

Lemma tight_app (a m b : str) : tight a -> tight b -> tight (a ++ m ++ b).
Proof.
  intros Ha Hb.
  destruct (tight_head a Ha) as (c & a' & -> & Hc).
  destruct (tight_last b Hb) as (b' & d & -> & Hd).
  split; [discriminate|]. split.
  - unfold lstrip. cbn [app]. now apply dropwhile_keep.
  - rewrite rstrip_is_rdrop, !app_assoc. now apply rdrop_snoc_keep.
Qed.

Lemma join_tight (o : str) (rest : list str) :
  Forall tight (o :: rest) -> tight (join [SPACE] (o :: rest)).
Proof.
  revert o. induction rest as [|o' rest IH]; intros o H.
  - now inversion H.
  - inversion H as [|? ? Ho Hrest]. subst.
    change (join [SPACE] (o :: o' :: rest))
      with (o ++ [SPACE] ++ join [SPACE] (o' :: rest)).
    apply tight_app; [exact Ho|now apply IH].
Qed.

Lemma chunks_nonempty (s : str) :
  forall run, run <> [] -> chunks_from run s <> [].
Proof.
  induction s as [|c s IH]; intros run Hrun; cbn [chunks_from].
  - destruct run; [congruence|discriminate].
  - destruct (in_run c).
    + apply IH. now destruct run.
    + destruct run; [congruence|]. destruct (closes c); discriminate.
Qed.

(** A text with no newline and no chunk is a run of terminators. *)
Lemma no_chunks_starts_in (x : str) :
  ~ In NL x -> x <> [] -> findall_chunks x = [] ->
  starts_in TERMINATORS (strip x) = true.
Proof.
  intros Hnl Hne H. destruct x as [|c r]; [congruence|].
  unfold findall_chunks in H. cbn [chunks_from] in H.
  destruct (in_run c) eqn:E.
  - exfalso. revert H. apply chunks_nonempty. discriminate.
  - assert (Ht : is_term c = true).
    { destruct (in_run_cases c) as [H1|[H1|H1]]; [congruence|exact H1|].
      exfalso. apply Hnl. now left. }
    pose proof (term_not_space c Ht) as Hs.
    unfold strip, lstrip. rewrite (dropwhile_keep isspace c r Hs).
    destruct (rstrip_keeps_head c r Hs) as [r' ->]. exact Ht.
Qed.

(** C8, as amended. On a text with no newline whose deduplicated form does
    not begin with a sentence terminator, [dedupe_sentences] is idempotent. *)
Theorem dedupe_idempotent_on_lines (x : str) :
  ~ In NL x ->
  starts_in TERMINATORS (dedupe_sentences x) = false ->
  dedupe_sentences (dedupe_sentences x) = dedupe_sentences x.
Proof.
  intros Hnl Hstart. destruct x as [|c0 x0] eqn:Ex; [reflexivity|].
  rewrite <- Ex in *. assert (Hne : x <> []) by (rewrite Ex; discriminate).
  clear Ex c0 x0.
  assert (Hx : dedupe_sentences x =
               match findall_chunks x with
               | [] => strip x
               | parts => strip (join [SPACE] (dedupe_loop None parts))
               end) by (destruct x; [congruence|reflexivity]).
  destruct (findall_chunks x) as [|p parts] eqn:Ep.
  { rewrite Hx in Hstart.
    rewrite (no_chunks_starts_in x Hnl Hne Ep) in Hstart. discriminate. }
  pose proof (chunks_chain x Hnl [] (Forall_nil _)) as Hchain.
  fold (findall_chunks x) in Hchain. rewrite Ep in Hchain.
  pose proof (loop_chain _ Hchain None) as Hout.
  destruct (loop_distinct (p :: parts) None) as [Hdist _].
  set (out := dedupe_loop None (p :: parts)) in *.
  destruct out as [|o rest] eqn:Eout.
  { rewrite Hx. reflexivity. }
  assert (Htight : Forall tight (o :: rest)).
  { eapply chain_Forall; [apply sentence_tight|apply fragment_tight|exact Hout]. }
  pose proof (join_tight o rest Htight) as [Jne Jt].
  rewrite (strip_trimmed_id _ Jt) in Hx.
  assert (Ho : starts_in TERMINATORS o = false).
  { rewrite Hx, join_spaced in Hstart.
    inversion Htight as [|? ? [Hone _] _]. subst.
    destruct o; [congruence|exact Hstart]. }
  rewrite Hx.
  assert (HJ : dedupe_sentences (join [SPACE] (o :: rest)) =
               match findall_chunks (join [SPACE] (o :: rest)) with
               | [] => strip (join [SPACE] (o :: rest))
               | parts => strip (join [SPACE] (dedupe_loop None parts))
               end).
  { destruct (join [SPACE] (o :: rest)); [congruence|reflexivity]. }
  rewrite HJ. unfold findall_chunks. rewrite (rescan o rest Hout Ho).
  rewrite (loop_ext (o :: spaced rest) (o :: rest) None)
    by (cbn [map]; now rewrite map_strip_spaced).
  rewrite (loop_fixed (o :: rest) Htight None Hdist I).
  now apply strip_trimmed_id.
Qed.

End DedupeFacts.

Lemma dedupe_idempotent_on_lines_witness :
  Sanitizer.dedupe_sentences
    (Sanitizer.dedupe_sentences (py "Hi there. Hi there. Bye now"))
  = py "Hi there. Bye now".
Proof.
  assert (H1 : ~ In NL (py "Hi there. Hi there. Bye now")).
  { vm_compute. intuition discriminate. }
  rewrite (dedupe_idempotent_on_lines (py "Hi there. Hi there. Bye now") H1
             eq_refl).
  reflexivity.
Defined.

(** C8 as stated fails: a chunk cut by a newline is joined to its neighbour
    by the first pass, and the second pass finds a repetition the first did
    not. *)
Lemma dedupe_not_idempotent :
  Sanitizer.dedupe_sentences (py "a b.a" ++ [NL] ++ py "b.") = py "a b. a b."
  /\ Sanitizer.dedupe_sentences
       (Sanitizer.dedupe_sentences (py "a b.a" ++ [NL] ++ py "b."))
     = py "a b."
  /\ Sanitizer.dedupe_sentences
       (Sanitizer.dedupe_sentences (py "a b.a" ++ [NL] ++ py "b."))
     <> Sanitizer.dedupe_sentences (py "a b.a" ++ [NL] ++ py "b.").
Proof. vm_compute. repeat split. discriminate. Qed.

(** Without a newline, a text that opens with a bare terminator loses it on
    the second pass. *)
Example dedupe_leading_terminator :
  Sanitizer.dedupe_sentences (py " . b.") = py ". b."
  /\ Sanitizer.dedupe_sentences (Sanitizer.dedupe_sentences (py " . b."))
     = py "b.".
Proof. vm_compute. split; reflexivity. Qed.

(** ** The interruptible delay of the command-line orchestrator *)

Section CliDelayFacts.

Import Run TopicGuard.
Local Open Scope run_scope.

Variable env : Env.

Definition short_sleep (e : Effect) : Prop :=
  match e with
  | ESleep d => d <= 1 # 20
  | _ => True
  end.

Lemma qmin_le_l (a b : Q) : qmin a b <= a.
Proof.
  unfold qmin. destruct (Qle_bool a b) eqn:E; [apply Qle_refl|].
  destruct (Qlt_le_dec b a) as [H|H]; [now apply Qlt_le_weak|].
  apply Qle_bool_iff in H. congruence.
Qed.

Lemma bind_ext {A B} (c : M A) (k k' : A -> M B) (st : State) :
  (forall a st', k a st' = k' a st') -> bind c k st = bind c k' st.
Proof.
  intros H. unfold bind. destruct (c st) as [[a|e] st1]; auto.
Qed.

(** No single sleep of the loop is longer than 0.05 seconds. *)
Lemma delay_loop_sleeps_short (fuel : nat) :
  forall (waited delay : Q) (st : State),
  exists new,
    trace (snd (delay_loop env fuel waited delay st)) = trace st ++ new
    /\ Forall short_sleep new.
Proof.
  induction fuel as [|fuel IH]; intros waited delay st.
  - exists []. simpl. rewrite app_nil_r. auto.
  - cbn [delay_loop]. destruct (Qlt_bool waited delay).
    2:{ exists []. simpl. rewrite app_nil_r. auto. }
    unfold bind at 1, is_set.
    destruct (match stop_at env with Some _ => _ | None => _ end).
    { exists []. simpl. rewrite app_nil_r. auto. }
    unfold bind at 1, sleep.
    destruct (Qle_bool 0 (qmin (1 # 20) (delay - waited))).
    2:{ exists []. simpl. rewrite app_nil_r. auto. }
    unfold bind at 1, effect, advance. cbn [fst snd].
    match goal with
    | |- context [delay_loop env fuel ?w delay ?s] =>
        destruct (IH w delay s) as (new & T & F)
    end.
    exists (ESleep (qmin (1 # 20) (delay - waited)) :: new).
    rewrite T. cbn [trace]. rewrite <- app_assoc.
    split; [reflexivity|]. constructor; [apply qmin_le_l|exact F].
Qed.

(** The fuel of [interruptible_delay] is never what ends the loop: with
    [n] iterations enough to cover what is left of the delay, more fuel
    changes nothing. *)
Lemma delay_loop_fuel (n : nat) :
  forall (extra : nat) (waited delay : Q) (st : State),
  delay - waited <= inject_Z (Z.of_nat n) * (1 # 20) ->
  delay_loop env (n + extra) waited delay st = delay_loop env n waited delay st.
Proof.
  induction n as [|n IH]; intros extra waited delay st H.
  - assert (Hd : Qlt_bool waited delay = false).
    { unfold Qlt_bool. apply negb_false_iff, Qle_bool_iff.
      change (inject_Z (Z.of_nat 0)) with 0 in H. lra. }
    destruct extra; [reflexivity|]. cbn [Nat.add delay_loop].
    now rewrite Hd.
  - cbn [Nat.add delay_loop]. destruct (Qlt_bool waited delay); [|reflexivity].
    apply bind_ext. intros [|] st1; [reflexivity|].
    apply bind_ext. intros _ st2.
    apply IH. rewrite Nat2Z.inj_succ, <- Z.add_1_r, inject_Z_plus in H.
    change (inject_Z 1) with 1 in H. lra.
Qed.

Lemma interruptible_delay_fuel (extra : nat) (delay : Q) (st : State) :
  delay_loop env (Z.to_nat (Qround.Qceiling (delay * 20)) + extra) 0 delay st
  = interruptible_delay env delay st.
Proof.
  unfold interruptible_delay. apply delay_loop_fuel.
  pose proof (Qround.Qle_ceiling (delay * 20)) as Hc.
  assert (Hz : inject_Z (Qround.Qceiling (delay * 20))
               <= inject_Z (Z.of_nat (Z.to_nat (Qround.Qceiling (delay * 20))))).
  { rewrite <- Zle_Qle. lia. }
  lra.
Qed.

End CliDelayFacts.

(** * Further properties of the code *)

(** ** ResponseSanitizer: [trunc] under every policy *)

Section TruncFacts.

Import Sanitizer.

Lemma with_ellipsis_trimmed (s : str) : trimmed s -> trimmed (with_ellipsis s).
Proof.
  intros Hs. unfold with_ellipsis.
  destruct (ends_in TERMINATORS s); simpl; auto.
  destruct s as [|c r].
  - apply trimmed_single. reflexivity.
  - pose proof (trimmed_head _ _ Hs) as Hc.
    unfold rstrip_chars.
    fold (rdrop (fun c => mem c [SPACE; COMMA; SEMI; COLON]) (c :: r)).
    rewrite rdrop_cons.
    destruct (rdrop _ r) as [|x y].
    + destruct (mem c _).
      * apply trimmed_single. reflexivity.
      * apply (trimmed_ends c [] ELLIPSIS); auto.
    + apply (trimmed_ends c (x :: y) ELLIPSIS); auto.
Qed.

(** X1. The text [trunc] returns carries no leading or trailing whitespace,
    whatever the policy: stripping it again changes nothing. *)
Theorem trunc_is_stripped (cfg : Policy) (text : str) (who : Agent) :
  strip (trunc cfg text who) = trunc cfg text who.
Proof.
  apply strip_trimmed_id.
  unfold trunc. destruct text as [|c0 text0]; [apply trimmed_nil|].
  set (t := strip (c0 :: text0)).
  set (maxc := match who with AgentA => max_chars_a cfg | AgentB => max_chars_b cfg end).
  assert (Ht : trimmed t) by apply strip_is_trimmed.
  cbv zeta.
  destruct (short_turn cfg).
  - destruct (re_search t) as [g|].
    + repeat match goal with |- context [if ?b then _ else _] => destruct b end;
        apply strip_is_trimmed.
    + destruct (over_limit maxc _); [apply strip_is_trimmed|].
      apply with_ellipsis_trimmed, strip_is_trimmed.
  - destruct (over_limit maxc t); [|exact Ht].
    match goal with |- context [if ?b then _ else _] => destruct b end.
    + apply strip_is_trimmed.
    + destruct (re_search t); [apply strip_is_trimmed|].
      apply with_ellipsis_trimmed, strip_is_trimmed.
Qed.

Lemma rfind_from_cases (c : char) (s : str) :
  forall (i best : Z),
  rfind_from i best c s = best
  \/ exists pre post,
       s = pre ++ c :: post
       /\ rfind_from i best c s = (i + Z.of_nat (List.length pre))%Z.
Proof.
  induction s as [|d r IH]; intros i best; simpl; [now left|].
  destruct (IH (i + 1)%Z (if N.eqb d c then i else best))
    as [E | (pre & post & E1 & E2)].
  - rewrite E. destruct (N.eqb d c) eqn:Hd; [|now left].
    apply N.eqb_eq in Hd. subst d. right. exists [], r. simpl.
    split; [reflexivity | lia].
  - right. exists (d :: pre), post. subst r. split; [reflexivity|].
    rewrite E2. simpl List.length. lia.
Qed.

Lemma rfind_cases (c : char) (s : str) :
  rfind c s = (-1)%Z
  \/ exists pre post,
       s = pre ++ c :: post /\ rfind c s = Z.of_nat (List.length pre).
Proof.
  unfold rfind. destruct (rfind_from_cases c s 0 (-1)) as [E | (pre & post & E1 & E2)].
  - now left.
  - right. exists pre, post. split; [exact E1 | rewrite E2; lia].
Qed.

Definition CLOSERS : list char := [DOT; BANG; QMARK; ELLIPSIS].

Lemma term_closer (c : char) : is_term c = true -> mem c CLOSERS = true.
Proof.
  unfold is_term, mem, TERMINATORS, CLOSERS. simpl.
  intros H. repeat rewrite orb_true_iff in *. tauto.
Qed.

Lemma with_ellipsis_closed (s : str) : ends_in CLOSERS (with_ellipsis s) = true.
Proof.
  unfold with_ellipsis. destruct (ends_in TERMINATORS s) eqn:E; simpl.
  - unfold ends_in in *. destruct (rev s); [discriminate|].
    now apply term_closer.
  - now rewrite ends_in_snoc.
Qed.

Lemma firstn_split_at {A} (pre : list A) (c : A) (post : list A) :
  firstn (List.length pre + 1) (pre ++ c :: post) = pre ++ [c].
Proof.
  induction pre as [|x pre IH]; simpl; [reflexivity | now rewrite IH].
Qed.

(** The cut at the last terminator inside the limit. *)
Lemma cut_at_terminator (t : str) (n : nat) (c : char) :
  trimmed t -> is_term c = true ->
  forall pre post,
  firstn n t = pre ++ c :: post -> pre <> [] ->
  let s := strip (firstn (List.length pre + 1) (firstn n t)) in
  s = pre ++ [c].
Proof.
  intros Ht Hc pre post E Hpre s. unfold s. rewrite E, firstn_split_at.
  apply strip_trimmed_id.
  destruct pre as [|h u]; [congruence|].
  apply trimmed_ends; [|now apply term_not_space].
  destruct t as [|h' t']; [destruct n; discriminate|].
  destruct n; [discriminate|]. simpl in E. injection E as -> _.
  now apply trimmed_head in Ht.
Qed.

(** X2. Without [short_turn], a reply within the limit (or with no limit) is
    returned stripped and whole. A reply over the limit is cut, and the cut
    text always ends in [.], [!], [?] or the ellipsis; it is never longer
    than the stripped reply, and it stays within the limit plus the one
    ellipsis character unless it is the whole first sentence of the reply. *)
Theorem trunc_long_turn (cfg : Policy) (text : str) (who : Agent) :
  short_turn cfg = false ->
  let t := strip text in
  let maxc := match who with
              | AgentA => max_chars_a cfg
              | AgentB => max_chars_b cfg
              end in
  let out := trunc cfg text who in
  (over_limit maxc t = false -> out = t)
  /\ (over_limit maxc t = true ->
      ends_in CLOSERS out = true
      /\ (List.length out <= List.length t)%nat
      /\ forall m, maxc = Some m ->
           (List.length out <= Z.to_nat m + 1)%nat \/ re_search t = Some out).
Proof.
  intros Hshort t maxc out.
  assert (Hout : out =
    match text with
    | [] => []
    | _ =>
      if over_limit maxc t then
        let m := match maxc with Some m => m | None => 0%Z end in
        let snippet := firstn (Z.to_nat m) t in
        let last_pos := Z.max (Z.max (rfind DOT snippet) (rfind BANG snippet))
                              (rfind QMARK snippet) in
        if negb (last_pos =? -1)%Z && (0 <? last_pos)%Z then
          strip (firstn (Z.to_nat (last_pos + 1)) snippet)
        else
          match re_search t with
          | Some g => strip g
          | None => with_ellipsis (strip snippet)
          end
      else t
    end).
  { unfold out, trunc. destruct text; [reflexivity|]. now rewrite Hshort. }
  clearbody out. subst out.
  assert (Ht : trimmed t) by apply strip_is_trimmed.
  split.
  - intros Hover. destruct text; [reflexivity|]. now rewrite Hover.
  - intros Hover.
    destruct text as [|c0 text0].
    { exfalso. unfold over_limit in Hover.
      destruct maxc as [m|]; [|discriminate].
      apply andb_true_iff in Hover as [H1 H2].
      apply andb_true_iff in H1 as [_ H1].
      apply Z.ltb_lt in H1, H2. subst t. simpl in H2. lia. }
    rewrite Hover.
    destruct maxc as [m|] eqn:Hmax; [|discriminate].
    unfold over_limit in Hover.
    apply andb_true_iff in Hover as [Hover Hlen].
    apply andb_true_iff in Hover as [_ Hpos].
    apply Z.ltb_lt in Hpos, Hlen.
    cbv zeta.
    set (snippet := firstn (Z.to_nat m) t).
    assert (Hsn : List.length snippet = Z.to_nat m).
    { unfold snippet. rewrite length_firstn. lia. }
    set (last_pos := Z.max (Z.max (rfind DOT snippet) (rfind BANG snippet))
                           (rfind QMARK snippet)).
    destruct (negb (last_pos =? -1)%Z && (0 <? last_pos)%Z) eqn:Hlast.
    + apply andb_true_iff in Hlast as [_ Hgt]. apply Z.ltb_lt in Hgt.
      assert (Hc : exists c pre post,
                 is_term c = true /\ snippet = pre ++ c :: post
                 /\ last_pos = Z.of_nat (List.length pre)).
      { destruct (rfind_cases DOT snippet) as [E1 | (p1 & q1 & S1 & E1)];
        destruct (rfind_cases BANG snippet) as [E2 | (p2 & q2 & S2 & E2)];
        destruct (rfind_cases QMARK snippet) as [E3 | (p3 & q3 & S3 & E3)];
        unfold last_pos in *; rewrite E1, E2, E3 in *;
        try lia;
        destruct (Z.max_spec (Z.max (rfind DOT snippet) (rfind BANG snippet))
                             (rfind QMARK snippet)) as [[_ M] | [_ M]];
        destruct (Z.max_spec (rfind DOT snippet) (rfind BANG snippet))
          as [[_ M'] | [_ M']];
        rewrite ?E1, ?E2, ?E3 in *;
        first
          [ lia
          | exists DOT, p1, q1; repeat split; [assumption | lia]
          | exists BANG, p2, q2; repeat split; [assumption | lia]
          | exists QMARK, p3, q3; repeat split; [assumption | lia] ]. }
      destruct Hc as (c & pre & post & Hterm & Hsplit & Hidx).
      assert (Hpre : pre <> []) by (intros ->; simpl in Hidx; lia).
      replace (Z.to_nat (last_pos + 1)) with (List.length pre + 1)%nat by lia.
      pose proof (cut_at_terminator t (Z.to_nat m) c Ht Hterm pre post Hsplit Hpre)
        as Hcut.
      cbv zeta in Hcut. fold snippet in Hcut. rewrite Hcut.
      assert (Hl : (List.length (pre ++ [c]) <= Z.to_nat m)%nat).
      { rewrite <- Hsn, Hsplit, !length_app. simpl. lia. }
      split; [rewrite ends_in_snoc; now apply term_closer|].
      split; [lia|].
      intros m' Hm'. injection Hm' as <-. left. lia.
    + destruct (re_search t) as [g|] eqn:Hre.
      * pose proof (first_sentence_trimmed t g Ht Hre) as Hg.
        rewrite (strip_trimmed_id g Hg).
        destruct (re_search_prefix t g Hre) as (h & u & c & rest & E1 & E2 & Hc).
        split; [rewrite E2, ends_in_snoc; now apply term_closer|].
        split; [apply (f_equal (@List.length _)) in E1; rewrite length_app in E1; lia|].
        intros m' _. now right.
      * split; [apply with_ellipsis_closed|].
        pose proof (with_ellipsis_length (strip snippet)) as L1.
        pose proof (strip_length snippet) as L2.
        split; [lia|].
        intros m' Hm'. injection Hm' as <-. left. lia.
Qed.

Definition long_policy : Policy :=
  {| short_turn := false; max_chars_a := Some 5%Z; max_chars_b := None |}.

Lemma trunc_long_turn_witness :
  short_turn long_policy = false
  /\ over_limit (Some 5%Z) (strip (py "Hello world. Bye now")) = true
  /\ ends_in CLOSERS (trunc long_policy (py "Hello world. Bye now") AgentA) = true
  /\ re_search (strip (py "Hello world. Bye now"))
     = Some (trunc long_policy (py "Hello world. Bye now") AgentA).
Proof.
  split; [reflexivity|]. split; [reflexivity|].
  destruct (trunc_long_turn long_policy (py "Hello world. Bye now") AgentA eq_refl)
    as [_ H].
  destruct (H eq_refl) as (H1 & _ & H3).
  split; [exact H1|].
  destruct (H3 5%Z eq_refl) as [L | R]; [|exact R].
  vm_compute in L. lia.
Defined.

(** The limit is not a hard cap: the first sentence is kept whole. *)
Example trunc_keeps_first_sentence :
  trunc long_policy (py "Hello world. Bye now") AgentA = py "Hello world.".
Proof. reflexivity. Qed.

End TruncFacts.

(** ** ResponseSanitizer: what [dedupe_sentences] keeps *)

Section DedupeChunks.

Import Sanitizer.




(** A repeat that is not adjacent is kept. *)
Example dedupe_keeps_distant_repeat :
  dedupe_sentences (py "Yes. No. Yes. Yes.") = py "Yes. No. Yes.".
Proof. reflexivity. Qed.

End DedupeChunks.

(** ** TurnScheduler: the endpoint URLs *)

Section EndpointFacts.

Import Run Scheduler.

Lemma rstrip_chars_repeat (c : char) (s : str) (n : nat) :
  rstrip_chars [c] (s ++ repeat c n) = rstrip_chars [c] s.
Proof.
  unfold rstrip_chars. rewrite rev_app_distr, rev_repeat. f_equal.
  induction n as [|n IH]; [reflexivity|].
  simpl. unfold mem at 1. simpl. rewrite N.eqb_refl. exact IH.
Qed.

Lemma rstrip_chars_no_tail (c : char) (s : str) :
  ends_in [c] (rstrip_chars [c] s) = false.
Proof.
  unfold rstrip_chars, ends_in. rewrite rev_involutive.
  destruct (dropwhile _ (rev s)) as [|d r] eqn:E; [reflexivity|].
  now apply dropwhile_head in E.
Qed.

(** X4. The API path override joins base and path with exactly the slash the
    path carries or lacks: slashes at the end of the base URL make no
    difference, a path without a leading slash gets one, the base part of
    the result never ends in a slash, and without a path the URL is used
    as it is. *)
Theorem with_api_path_slashes (url api : str) (n : nat) :
  api <> [] ->
  with_api_path (url ++ repeat SLASH n) (Some api) = with_api_path url (Some api)
  /\ (starts_in [SLASH] api = false ->
      with_api_path url (Some api) = with_api_path url (Some (SLASH :: api)))
  /\ (exists base path,
        with_api_path url (Some api) = base ++ SLASH :: path
        /\ base = rstrip_chars [SLASH] url
        /\ ends_in [SLASH] base = false
        /\ (api = SLASH :: path \/ api = path))
  /\ with_api_path url None = url
  /\ with_api_path url (Some []) = url.
Proof.
  intros Hapi. destruct api as [|a api']; [congruence|].
  unfold with_api_path. cbn [or_else is_empty is_prefix starts_in].
  rewrite rstrip_chars_repeat, andb_true_r.
  split; [reflexivity|].
  split.
  - intros Hs. unfold mem in Hs. simpl in Hs. rewrite orb_false_r in Hs.
    rewrite N.eqb_sym in Hs. rewrite Hs. cbn [N.eqb SLASH]. reflexivity.
  - split; [|split; reflexivity].
    destruct (N.eqb SLASH a) eqn:E.
    + apply N.eqb_eq in E. subst a.
      exists (rstrip_chars [SLASH] url), api'.
      repeat split; [apply rstrip_chars_no_tail | now left].
    + exists (rstrip_chars [SLASH] url), (a :: api').
      repeat split; [apply rstrip_chars_no_tail | now right].
Qed.

Lemma with_api_path_slashes_witness :
  py "api/chat" <> []
  /\ with_api_path (py "http://host:11434//") (Some (py "api/chat"))
     = py "http://host:11434/api/chat".
Proof.
  split; [discriminate|].
  destruct (with_api_path_slashes (py "http://host:11434") (py "api/chat") 2)
    as (H & _); [discriminate|].
  etransitivity; [exact H | reflexivity].
Defined.

End EndpointFacts.

(** ** TurnScheduler: one agent call *)

Section CallFacts.

Import Run Scheduler.
Local Open Scope run_scope.

Lemma call_issues_one_request (env : Env) (who : Agent) (url : str) (st : State) :
  trace (snd (_call_ollama_with_timeout env who url st))
  = trace st ++ [ECall who url (messages_of who st)].
Proof.
  unfold _call_ollama_with_timeout, bind, get, effect. cbn [fst snd].
  destruct (outcome _); [| |reflexivity];
    destruct (Qle_bool TIMEOUT _); reflexivity.
Qed.

(** X5. A call through [_call_ollama_with_timeout] holds the scheduler for 20
    seconds at most, issues exactly one request with the agent's current
    history and leaves both histories alone. Unless the call could not be
    issued at all it returns a response: the client's own when it came in
    time, and otherwise a text that starts with "[ERROR" and carries no
    endpoint; after 20 seconds that text is the timeout placeholder and the
    late answer is dropped. *)
Theorem call_waits_at_most_twenty_seconds
  (env : Env) (who : Agent) (url : str) (st : State) :
  let c := script env (count is_call (trace st)) in
  let out := _call_ollama_with_timeout env who url st in
  now (snd out) <= now st + 20
  /\ trace (snd out) = trace st ++ [ECall who url (messages_of who st)]
  /\ messages_a (snd out) = messages_a st
  /\ messages_b (snd out) = messages_b st
  /\ ((forall e, outcome c <> NotStarted e) ->
      exists r, fst out = Val r
        /\ ((outcome c = Returned r /\ took c < 20)
            \/ (is_prefix (py "[ERROR") (resp_content r) = true
                /\ resp_endpoint r = None))
        /\ (20 <= took c ->
            r = error_reply (py "[ERROR: timeout after 20s contacting "
                             ++ url ++ py "]")))
  /\ (forall e, outcome c = NotStarted e -> fst out = Exc e).
Proof.
  intros c out. unfold out, _call_ollama_with_timeout, bind, get, effect.
  cbn [fst snd]. fold c.
  assert (Hlate : Qle_bool TIMEOUT (took c) = true -> 20 <= took c)
    by (intros H; now apply Qle_bool_iff in H).
  assert (Hearly : Qle_bool TIMEOUT (took c) = false -> took c < 20).
  { intros H. apply Qnot_le_lt. intros L. apply Qle_bool_iff in L.
    unfold TIMEOUT in H. congruence. }
  destruct (outcome c) as [r | e | e] eqn:Ho.
  - destruct (Qle_bool TIMEOUT (took c)) eqn:Ht; unfold advance, ret;
      cbn [fst snd now trace messages_a messages_b].
    + repeat split; try reflexivity; try (unfold TIMEOUT; lra); try discriminate.
      intros _. eexists. split; [reflexivity|].
      split; [right; split; reflexivity | reflexivity].
    + specialize (Hearly eq_refl).
      repeat split; try reflexivity; try lra; try discriminate.
      intros _. exists r. split; [reflexivity|].
      split; [left; now split | intros L; lra].
  - destruct (Qle_bool TIMEOUT (took c)) eqn:Ht; unfold advance, ret;
      cbn [fst snd now trace messages_a messages_b].
    + repeat split; try reflexivity; try (unfold TIMEOUT; lra); try discriminate.
      intros _. eexists. split; [reflexivity|].
      split; [right; split; reflexivity | reflexivity].
    + specialize (Hearly eq_refl).
      repeat split; try reflexivity; try lra; try discriminate.
      intros _. eexists. split; [reflexivity|].
      split; [right; split; reflexivity | intros L; lra].
  - unfold raise. cbn [fst snd now trace messages_a messages_b].
    repeat split; try reflexivity; try lra.
    + intros H. now destruct (H e).
    + intros e' E. now injection E as <-.
Qed.

End CallFacts.

(** ** Steps that leave a part of the state alone *)

Section FrameFacts.

Import Run Scheduler.
Local Open Scope run_scope.

Context {X : Type} (f : State -> X).

(** [c] leaves [f] of the state as it was, however it ends. *)
Definition frame {A} (c : M A) : Prop := forall st, f (snd (c st)) = f st.

Lemma frame_ret {A} (a : A) : frame (ret a).
Proof. intros st. reflexivity. Qed.

Lemma frame_raise {A} (e : Exn) : frame (@raise A e).
Proof. intros st. reflexivity. Qed.

Lemma frame_get {A} (g : State -> A) : frame (get g).
Proof. intros st. reflexivity. Qed.

Lemma frame_is_set (env : Env) : frame (is_set env).
Proof. intros st. reflexivity. Qed.

Lemma frame_require {A} (key : string) (v : option A) : frame (require key v).
Proof. intros st. destruct v; reflexivity. Qed.

Lemma frame_bind {A B} (c : M A) (k : A -> M B) :
  frame c -> (forall a, frame (k a)) -> frame (bind c k).
Proof.
  intros Hc Hk st. unfold bind. specialize (Hc st).
  destruct (c st) as [[a|e] st1]; cbn [snd] in *; [|exact Hc].
  rewrite (Hk a st1). exact Hc.
Qed.

Lemma frame_if {A} (b : bool) (c1 c2 : M A) :
  frame c1 -> frame c2 -> frame (if b then c1 else c2).
Proof. now destruct b. Qed.

Lemma frame_for_range (body : nat -> M LoopCtl) (n : nat) :
  (forall i, frame (body i)) -> forall i, frame (for_range n i body).
Proof.
  intros Hb. induction n as [|n IH]; intros i; cbn [for_range].
  - apply frame_ret.
  - apply frame_bind; [apply Hb|]. intros [|]; [apply IH | apply frame_ret].
Qed.

End FrameFacts.

Create HintDb frame_db.

Ltac frame_steps :=
  repeat first
    [ apply frame_ret | apply frame_raise | apply frame_get
    | apply frame_is_set | apply frame_require
    | solve [auto with frame_db]
    | apply frame_if
    | apply frame_bind; [|intros ?; cbv zeta]
    | solve [intros ?; reflexivity] ].

(** ** TurnScheduler: how long a run can take *)

Section TimingFacts.

Import Run Scheduler.
Local Open Scope run_scope.

(** [c] takes [d] seconds at most, however it ends. *)
Definition lasts {A} (d : Q) (c : M A) : Prop :=
  0 <= d /\ forall st, now (snd (c st)) <= now st + d.

Lemma lasts_ret {A} (d : Q) (a : A) : 0 <= d -> lasts d (ret a).
Proof. intros H. split; [exact H|]. intros st. cbn. lra. Qed.

Lemma lasts_weaken {A} (d d' : Q) (c : M A) :
  d <= d' -> lasts d c -> lasts d' c.
Proof.
  intros L [H0 H]. split; [lra|]. intros st. specialize (H st). lra.
Qed.

Lemma lasts_bind {A B} (d1 d2 : Q) (c : M A) (k : A -> M B) :
  lasts d1 c -> (forall a, lasts d2 (k a)) -> 0 <= d2 ->
  lasts (d1 + d2) (bind c k).
Proof.
  intros [H1 Hc] Hk H2. split; [lra|]. intros st. unfold bind.
  specialize (Hc st). destruct (c st) as [[a|e] st1]; cbn [snd] in *.
  - destruct (Hk a) as [_ Hka]. specialize (Hka st1). lra.
  - lra.
Qed.

Lemma instant_then {A B} (d : Q) (c : M A) (k : A -> M B) :
  frame now c -> (forall a, lasts d (k a)) -> 0 <= d -> lasts d (bind c k).
Proof.
  intros Hc Hk H0. split; [exact H0|]. intros st. unfold bind.
  specialize (Hc st). destruct (c st) as [[a|e] st1]; cbn [snd] in *.
  - destruct (Hk a) as [_ Hka]. specialize (Hka st1). rewrite Hc in Hka. exact Hka.
  - rewrite Hc. lra.
Qed.

Lemma then_instant {A B} (d : Q) (c : M A) (k : A -> M B) :
  lasts d c -> (forall a, frame now (k a)) -> lasts d (bind c k).
Proof.
  intros [H0 Hc] Hk. split; [exact H0|]. intros st. unfold bind.
  specialize (Hc st). destruct (c st) as [[a|e] st1]; cbn [snd] in *.
  - rewrite (Hk a st1). exact Hc.
  - exact Hc.
Qed.

Lemma instant_drain_items (items : list Item) : frame now (drain_items items).
Proof.
  induction items as [|[um|] rest IH]; cbn [drain_items]; frame_steps.
Qed.

#[local] Hint Resolve instant_drain_items : frame_db.

Lemma instant_drain (env : Env) : frame now (drain env).
Proof. unfold drain. frame_steps. Qed.

Lemma instant_log_write (env : Env) (label text : str) :
  frame now (log_write env label text).
Proof. unfold log_write. frame_steps. Qed.

Lemma instant_publish (label : str) (r : Response) :
  frame now (publish_endpoint label r).
Proof. unfold publish_endpoint. frame_steps. Qed.

Lemma instant_open_log (env : Env) (cfg : Config) : frame now (open_log env cfg).
Proof. unfold open_log. frame_steps. Qed.

#[local] Hint Resolve instant_drain instant_log_write instant_publish
  instant_open_log : frame_db.

Lemma instant_prologue (env : Env) (cfg : Config) : frame now (prologue env cfg).
Proof. unfold prologue. frame_steps. Qed.

Lemma instant_handler (env : Env) (e : Exn) : frame now (handler env e).
Proof. unfold handler. frame_steps. Qed.

Lemma instant_finally : frame now finally.
Proof. unfold finally. frame_steps. Qed.

Lemma lasts_call (env : Env) (who : Agent) (url : str) :
  lasts 20 (_call_ollama_with_timeout env who url).
Proof.
  split; [lra|]. intros st.
  unfold _call_ollama_with_timeout, bind, get, effect. cbn [fst snd].
  set (c := script env _).
  assert (Hearly : Qle_bool TIMEOUT (took c) = false -> took c <= 20).
  { intros H. apply Qlt_le_weak, Qnot_le_lt. intros L.
    apply Qle_bool_iff in L. unfold TIMEOUT in H. congruence. }
  destruct (outcome c); [| |cbn; lra];
    (destruct (Qle_bool TIMEOUT (took c)); [cbn; unfold TIMEOUT; lra|];
     specialize (Hearly eq_refl); cbn; lra).
Qed.

Lemma lasts_agent_turn (env : Env) (cfg : Config) (who : Agent) (url : str) :
  lasts 20 (agent_turn env cfg who url).
Proof.
  unfold agent_turn. apply then_instant; [apply lasts_call|].
  intros resp. destruct who; frame_steps.
Qed.

Lemma lasts_sleep (d : Q) : 0 <= d -> lasts d (sleep d).
Proof.
  intros H. split; [exact H|]. intros st. unfold sleep.
  destruct (Qle_bool 0 d); cbn; lra.
Qed.

Lemma lasts_delay (env : Env) (d : Q) : 0 <= d -> lasts d (inter_turn_delay env d).
Proof.
  intros H. unfold inter_turn_delay.
  apply instant_then; [apply frame_is_set| |exact H].
  intros stopped. destruct stopped; [now apply lasts_ret|].
  apply then_instant; [now apply lasts_sleep | intros; apply frame_ret].
Qed.

Lemma lasts_round (env : Env) (cfg : Config) (turns : Z) (d : Q)
  (url_a url_b : str) (i : nat) :
  0 <= d -> lasts (40 + d) (round env cfg turns d url_a url_b i).
Proof.
  intros H. unfold round.
  apply instant_then; [apply frame_is_set| |lra].
  intros s1. destruct s1; [apply lasts_ret; lra|].
  apply instant_then; [frame_steps| |lra]. intros _.
  apply instant_then; [apply instant_drain| |lra]. intros _.
  apply (lasts_weaken (20 + (20 + d))); [lra|].
  apply lasts_bind; [apply lasts_agent_turn| |lra]. intros _.
  apply instant_then; [apply frame_is_set| |lra].
  intros s2. destruct s2; [apply lasts_ret; lra|].
  apply lasts_bind; [apply lasts_agent_turn| |lra]. intros _.
  now apply lasts_delay.
Qed.

Lemma lasts_for_range (body : nat -> M LoopCtl) (D : Q) (n : nat) :
  (forall i, lasts D (body i)) ->
  forall i, lasts (inject_Z (Z.of_nat n) * D) (for_range n i body).
Proof.
  intros Hb. assert (HD : 0 <= D) by (destruct (Hb O); assumption).
  induction n as [|n IH]; intros i; cbn [for_range].
  - apply lasts_ret. change (inject_Z (Z.of_nat 0)) with 0. lra.
  - assert (Hn : 0 <= inject_Z (Z.of_nat n) * D).
    { destruct (IH O); assumption. }
    apply (lasts_weaken (D + inject_Z (Z.of_nat n) * D)).
    { rewrite Nat2Z.inj_succ. unfold Z.succ. rewrite inject_Z_plus.
      change (inject_Z 1) with 1. lra. }
    apply lasts_bind; [apply Hb| |exact Hn].
    intros c. destruct c; [apply IH | now apply lasts_ret].
Qed.

Lemma prologue_settings (env : Env) (cfg : Config) (s : Settings)
  (st st1 : State) :
  prologue env cfg st = (Val s, st1) ->
  turns cfg = Some (s_turns s) /\ delay cfg = Some (s_delay s).
Proof.
  intros H. unfold prologue in H.
  destruct (topic cfg) as [t|]; [|discriminate H].
  destruct (turns cfg) as [n|], (delay cfg) as [d|], (a_url cfg) as [ua|],
    (b_url cfg) as [ub|], (a_model cfg) as [ma|], (b_model cfg) as [mb|];
    try discriminate H.
  unfold open_log in H.
  destruct (log cfg && truthy (log_path cfg)), (log_open_ok env);
    injection H as <- <-; split; reflexivity.
Qed.

(** X6. A run of [N] rounds with a non-negative delay [d] is over within
    [N * (40 + d)] seconds of waiting, whatever the agents do, whether it
    is cancelled and whether it fails: each round waits for two calls of 20
    seconds at most and for one delay. *)
Theorem run_duration_bound (env : Env) (cfg : Config) (N : Z) (d : Q) :
  turns cfg = Some N -> delay cfg = Some d -> 0 <= d ->
  now (_run_conversation env cfg) <= inject_Z (Z.of_nat (Z.to_nat N)) * (40 + d).
Proof.
  intros HN Hd H0. unfold _run_conversation.
  assert (Hbody : now (snd (body env cfg initial))
                  <= inject_Z (Z.of_nat (Z.to_nat N)) * (40 + d)).
  { unfold body, bind.
    pose proof (instant_prologue env cfg initial) as Hp.
    destruct (prologue env cfg initial) as [[s|e] st1] eqn:Ep; cbn [snd] in *.
    - destruct (prologue_settings env cfg s initial st1 Ep) as [E1 E2].
      rewrite HN in E1. rewrite Hd in E2.
      injection E1 as E1. injection E2 as E2. rewrite <- E1, <- E2.
      destruct (lasts_for_range
                  (round env cfg N d (s_url_a s) (s_url_b s)) (40 + d)
                  (Z.to_nat N)
                  (fun i => lasts_round env cfg N d (s_url_a s) (s_url_b s) i H0)
                  O) as [_ L].
      specialize (L st1). rewrite Hp in L. simpl (now initial) in L. lra.
    - rewrite Hp. simpl (now initial).
      assert (0 <= inject_Z (Z.of_nat (Z.to_nat N))).
      { change 0 with (inject_Z 0). rewrite <- Zle_Qle. lia. }
      nra. }
  destruct (body env cfg initial) as [[u|e] st1]; cbn [snd] in Hbody.
  - rewrite instant_finally. exact Hbody.
  - rewrite instant_finally, instant_handler. exact Hbody.
Qed.

End TimingFacts.

Lemma run_duration_bound_witness :
  Scheduler.turns (tea_cfg (Some 2%Z) 1) = Some 2%Z
  /\ Scheduler.delay (tea_cfg (Some 2%Z) 1) = Some 1
  /\ 0 <= 1
  /\ Run.now (Scheduler._run_conversation (quiet_env None ok_sure)
                (tea_cfg (Some 2%Z) 1)) <= 82.
Proof.
  split; [reflexivity|]. split; [reflexivity|]. split; [lra|].
  exact (run_duration_bound (quiet_env None ok_sure) (tea_cfg (Some 2%Z) 1)
           2%Z 1 eq_refl eq_refl ltac:(lra)).
Defined.

(** ** A Hoare logic over a view of the state *)

Section HoareFacts.

Import Run Scheduler.
Local Open Scope run_scope.

Context {X : Type} (f : State -> X).

(** From a state whose view satisfies [P], [c] ends in a state whose view
    satisfies [Qv] when it returns and [Qe] when it raises. *)
Definition triple {A} (P : X -> Prop) (c : M A) (Qv Qe : X -> Prop) : Prop :=
  forall st, P (f st) ->
    match c st with
    | (Val _, st') => Qv (f st')
    | (Exc _, st') => Qe (f st')
    end.

Lemma triple_bind {A B} (P R Qv Qe : X -> Prop) (c : M A) (k : A -> M B) :
  triple P c R Qe -> (forall a, triple R (k a) Qv Qe) ->
  triple P (bind c k) Qv Qe.
Proof.
  intros Hc Hk st HP. unfold bind. specialize (Hc st HP).
  destruct (c st) as [[a|e] st1]; [|exact Hc].
  exact (Hk a st1 Hc).
Qed.

Lemma triple_post {A} (P Qv Qe Qv' Qe' : X -> Prop) (c : M A) :
  (forall h, Qv h -> Qv' h) -> (forall h, Qe h -> Qe' h) ->
  triple P c Qv Qe -> triple P c Qv' Qe'.
Proof.
  intros Hv He Hc st HP. specialize (Hc st HP).
  destruct (c st) as [[a|e] st1]; auto.
Qed.

Lemma triple_still {A} (P : X -> Prop) (c : M A) :
  frame f c -> triple P c P P.
Proof.
  intros Hc st HP. specialize (Hc st).
  destruct (c st) as [[a|e] st1]; cbn [snd] in Hc; now rewrite Hc.
Qed.

Lemma triple_if {A} (P Qv Qe : X -> Prop) (b : bool) (c1 c2 : M A) :
  triple P c1 Qv Qe -> triple P c2 Qv Qe ->
  triple P (if b then c1 else c2) Qv Qe.
Proof. now destruct b. Qed.

(** A step that always returns. *)
Lemma triple_run {A} (P Qv Qe : X -> Prop) (c : M A) :
  (forall st, P (f st) -> exists a st', c st = (Val a, st') /\ Qv (f st')) ->
  triple P c Qv Qe.
Proof.
  intros H st HP. destruct (H st HP) as (a & st' & E & Q). now rewrite E.
Qed.

Lemma triple_for_range (P : X -> Prop) (body : nat -> M LoopCtl) (n : nat) :
  (forall i, triple P (body i) P P) ->
  forall i, triple P (for_range n i body) P P.
Proof.
  intros Hb. induction n as [|n IH]; intros i; cbn [for_range].
  - apply triple_still, frame_ret.
  - apply (triple_bind P P); [apply Hb|].
    intros [|]; [apply IH | apply triple_still, frame_ret].
Qed.

End HoareFacts.

(** ** TurnScheduler: the two histories mirror each other *)

Section MirrorFacts.

Import Run Scheduler.
Local Open Scope run_scope.

Definition Hist := (list Message * list Message)%type.

Definition hist (st : State) : Hist := (messages_a st, messages_b st).

(** The same text, seen from the two sides: what one agent said is a user
    turn for the other, and a prompt from outside is a user turn for both. *)
Definition twin (ma mb : Message) : Prop :=
  content ma = content mb
  /\ ((role ma = User /\ role mb = User)
      \/ (role ma = Assistant /\ role mb = User)
      \/ (role ma = User /\ role mb = Assistant)).

(** Each history starts with its own system prompt, and the entries after
    it are twins. *)
Definition seeded (h : Hist) : Prop :=
  match h with
  | (sa :: ta, sb :: tb) =>
      role sa = System /\ role sb = System /\ Forall2 twin ta tb
  | _ => False
  end.

Definition mirrored (h : Hist) : Prop := h = ([], []) \/ seeded h.

(** [c] keeps seeded histories seeded. *)
Definition keeps {A} (c : M A) : Prop := triple hist seeded c seeded seeded.

Lemma keeps_bind {A B} (c : M A) (k : A -> M B) :
  keeps c -> (forall a, keeps (k a)) -> keeps (bind c k).
Proof. apply triple_bind. Qed.

Lemma keeps_still {A} (c : M A) : frame hist c -> keeps c.
Proof. apply triple_still. Qed.

Lemma seeded_snoc (la lb : list Message) (ma mb : Message) :
  seeded (la, lb) -> twin ma mb -> seeded (la ++ [ma], lb ++ [mb]).
Proof.
  destruct la as [|sa ta], lb as [|sb tb]; try contradiction.
  intros (Ha & Hb & Ht) Hm. cbn. repeat split; try assumption.
  apply Forall2_app; [exact Ht | constructor; [exact Hm | constructor]].
Qed.

(** The two appends of one text, in either order. *)
Lemma keeps_append_b_a {A} (ma mb : Message) (rest : M A) :
  twin ma mb -> keeps rest ->
  keeps (append_b mb ;; append_a ma ;; rest).
Proof.
  intros Hm Hrest st Hs.
  unfold append_b, append_a, bind, get, set_messages_a, set_messages_b.
  cbn [fst snd messages_a messages_b].
  apply Hrest. unfold hist in *. cbn [messages_a messages_b].
  now apply seeded_snoc.
Qed.

Lemma keeps_append_a_b {A} (ma mb : Message) (rest : M A) :
  twin ma mb -> keeps rest ->
  keeps (append_a ma ;; append_b mb ;; rest).
Proof.
  intros Hm Hrest st Hs.
  unfold append_b, append_a, bind, get, set_messages_a, set_messages_b.
  cbn [fst snd messages_a messages_b].
  apply Hrest. unfold hist in *. cbn [messages_a messages_b].
  now apply seeded_snoc.
Qed.

Lemma still_log_write (env : Env) (label text : str) :
  frame hist (log_write env label text).
Proof. unfold log_write. frame_steps. Qed.

Lemma still_publish (label : str) (r : Response) :
  frame hist (publish_endpoint label r).
Proof. unfold publish_endpoint. frame_steps. Qed.

Lemma still_call (env : Env) (who : Agent) (url : str) :
  frame hist (_call_ollama_with_timeout env who url).
Proof.
  unfold _call_ollama_with_timeout. frame_steps.
  destruct (outcome _); frame_steps.
Qed.

Lemma still_sleep (d : Q) : frame hist (sleep d).
Proof. unfold sleep. frame_steps. Qed.

Lemma still_open_log (env : Env) (cfg : Config) : frame hist (open_log env cfg).
Proof. unfold open_log. frame_steps. Qed.

Lemma still_handler (env : Env) (e : Exn) : frame hist (handler env e).
Proof. unfold handler. frame_steps. Qed.

Lemma still_finally : frame hist finally.
Proof. unfold finally. frame_steps. Qed.

#[local] Hint Resolve still_log_write still_publish still_call still_sleep
  still_open_log : frame_db.

Lemma keeps_drain_items (items : list Item) : keeps (drain_items items).
Proof.
  induction items as [|[um|] rest IH]; cbn [drain_items].
  - apply keeps_still, frame_ret.
  - destruct (negb (is_empty (strip um))); [|exact IH].
    apply keeps_append_b_a.
    + split; [reflexivity | left; split; reflexivity].
    + apply keeps_bind; [apply keeps_still; frame_steps | intros _; exact IH].
  - exact IH.
Qed.

Lemma keeps_drain (env : Env) : keeps (drain env).
Proof.
  unfold drain. destruct (has_in_queue env); [|apply keeps_still, frame_ret].
  apply keeps_bind; [apply keeps_still; frame_steps|].
  intros k. apply keeps_drain_items.
Qed.

Lemma keeps_agent_turn (env : Env) (cfg : Config) (who : Agent) (url : str) :
  keeps (agent_turn env cfg who url).
Proof.
  unfold agent_turn. apply keeps_bind; [apply keeps_still, still_call|].
  intros resp. destruct who.
  - apply keeps_bind; [apply keeps_still; frame_steps|]. intros _.
    apply keeps_bind; [apply keeps_still, still_log_write|]. intros _.
    apply keeps_append_a_b.
    + split; [reflexivity | right; left; split; reflexivity].
    + apply keeps_still, still_publish.
  - apply keeps_bind; [apply keeps_still; frame_steps|]. intros _.
    apply keeps_bind; [apply keeps_still, still_log_write|]. intros _.
    apply keeps_append_b_a.
    + split; [reflexivity | right; right; split; reflexivity].
    + apply keeps_still, still_publish.
Qed.

Lemma keeps_round (env : Env) (cfg : Config) (turns : Z) (delay : Q)
  (url_a url_b : str) (i : nat) :
  keeps (round env cfg turns delay url_a url_b i).
Proof.
  unfold round, inter_turn_delay.
  apply keeps_bind; [apply keeps_still, frame_is_set|].
  intros s1. destruct s1; [apply keeps_still, frame_ret|].
  apply keeps_bind; [apply keeps_still; frame_steps|]. intros _.
  apply keeps_bind; [apply keeps_drain|]. intros _.
  apply keeps_bind; [apply keeps_agent_turn|]. intros _.
  apply keeps_bind; [apply keeps_still, frame_is_set|].
  intros s2. destruct s2; [apply keeps_still, frame_ret|].
  apply keeps_bind; [apply keeps_agent_turn|]. intros _.
  apply keeps_still. frame_steps.
Qed.

Lemma keeps_for_range (body : nat -> M LoopCtl) (n : nat) :
  (forall i, keeps (body i)) -> forall i, keeps (for_range n i body).
Proof. apply triple_for_range. Qed.

(** The prologue seeds the histories, or fails before it touches them. *)
Lemma prologue_seeds (env : Env) (cfg : Config) :
  triple hist (eq ([], [])) (prologue env cfg) seeded mirrored.
Proof.
  unfold prologue.
  apply (triple_bind hist _ (eq ([], []))).
  { apply (triple_post hist (eq ([], [])) (eq ([], [])) (eq ([], []))); auto.
    - intros h <-. now left.
    - apply triple_still, frame_require. }
  intros t.
  apply (triple_bind hist _ (eq ([], []))).
  { apply (triple_post hist (eq ([], [])) (eq ([], [])) (eq ([], []))); auto.
    - intros h <-. now left.
    - apply triple_still. frame_steps. }
  intros _ st _.
  unfold bind at 1 2. unfold set_messages_a at 1, set_messages_b at 1.
  cbv zeta.
  match goal with
  | |- match ?rest ?st0 with _ => _ end =>
      assert (Hrest : keeps rest); [|
        assert (Hs : seeded (hist st0)) by (cbn; repeat split; constructor);
        specialize (Hrest st0 Hs);
        destruct (rest st0) as [[a|e] st1]; [exact Hrest | now right] ]
  end.
  apply keeps_bind; [apply keeps_still; frame_steps|]. intros _.
  apply keeps_append_b_a.
  { split; [reflexivity | left; split; reflexivity]. }
  apply keeps_still. frame_steps.
Qed.

(** X7. However a run ends (completed, cancelled or failed, with or without
    injected messages), its two histories mirror each other: both are
    empty, or each starts with its own system prompt and the entries after
    it carry the same texts in the same order, an agent's own reply being
    an assistant turn in its history and a user turn in the other's. *)
Theorem histories_stay_mirrored (env : Env) (cfg : Config) :
  mirrored (hist (_run_conversation env cfg))
  /\ List.length (messages_a (_run_conversation env cfg))
     = List.length (messages_b (_run_conversation env cfg))
  /\ map content (tl (messages_a (_run_conversation env cfg)))
     = map content (tl (messages_b (_run_conversation env cfg))).
Proof.
  assert (H : mirrored (hist (_run_conversation env cfg))).
  { unfold _run_conversation.
    assert (Hbody : triple hist (eq ([], [])) (body env cfg) mirrored mirrored).
    { unfold body. apply (triple_bind hist _ seeded); [apply prologue_seeds|].
      intros s.
      apply (triple_post hist seeded seeded seeded); try (intros h Hh; now right).
      apply keeps_for_range. intros i. apply keeps_round. }
    specialize (Hbody initial eq_refl).
    destruct (body env cfg initial) as [[u|e] st1].
    - now rewrite still_finally.
    - now rewrite still_finally, still_handler. }
  split; [exact H|].
  unfold hist in H. destruct H as [H | H].
  - injection H as -> ->. split; reflexivity.
  - unfold seeded in H.
    destruct (messages_a _) as [|sa ta], (messages_b _) as [|sb tb];
      try contradiction.
    destruct H as (_ & _ & H). cbn [tl List.length].
    induction H as [|ma mb ta tb [Hm _] _ [IH1 IH2]]; [split; reflexivity|].
    cbn. injection IH1 as IH1. split; congruence.
Qed.

End MirrorFacts.

(** ** TurnScheduler: who is called, and in which order *)

Section CallerFacts.

Import Run Scheduler.
Local Open Scope run_scope.

(** The agents a trace called, in order. *)
Fixpoint callers (tr : list Effect) : list Agent :=
  match tr with
  | [] => []
  | ECall who _ _ :: r => who :: callers r
  | _ :: r => callers r
  end.

Definition called (st : State) : list Agent := callers (trace st).

Lemma callers_app (l m : list Effect) : callers (l ++ m) = callers l ++ callers m.
Proof.
  induction l as [|e l IH]; [reflexivity|].
  destruct e; simpl; rewrite IH; reflexivity.
Qed.

Lemma count_callers (tr : list Effect) :
  count is_call tr = List.length (callers tr).
Proof.
  unfold count. induction tr as [|e tr IH]; [reflexivity|].
  destruct e; simpl; rewrite ?IH; reflexivity.
Qed.

Lemma mute_effect (e : Effect) : is_call e = false -> frame called (effect e).
Proof.
  intros H st. unfold called, effect. cbn [snd trace].
  rewrite callers_app. destruct e; try discriminate; cbn; apply app_nil_r.
Qed.

Lemma mute_put (k : Kind) (text : str) : frame called (put k text).
Proof. now apply mute_effect. Qed.

#[local] Hint Resolve mute_effect mute_put : frame_db.

Lemma mute_drain_items (items : list Item) : frame called (drain_items items).
Proof.
  induction items as [|[um|] rest IH]; cbn [drain_items]; frame_steps.
Qed.

#[local] Hint Resolve mute_drain_items : frame_db.

Lemma mute_drain (env : Env) : frame called (drain env).
Proof. unfold drain. frame_steps. Qed.

Lemma mute_log_write (env : Env) (label text : str) :
  frame called (log_write env label text).
Proof. unfold log_write. frame_steps. Qed.

Lemma mute_publish (label : str) (r : Response) :
  frame called (publish_endpoint label r).
Proof. unfold publish_endpoint. frame_steps. Qed.

Lemma mute_open_log (env : Env) (cfg : Config) : frame called (open_log env cfg).
Proof. unfold open_log. frame_steps. Qed.

Lemma mute_sleep (d : Q) : frame called (sleep d).
Proof. unfold sleep. frame_steps. Qed.

#[local] Hint Resolve mute_drain mute_log_write mute_publish mute_open_log
  mute_sleep : frame_db.

Lemma mute_prologue (env : Env) (cfg : Config) : frame called (prologue env cfg).
Proof. unfold prologue. frame_steps. Qed.

Lemma mute_handler (env : Env) (e : Exn) : frame called (handler env e).
Proof. unfold handler. frame_steps. Qed.

Lemma mute_finally : frame called finally.
Proof. unfold finally. frame_steps. Qed.

Lemma mute_delay (env : Env) (d : Q) : frame called (inter_turn_delay env d).
Proof. unfold inter_turn_delay. frame_steps. Qed.

Definition prefix (l full : list Agent) : Prop := exists rest, full = l ++ rest.

(** [c] calls a prefix of [full], and the whole of [full] when it returns a
    value that satisfies [ok]. *)
Definition trail {A} (ok : A -> Prop) (full : list Agent) (c : M A) : Prop :=
  forall st, exists l,
    called (snd (c st)) = called st ++ l
    /\ prefix l full
    /\ (forall a, fst (c st) = Val a -> ok a -> l = full).

Definition always {A} (a : A) : Prop := True.
Definition never {A} (a : A) : Prop := False.

Lemma trail_mute {A} (ok : A -> Prop) (c : M A) :
  frame called c -> trail ok [] c.
Proof.
  intros H st. exists []. rewrite (H st), app_nil_r.
  repeat split. now exists [].
Qed.

Lemma trail_stop {A} (ok : A -> Prop) (full : list Agent) (a : A) :
  ~ ok a -> trail ok full (ret a).
Proof.
  intros H st. exists []. cbn. rewrite app_nil_r.
  split; [reflexivity|]. split; [now exists full|].
  intros a' E Ha'. injection E as <-. contradiction.
Qed.

Lemma trail_bind {A B} (ok : B -> Prop) (f1 f2 : list Agent)
  (c : M A) (k : A -> M B) :
  trail always f1 c -> (forall a, trail ok f2 (k a)) ->
  trail ok (f1 ++ f2) (bind c k).
Proof.
  intros Hc Hk st. unfold bind.
  destruct (Hc st) as (l1 & E1 & (r1 & P1) & F1).
  destruct (c st) as [[a|e] st1]; cbn [fst snd] in *.
  - destruct (Hk a st1) as (l2 & E2 & (r2 & P2) & F2).
    rewrite (F1 a eq_refl I) in E1.
    exists (f1 ++ l2). rewrite E2, E1, app_assoc.
    split; [reflexivity|]. split; [exists r2; now rewrite P2, app_assoc|].
    intros b Eb Hb. now rewrite (F2 b Eb Hb).
  - exists l1. split; [exact E1|].
    split; [exists (r1 ++ f2); now rewrite P1, app_assoc | discriminate].
Qed.

Lemma trail_after {A B} (ok : B -> Prop) (full : list Agent)
  (c : M A) (k : A -> M B) :
  frame called c -> (forall a, trail ok full (k a)) -> trail ok full (bind c k).
Proof.
  intros Hc Hk. apply (trail_bind ok [] full); [now apply trail_mute | exact Hk].
Qed.

Lemma trail_call (env : Env) (who : Agent) (url : str) :
  trail always [who] (_call_ollama_with_timeout env who url).
Proof.
  intros st. exists [who].
  unfold called. rewrite call_issues_one_request, callers_app.
  repeat split. now exists [].
Qed.

Lemma trail_agent_turn (env : Env) (cfg : Config) (who : Agent) (url : str) :
  trail always [who] (agent_turn env cfg who url).
Proof.
  unfold agent_turn.
  apply (trail_bind always [who] []); [apply trail_call|].
  intros resp. apply trail_mute. destruct who; frame_steps.
Qed.

Lemma trail_round (env : Env) (cfg : Config) (turns : Z) (delay : Q)
  (url_a url_b : str) (i : nat) :
  trail (eq Next) [AgentB; AgentA] (round env cfg turns delay url_a url_b i).
Proof.
  unfold round.
  apply trail_after; [apply frame_is_set|].
  intros s1. destruct s1; [apply trail_stop; discriminate|].
  apply trail_after; [apply mute_put|]. intros _.
  apply trail_after; [apply mute_drain|]. intros _.
  apply (trail_bind (eq Next) [AgentB] [AgentA]); [apply trail_agent_turn|].
  intros _.
  apply trail_after; [apply frame_is_set|].
  intros s2. destruct s2; [apply trail_stop; discriminate|].
  apply (trail_bind (eq Next) [AgentA] []); [apply trail_agent_turn|].
  intros _. apply trail_mute, mute_delay.
Qed.

Lemma trail_for_range (body : nat -> M LoopCtl) (full : list Agent) (n : nat) :
  (forall i, trail (eq Next) full (body i)) ->
  forall i, trail never (concat (repeat full n)) (for_range n i body).
Proof.
  intros Hb. induction n as [|n IH]; intros i; cbn [for_range repeat concat].
  - apply trail_mute, frame_ret.
  - intros st. unfold bind.
    destruct (Hb i st) as (l1 & E1 & (r1 & P1) & F1).
    destruct (body i st) as [[[|]|e] st1]; cbn [fst snd] in *.
    + destruct (IH (S i) st1) as (l2 & E2 & (r2 & P2) & _).
      rewrite (F1 Next eq_refl eq_refl) in E1.
      exists (full ++ l2). rewrite E2, E1, app_assoc.
      split; [reflexivity|].
      split; [exists r2; now rewrite P2, app_assoc | contradiction].
    + exists l1. split; [exact E1|].
      split; [|contradiction].
      exists (r1 ++ concat (repeat full n)). now rewrite P1, app_assoc.
    + exists l1. split; [exact E1|].
      split; [|contradiction].
      exists (r1 ++ concat (repeat full n)). now rewrite P1, app_assoc.
Qed.

(** The rounds the run is configured for. *)
Definition rounds (cfg : Config) : nat :=
  match turns cfg with
  | Some N => Z.to_nat N
  | None => O
  end.

(** X8. The agents are called in turn, B first: whatever happens, the calls of
    a run are an initial part of B, A, B, A, ... with one pair per
    configured round, so a run makes at most two calls per round and never
    calls the same agent twice in a row. *)
Theorem calls_alternate (env : Env) (cfg : Config) :
  (exists rest,
     concat (repeat [AgentB; AgentA] (rounds cfg))
     = callers (trace (_run_conversation env cfg)) ++ rest)
  /\ (count is_call (trace (_run_conversation env cfg)) <= 2 * rounds cfg)%nat.
Proof.
  assert (H : prefix (callers (trace (_run_conversation env cfg)))
                (concat (repeat [AgentB; AgentA] (rounds cfg)))).
  { unfold _run_conversation.
    assert (Hbody : prefix (called (snd (body env cfg initial)))
                      (concat (repeat [AgentB; AgentA] (rounds cfg)))).
    { unfold body, bind.
      pose proof (mute_prologue env cfg initial) as Hp.
      destruct (prologue env cfg initial) as [[s|e] st1] eqn:Ep; cbn [snd] in *.
      - destruct (prologue_settings env cfg s initial st1 Ep) as [E1 _].
        unfold rounds. rewrite E1.
        destruct (trail_for_range
                    (round env cfg (s_turns s) (s_delay s) (s_url_a s) (s_url_b s))
                    [AgentB; AgentA] (Z.to_nat (s_turns s))
                    (trail_round env cfg (s_turns s) (s_delay s)
                       (s_url_a s) (s_url_b s)) O st1) as (l & E & P & _).
        rewrite E, Hp. exact P.
      - rewrite Hp. now exists (concat (repeat [AgentB; AgentA] (rounds cfg))). }
    destruct (body env cfg initial) as [[u|e] st1]; cbn [snd] in Hbody.
    - fold (called (snd (finally st1))). now rewrite mute_finally.
    - fold (called (snd (finally (snd (handler env e st1))))).
      now rewrite mute_finally, mute_handler. }
  split; [exact H|].
  destruct H as [rest H]. rewrite count_callers.
  apply (f_equal (@List.length _)) in H.
  rewrite length_app, concat_repeat_length in H. simpl in H. lia.
Qed.

End CallerFacts.

(** ** TurnScheduler: runs that cannot start *)

Section IdleFacts.

Import Run Scheduler.
Local Open Scope run_scope.

(** The first key of [cfg] that the run reads with [cfg[key]] and does not
    find, in the order it reads them. *)
Definition missing_key (cfg : Config) : option string :=
  match topic cfg with None => Some "topic"%string | Some _ =>
  match turns cfg with None => Some "turns"%string | Some _ =>
  match delay cfg with None => Some "delay"%string | Some _ =>
  match a_url cfg with None => Some "a_url"%string | Some _ =>
  match b_url cfg with None => Some "b_url"%string | Some _ =>
  match a_model cfg with None => Some "a_model"%string | Some _ =>
  match b_model cfg with None => Some "b_model"%string | Some _ =>
  None
  end end end end end end end.

Lemma prologue_complete (env : Env) (cfg : Config) (s : Settings)
  (st st1 : State) :
  prologue env cfg st = (Val s, st1) -> missing_key cfg = None.
Proof.
  intros H. unfold prologue in H. unfold missing_key.
  destruct (topic cfg) as [t|]; [|discriminate H].
  destruct (turns cfg) as [n|], (delay cfg) as [d|], (a_url cfg) as [ua|],
    (b_url cfg) as [ub|], (a_model cfg) as [ma|], (b_model cfg) as [mb|];
    try discriminate H.
  reflexivity.
Qed.

(** Nothing to do: the loop ends where the prologue ended. *)
Lemma body_idle (env : Env) (cfg : Config) :
  missing_key cfg <> None
  \/ (exists t, stop_at env = Some t /\ t <= 0)
  \/ (exists N, turns cfg = Some N /\ (N <= 0)%Z) ->
  snd (body env cfg initial) = snd (prologue env cfg initial).
Proof.
  intros H. unfold body, bind.
  pose proof (instant_prologue env cfg initial) as Hnow.
  destruct (prologue env cfg initial) as [[s|e] st1] eqn:Ep; [|reflexivity].
  cbn [snd] in *.
  destruct (prologue_settings env cfg s initial st1 Ep) as [E1 _].
  destruct H as [H | [(t & Hs & Ht) | (N & HN & Hle)]].
  - now rewrite (prologue_complete env cfg s initial st1 Ep) in H.
  - destruct (Z.to_nat (s_turns s)) as [|n]; [reflexivity|].
    cbn [for_range]. unfold round, bind, is_set at 1. rewrite Hs, Hnow.
    simpl (now initial).
    apply Qle_bool_iff in Ht. rewrite Ht. reflexivity.
  - rewrite HN in E1. injection E1 as <-.
    replace (Z.to_nat N) with O by lia. reflexivity.
Qed.

(** X9. A run contacts no agent and spends no time waiting when it cannot
    start: when a key it needs is missing from the configuration, when the
    stop flag is already set, or when it is asked for no round. *)
Theorem run_contacts_nobody (env : Env) (cfg : Config) :
  missing_key cfg <> None
  \/ (exists t, stop_at env = Some t /\ t <= 0)
  \/ (exists N, turns cfg = Some N /\ (N <= 0)%Z) ->
  callers (trace (_run_conversation env cfg)) = []
  /\ count is_call (trace (_run_conversation env cfg)) = 0%nat
  /\ now (_run_conversation env cfg) = 0.
Proof.
  intros H. pose proof (body_idle env cfg H) as Hb.
  assert (Hc : called (_run_conversation env cfg) = []
               /\ now (_run_conversation env cfg) = 0).
  { unfold _run_conversation.
    destruct (body env cfg initial) as [[u|e] st1]; cbn [snd] in Hb; subst st1.
    - rewrite mute_finally, instant_finally, mute_prologue, instant_prologue.
      split; reflexivity.
    - rewrite mute_finally, instant_finally, mute_handler, instant_handler,
        mute_prologue, instant_prologue.
      split; reflexivity. }
  destruct Hc as [Hc Hn]. unfold called in Hc.
  rewrite count_callers, Hc. repeat split. exact Hn.
Qed.

(** X10. A configuration that lacks a key the run reads makes the run end with
    one error status that names the key, followed by the done event. When
    the topic is there, the topic status and the seed prompt come first;
    no agent is called and the log file is never opened. *)
Theorem run_with_missing_key (env : Env) (cfg : Config) (key : string) :
  missing_key cfg = Some key ->
  events (trace (_run_conversation env cfg))
  = match topic cfg with
    | Some t => [ (KStatus, py "Using topic: " ++ t);
                  (KB, py "(initial) " ++ initial_prompt cfg t) ]
    | None => []
    end
    ++ [ (KStatus,
          py "Error: " ++ (py "'" ++ py key ++ py "'")
          ++ (if errlog_ok env then py " (see thread_error.log)" else []));
         (KDone, []) ]
  /\ count is_open (trace (_run_conversation env cfg)) = 0%nat
  /\ count is_call (trace (_run_conversation env cfg)) = 0%nat.
Proof.
  intros H. unfold missing_key in H.
  unfold _run_conversation, body, prologue, handler.
  destruct (topic cfg) as [t|];
    [|injection H as <-; destruct (errlog_ok env);
      repeat split; cbn; now rewrite ?app_nil_r].
  destruct (turns cfg) as [n|];
    [|injection H as <-; destruct (errlog_ok env);
      repeat split; cbn; now rewrite ?app_nil_r].
  destruct (delay cfg) as [d|];
    [|injection H as <-; destruct (errlog_ok env);
      repeat split; cbn; now rewrite ?app_nil_r].
  destruct (a_url cfg) as [ua|];
    [|injection H as <-; destruct (errlog_ok env);
      repeat split; cbn; now rewrite ?app_nil_r].
  destruct (b_url cfg) as [ub|];
    [|injection H as <-; destruct (errlog_ok env);
      repeat split; cbn; now rewrite ?app_nil_r].
  destruct (a_model cfg) as [ma|];
    [|injection H as <-; destruct (errlog_ok env);
      repeat split; cbn; now rewrite ?app_nil_r].
  destruct (b_model cfg) as [mb|];
    [|injection H as <-; destruct (errlog_ok env);
      repeat split; cbn; now rewrite ?app_nil_r].
  discriminate H.
Qed.

End IdleFacts.

Lemma run_with_missing_key_witness :
  missing_key (tea_cfg None 1) = Some "turns"%string
  /\ Run.count Run.is_call
       (Run.trace (Scheduler._run_conversation (quiet_env None ok_sure)
                     (tea_cfg None 1)))
     = 0%nat.
Proof.
  split; [reflexivity|].
  apply (run_with_missing_key (quiet_env None ok_sure) (tea_cfg None 1) "turns").
  reflexivity.
Defined.

Lemma run_contacts_nobody_witness :
  (exists t, Run.stop_at (quiet_env (Some 0) ok_sure) = Some t /\ t <= 0)
  /\ Run.count Run.is_call
       (Run.trace (Scheduler._run_conversation (quiet_env (Some 0) ok_sure)
                     (tea_cfg (Some 2%Z) 1)))
     = 0%nat.
Proof.
  assert (H : exists t, Run.stop_at (quiet_env (Some 0) ok_sure) = Some t /\ t <= 0)
    by (exists 0; split; [reflexivity | lra]).
  split; [exact H|].
  apply (run_contacts_nobody (quiet_env (Some 0) ok_sure) (tea_cfg (Some 2%Z) 1)).
  right. left. exact H.
Defined.

(** ** Steps that leave a variable alone and perform harmless effects *)

Section PassiveFacts.

Import Run Scheduler.
Local Open Scope run_scope.

Context {Y : Type} (g : State -> Y) (ok : Effect -> Prop).

Definition watch (st : State) : Y * list Effect := (g st, trace st).

(** [c] leaves [g] of the state alone and performs [ok] effects only. *)
Definition passive {A} (c : M A) : Prop :=
  forall st,
    g (snd (c st)) = g st
    /\ exists new, trace (snd (c st)) = trace st ++ new /\ Forall ok new.

Lemma passive_silent {A} (c : M A) : frame watch c -> passive c.
Proof.
  intros H st. specialize (H st). unfold watch in H. injection H as H1 H2.
  split; [exact H1|]. exists []. now rewrite app_nil_r.
Qed.

Lemma passive_effect (e : Effect) :
  ok e -> (forall st, g (snd (effect e st)) = g st) -> passive (effect e).
Proof.
  intros H Hg st. split; [apply Hg|]. exists [e]. split; [reflexivity|].
  now constructor.
Qed.

Lemma passive_bind {A B} (c : M A) (k : A -> M B) :
  passive c -> (forall a, passive (k a)) -> passive (bind c k).
Proof.
  intros Hc Hk st. unfold bind.
  destruct (Hc st) as (L1 & n1 & T1 & F1).
  destruct (c st) as [[a|e] st1]; cbn [snd] in *.
  - destruct (Hk a st1) as (L2 & n2 & T2 & F2).
    split; [congruence|]. exists (n1 ++ n2).
    rewrite T2, T1, app_assoc. split; [reflexivity | now apply Forall_app].
  - split; [exact L1|]. now exists n1.
Qed.

Lemma passive_if {A} (b : bool) (c1 c2 : M A) :
  passive c1 -> passive c2 -> passive (if b then c1 else c2).
Proof. now destruct b. Qed.

(** A property of the watched pair that harmless effects do not break. *)
Definition stable (P : Y * list Effect -> Prop) : Prop :=
  forall y tr new, Forall ok new -> P (y, tr) -> P (y, tr ++ new).

Lemma passive_stable {A} (P : Y * list Effect -> Prop) (c : M A) :
  stable P -> passive c -> triple watch P c P P.
Proof.
  intros HP Hc st H. destruct (Hc st) as (L & new & T & F).
  unfold watch in *.
  destruct (c st) as [[a|e] st1]; cbn [snd] in *; rewrite L, T; now apply HP.
Qed.

End PassiveFacts.

Ltac passive_steps :=
  repeat first
    [ solve [auto with frame_db]
    | apply passive_effect; [first [exact I | reflexivity] | reflexivity]
    | apply passive_if
    | apply passive_bind; [|intros ?; cbv zeta]
    | apply passive_silent; solve [frame_steps] ].

(** ** TurnScheduler: the log file is used as a file must be *)

Section LogFacts.

Import Run Scheduler.
Local Open Scope run_scope.

Inductive LogState := Unopened | Open | Closed.

(** What an effect does to the log file; [None] when the file is not in a
    state that allows it. *)
Definition log_step (s : LogState) (e : Effect) : option LogState :=
  match e with
  | ELogOpen => match s with Unopened => Some Open | _ => None end
  | ELogWrite _ => match s with Open => Some Open | _ => None end
  | ELogClose => match s with Open => Some Closed | _ => None end
  | _ => Some s
  end.

Fixpoint log_run (s : LogState) (tr : list Effect) : option LogState :=
  match tr with
  | [] => Some s
  | e :: r =>
      match log_step s e with
      | Some s' => log_run s' r
      | None => None
      end
  end.

(** An effect that does not touch the log file. *)
Definition neutral (e : Effect) : Prop :=
  match e with
  | ELogOpen | ELogWrite _ | ELogClose => False
  | _ => True
  end.

Lemma log_run_app (s : LogState) (l m : list Effect) :
  log_run s (l ++ m)
  = match log_run s l with
    | Some s' => log_run s' m
    | None => None
    end.
Proof.
  revert s. induction l as [|e l IH]; intros s; [reflexivity|].
  cbn [app log_run]. destruct (log_step s e); [apply IH | reflexivity].
Qed.

Lemma log_run_neutral (s : LogState) (new : list Effect) :
  Forall neutral new -> log_run s new = Some s.
Proof.
  induction 1 as [|e l He _ IH]; [reflexivity|].
  cbn [log_run]. destruct e; try contradiction; exact IH.
Qed.

(** The file has not been touched. *)
Definition untouched (v : bool * list Effect) : Prop :=
  fst v = false /\ log_run Unopened (snd v) = Some Unopened.

(** [log_file] holds a file exactly when the file is open. *)
Definition live (v : bool * list Effect) : Prop :=
  log_run Unopened (snd v) = Some (if fst v then Open else Unopened).

Lemma untouched_stable : stable neutral untouched.
Proof.
  intros b tr new F [H1 H2]. split; [exact H1|]. cbn [snd] in *.
  now rewrite log_run_app, H2, log_run_neutral.
Qed.

Lemma live_stable : stable neutral live.
Proof.
  intros b tr new F H. unfold live in *. cbn [fst snd] in *.
  now rewrite log_run_app, H, log_run_neutral.
Qed.

(** [c] leaves [log_file] alone and performs neutral effects only. *)
Definition inert {A} (c : M A) : Prop := passive log_file neutral c.

Definition tracks {A} (c : M A) : Prop :=
  triple (watch log_file) live c live live.

Lemma tracks_inert {A} (c : M A) : inert c -> tracks c.
Proof. apply (passive_stable log_file neutral). exact live_stable. Qed.

Lemma tracks_bind {A B} (c : M A) (k : A -> M B) :
  tracks c -> (forall a, tracks (k a)) -> tracks (bind c k).
Proof. apply triple_bind. Qed.

Ltac inert_steps := unfold inert; passive_steps.

Lemma inert_call (env : Env) (who : Agent) (url : str) :
  inert (_call_ollama_with_timeout env who url).
Proof.
  unfold _call_ollama_with_timeout. inert_steps.
  destruct (outcome _); passive_steps.
Qed.

Lemma inert_drain_items (items : list Item) : inert (drain_items items).
Proof.
  induction items as [|[um|] rest IH]; cbn [drain_items]; inert_steps;
    exact IH.
Qed.

Lemma inert_drain (env : Env) : inert (drain env).
Proof.
  unfold drain. apply passive_if; [|inert_steps].
  apply passive_bind; [inert_steps|]. intros k. apply inert_drain_items.
Qed.

Lemma inert_handler (env : Env) (e : Exn) : inert (handler env e).
Proof. unfold handler. inert_steps. Qed.

(** A line is written only to a file that is open. *)
Lemma tracks_log_write (env : Env) (label text : str) :
  tracks (log_write env label text).
Proof.
  apply triple_run. intros st H. unfold log_write, bind, get, watch, live in *.
  cbn [fst snd] in *. destruct (log_file st) eqn:E.
  - eexists _, _. split; [reflexivity|].
    cbn [watch fst snd log_file trace]. rewrite E, log_run_app, H. reflexivity.
  - eexists _, _. split; [reflexivity|].
    cbn [watch fst snd]. now rewrite E.
Qed.

Lemma tracks_agent_turn (env : Env) (cfg : Config) (who : Agent) (url : str) :
  tracks (agent_turn env cfg who url).
Proof.
  unfold agent_turn.
  apply tracks_bind; [apply tracks_inert, inert_call|]. intros resp.
  destruct who;
    (apply tracks_bind; [apply tracks_inert; inert_steps|]; intros _;
     apply tracks_bind; [apply tracks_log_write|]; intros _;
     apply tracks_inert; unfold publish_endpoint; inert_steps).
Qed.

Lemma tracks_round (env : Env) (cfg : Config) (turns : Z) (delay : Q)
  (url_a url_b : str) (i : nat) :
  tracks (round env cfg turns delay url_a url_b i).
Proof.
  unfold round, inter_turn_delay.
  apply tracks_bind; [apply tracks_inert; inert_steps|].
  intros s1. destruct s1; [apply tracks_inert; inert_steps|].
  apply tracks_bind; [apply tracks_inert; inert_steps|]. intros _.
  apply tracks_bind; [apply tracks_inert, inert_drain|]. intros _.
  apply tracks_bind; [apply tracks_agent_turn|]. intros _.
  apply tracks_bind; [apply tracks_inert; inert_steps|].
  intros s2. destruct s2; [apply tracks_inert; inert_steps|].
  apply tracks_bind; [apply tracks_agent_turn|]. intros _.
  apply tracks_inert. unfold sleep. inert_steps.
Qed.

(** The file is opened from its untouched state, or not at all. *)
Lemma open_log_live (env : Env) (cfg : Config) :
  triple (watch log_file) untouched (open_log env cfg) live live.
Proof.
  apply triple_run. intros st [H1 H2]. unfold open_log, watch, live in *.
  cbn [fst snd] in *.
  destruct (log cfg && truthy (log_path cfg)), (log_open_ok env);
    eexists _, _; (split; [reflexivity|]);
    cbn [watch fst snd log_file trace effect set_log_file bind];
    rewrite ?H1, ?log_run_app, H2; reflexivity.
Qed.

Lemma prologue_live (env : Env) (cfg : Config) :
  triple (watch log_file) untouched (prologue env cfg) live live.
Proof.
  assert (Hq : forall h, untouched h -> live h).
  { intros [b tr] [H1 H2]. unfold live. cbn [fst snd] in *. now rewrite H1. }
  assert (Hstep : forall A (c : M A), inert c ->
            triple (watch log_file) untouched c untouched live).
  { intros A c Hc.
    apply (triple_post _ untouched untouched untouched); auto.
    apply (passive_stable log_file neutral); [exact untouched_stable | exact Hc]. }
  unfold prologue.
  do 13 (apply (triple_bind _ _ untouched); [apply Hstep; inert_steps|];
         intros ?).
  apply (triple_bind _ _ live); [apply open_log_live|]. intros _.
  apply tracks_inert. inert_steps.
Qed.

(** The [finally] block closes the file when it is open. *)
Lemma finally_settles (st : State) :
  live (watch log_file st) ->
  log_run Unopened (trace (snd (finally st))) = Some Unopened
  \/ log_run Unopened (trace (snd (finally st))) = Some Closed.
Proof.
  unfold live, finally, bind, get, put, effect, watch.
  cbn [fst snd]. intros H. destruct (log_file st);
    cbn [fst snd trace ret]; rewrite !log_run_app, H; cbn; auto.
Qed.

(** X11. The run uses its log file as a file must be used, however it ends: the
    file is opened at most once, a line is written only while the file is
    open, the file is closed only when it is open, and at the end of the
    run it is not open. *)
Theorem log_file_protocol (env : Env) (cfg : Config) :
  log_run Unopened (trace (_run_conversation env cfg)) = Some Unopened
  \/ log_run Unopened (trace (_run_conversation env cfg)) = Some Closed.
Proof.
  assert (Hbody : triple (watch log_file) untouched (body env cfg) live live).
  { unfold body. apply (triple_bind _ _ live); [apply prologue_live|].
    intros s. apply triple_for_range. intros i. apply tracks_round. }
  unfold _run_conversation.
  assert (H0 : untouched (watch log_file initial)) by (split; reflexivity).
  specialize (Hbody initial H0).
  destruct (body env cfg initial) as [[u|e] st1].
  - exact (finally_settles st1 Hbody).
  - apply finally_settles.
    pose proof (tracks_inert _ (inert_handler env e) st1 Hbody) as Hh.
    destruct (handler env e st1) as [[u|e'] st2]; exact Hh.
Qed.

End LogFacts.

(** ** TurnScheduler: what is shown is what is recorded *)

Section DisplayFacts.

Import Run Scheduler.
Local Open Scope run_scope.

(** The events the window shows as turns of the conversation. *)
Definition spoken (ev : Event) : bool :=
  match fst ev with
  | KA | KB | KUser => true
  | _ => false
  end.

(** The texts of the turns shown, in order. *)
Definition shown (tr : list Effect) : list str :=
  map snd (filter spoken (events tr)).

(** The texts a history records after its system prompt, the seed prompt
    as it is announced. *)
Definition recorded (h : list Message) : list str :=
  match h with
  | _ :: seed :: rest => (py "(initial) " ++ content seed) :: map content rest
  | _ => []
  end.




Definition View := (list Message * list Effect)%type.


(** As [synced], with [text] shown and not yet recorded. *)
Definition pending (text : str) (v : View) : Prop :=
  (2 <= List.length (fst v))%nat
  /\ shown (snd v) = recorded (fst v) ++ [text].


(** Nothing recorded, nothing shown. *)
Definition blank (v : View) : Prop :=
  (List.length (fst v) <= 1)%nat /\ shown (snd v) = [].




















Lemma pending_ret (text : str) (Q : View -> Prop) :
  triple (watch messages_b) (pending text) (ret tt) (pending text) Q.
Proof. apply triple_run. intros st H. now exists tt, st. Qed.










End DisplayFacts.

(** ** The command-line orchestrator: enforcement and the delay loop *)

Section CliFacts.

Import Run TopicGuard.
Local Open Scope run_scope.

Variable word_char : char -> bool.
Variable lower : str -> str.
Variable env : Env.
Variable cfg : CliConfig.

Definition score (text : str) : Q :=
  topic_similarity word_char lower text (topic cfg).

Lemma Qlt_bool_lt (a b : Q) : Qlt_bool a b = true -> a < b.
Proof.
  unfold Qlt_bool. intros H. apply negb_true_iff in H.
  apply Qnot_le_lt. intros L. apply Qle_bool_iff in L. congruence.
Qed.

Lemma enforce_improves (who : Agent) (n : nat) :
  forall (text v : str) (st : State),
  fst (enforce word_char lower env cfg who n text st) = Val v ->
  v = text \/ score text < score v.
Proof.
  induction n as [|n IH]; intros text v st H.
  - cbn in H. injection H as <-. now left.
  - rewrite enforce_step in H.
    destruct (stopped env st); [cbn in H; injection H as <-; now left|].
    cbv zeta in H. fold (score text) in H.
    destruct (Qlt_bool (score text) (1 # 2));
      [|cbn in H; injection H as <-; now left].
    destruct (chat env cfg who _) as [[r2|e] st2]; [|discriminate H].
    fold (score (truncate_text cfg r2)) in H.
    destruct (pop_corrective who st2) as [[u|e] st3]; [|discriminate H].
    destruct (Qlt_bool (score text) (score (truncate_text cfg r2))) eqn:Hb.
    + apply Qlt_bool_lt in Hb.
      destruct (IH _ v st3 H) as [-> | Hlt]; right; [exact Hb|].
      eapply Qlt_trans; eassumption.
    + exact (IH _ v st3 H).
Qed.

(** X13. The enforcement loop never makes a reply worse: the text it returns is
    the text it was given, or a retry that scores strictly higher against
    the topic, so the returned score is never below the original one. *)
Theorem enforce_never_lowers_score
  (who : Agent) (n : nat) (text v : str) (st : State) :
  fst (enforce word_char lower env cfg who n text st) = Val v ->
  score text <= score v /\ (v <> text -> score text < score v).
Proof.
  intros H. destruct (enforce_improves who n text v st H) as [-> | Hlt].
  - split; [apply Qle_refl | congruence].
  - split; [now apply Qlt_le_weak | intros _; exact Hlt].
Qed.

(** *** The delay loop *)

Definition brief (d : Q) : Prop := 0 < d /\ d <= 1 # 20.

Lemma delay_loop_step (fuel : nat) (waited delay : Q) (st : State) :
  delay_loop env (S fuel) waited delay st =
  if Qlt_bool waited delay then
    if stopped env st then (Val tt, st)
    else
      let d := qmin (1 # 20) (delay - waited) in
      if Qle_bool 0 d then
        delay_loop env fuel (waited + (1 # 20)) delay
          (snd (advance d (snd (effect (ESleep d) st))))
      else (Exc (py "sleep length must be non-negative"), st)
  else (Val tt, st).
Proof.
  cbn [delay_loop]. destruct (Qlt_bool waited delay); [|reflexivity].
  unfold bind at 1.
  change (is_set env st) with (@Val bool (stopped env st), st).
  destruct (stopped env st); [reflexivity|].
  cbv zeta. unfold bind at 1, sleep.
  destruct (Qle_bool 0 _); reflexivity.
Qed.

Lemma delay_loop_polls (fuel : nat) :
  forall (waited delay : Q) (st : State),
  exists ds,
    fst (delay_loop env fuel waited delay st) = Val tt
    /\ trace (snd (delay_loop env fuel waited delay st))
       = trace st ++ map ESleep ds
    /\ Forall brief ds
    /\ hist (snd (delay_loop env fuel waited delay st)) = hist st
    /\ (stopped env st = true \/ Qlt_bool waited delay = false -> ds = [])
    /\ (forall t, stop_at env = Some t -> now st < t + (1 # 20) ->
        now (snd (delay_loop env fuel waited delay st)) < t + (1 # 20)).
Proof.
  induction fuel as [|fuel IH]; intros waited delay st.
  - exists []. cbn. rewrite app_nil_r. repeat split; auto.
  - rewrite delay_loop_step. destruct (Qlt_bool waited delay) eqn:Hlt.
    2:{ exists []. cbn. rewrite app_nil_r. repeat split; auto. }
    destruct (stopped env st) eqn:Hs.
    { exists []. cbn. rewrite app_nil_r. repeat split; auto. }
    apply Qlt_bool_lt in Hlt. cbv zeta.
    set (d := qmin (1 # 20) (delay - waited)).
    assert (Hd : brief d).
    { unfold brief. split; [|apply qmin_le_l].
      unfold d, qmin. destruct (Qle_bool (1 # 20) (delay - waited)); lra. }
    assert (Hpos : Qle_bool 0 d = true)
      by (apply Qle_bool_iff; destruct Hd; lra).
    rewrite Hpos.
    set (st2 := snd (advance d (snd (effect (ESleep d) st)))).
    destruct (IH (waited + (1 # 20)) delay st2) as (ds & V & T & F & H & _ & L).
    exists (d :: ds). rewrite V, T, H. unfold st2 at 1 2.
    cbn [trace map snd advance effect hist messages_a messages_b].
    rewrite <- app_assoc.
    repeat split; auto.
    + intros [E | E]; discriminate E.
    + intros t Ht Hn. apply (L t Ht). unfold st2. cbn [now snd advance effect].
      unfold stopped in Hs. rewrite Ht in Hs.
      assert (now st < t).
      { apply Qnot_le_lt. intros Hle. apply Qle_bool_iff in Hle. congruence. }
      destruct Hd. lra.
Qed.

(** X14. The delay at the end of a command-line round never raises and never
    blocks for long: it is a series of sleeps of more than 0 and at most
    0.05 seconds, with the stop flag read before each one. A delay of zero
    or less, or a flag that is already set, means no sleep at all; and the
    delay never runs 0.05 seconds or more past the moment the flag is
    set. *)
Theorem interruptible_delay_polls (delay : Q) (st : State) :
  fst (interruptible_delay env delay st) = Val tt
  /\ (exists ds,
        trace (snd (interruptible_delay env delay st))
        = trace st ++ map ESleep ds
        /\ Forall brief ds
        /\ (delay <= 0 -> ds = [])
        /\ (stopped env st = true -> ds = []))
  /\ (forall t, stop_at env = Some t -> now st < t + (1 # 20) ->
      now (snd (interruptible_delay env delay st)) < t + (1 # 20)).
Proof.
  unfold interruptible_delay.
  destruct (delay_loop_polls (Z.to_nat (Qround.Qceiling (delay * 20))) 0 delay st)
    as (ds & V & T & F & _ & E & L).
  split; [exact V|]. split; [|exact L].
  exists ds. repeat split; auto.
  intros Hd. apply E. right. unfold Qlt_bool.
  apply negb_false_iff, Qle_bool_iff. exact Hd.
Qed.

End CliFacts.

(** ** The command-line orchestrator: histories and calls of a run *)

Section CliRunFacts.

Import Run TopicGuard.
Local Open Scope run_scope.

Variable word_char : char -> bool.
Variable lower : str -> str.
Variable env : Env.
Variable cfg : CliConfig.

Lemma grows_chat (who : Agent) : grows [] [] any (chat env cfg who).
Proof.
  apply grows_still. intros st.
  destruct (chat_run env cfg who st) as (_ & A & B).
  repeat split; try assumption.
  destruct (fst _); exact I.
Qed.

Lemma grows_append_to_a (m : Message) : grows [role m] [] any (append AgentA m).
Proof.
  intros st. rewrite append_run. split; [exact I|].
  exists [m], []. cbn. now rewrite app_nil_r.
Qed.

Lemma grows_append_to_b (m : Message) : grows [] [role m] any (append AgentB m).
Proof.
  intros st. rewrite append_run. split; [exact I|].
  exists [], [m]. cbn. now rewrite app_nil_r.
Qed.

Lemma grows_enforce (who : Agent) (n : nat) (text : str) :
  grows [] [] any (enforce word_char lower env cfg who n text).
Proof.
  intros st.
  destruct (enforce_calls word_char lower env cfg who n text st)
    as (_ & _ & _ & _ & R).
  destruct (enforce word_char lower env cfg who n text st) as [[v|e] st1];
    [|exact I].
  split; [exact I|]. exists [], [].
  pose proof (R v eq_refl AgentA) as Ha. pose proof (R v eq_refl AgentB) as Hb.
  cbn in Ha, Hb. rewrite !app_nil_r. auto.
Qed.

Lemma grows_log (message : str) : grows [] [] any (log env message).
Proof.
  unfold log. eapply grows_after; [apply grows_get|]. intros t _.
  apply grows_effect.
Qed.

Lemma grows_reply_b :
  grows [User] [Assistant] any (agent_reply word_char lower env cfg AgentB).
Proof.
  unfold agent_reply.
  eapply grows_after; [apply grows_chat|]. intros r _.
  eapply grows_after; [apply grows_enforce|]. intros text _.
  eapply grows_after; [apply grows_log|]. intros _ _.
  eapply (grows_bind [] [Assistant] [User] []); [apply grows_append_to_b|].
  intros _ _. apply grows_append_to_a.
Qed.

Lemma grows_reply_a :
  grows [Assistant] [User] any (agent_reply word_char lower env cfg AgentA).
Proof.
  unfold agent_reply.
  eapply grows_after; [apply grows_chat|]. intros r _.
  eapply grows_after; [apply grows_enforce|]. intros text _.
  eapply grows_after; [apply grows_log|]. intros _ _.
  eapply (grows_bind [Assistant] [] [] [User]); [apply grows_append_to_a|].
  intros _ _. apply grows_append_to_b.
Qed.

Lemma grows_interruptible_delay (d : Q) :
  grows [] [] any (interruptible_delay env d).
Proof.
  apply grows_still. intros st. unfold interruptible_delay.
  destruct (delay_loop_polls env (Z.to_nat (Qround.Qceiling (d * 20))) 0 d st)
    as (ds & V & _ & _ & H & _).
  unfold hist in H. injection H as Ha Hb. rewrite V.
  split; [exact Ha|]. split; [exact Hb | exact I].
Qed.

Lemma grows_cli_round (i : nat) :
  stop_at env = None ->
  grows [User; Assistant] [Assistant; User] (eq Scheduler.Next)
    (round word_char lower env cfg i).
Proof.
  intros no_stop. unfold round.
  eapply grows_after; [now apply grows_is_set|]. intros b <-.
  eapply grows_after; [apply grows_log|]. intros _ _.
  eapply (grows_bind [User] [Assistant] [Assistant] [User]);
    [apply grows_reply_b|]. intros _ _.
  eapply grows_after; [now apply grows_is_set|]. intros b <-.
  eapply (grows_bind [Assistant] [User] [] []); [apply grows_reply_a|].
  intros _ _.
  eapply grows_after; [apply grows_interruptible_delay|]. intros _ _.
  apply grows_ret.
Qed.

(** X15. A command-line run that is not stopped and completes its [N] rounds
    leaves Agent A's history with the system prompt and [2N] turns, and
    Agent B's with the system prompt, the seed prompt and [2N] turns: the
    seed prompt goes to B only, so B's history is one entry longer, and no
    corrective prompt stays in either. *)
Theorem cli_histories_after_rounds (st' : State) :
  stop_at env = None ->
  run_conversation word_char lower env cfg initial = (Val tt, st') ->
  (exists turns_a turns_b,
     messages_a st' = {| role := System; content := base_sys cfg AgentA |}
                      :: turns_a
     /\ messages_b st' = {| role := System; content := base_sys cfg AgentB |}
                         :: {| role := User; content := initial_prompt cfg |}
                         :: turns_b
     /\ map role turns_a
        = concat (repeat [User; Assistant] (Z.to_nat (turns cfg)))
     /\ map role turns_b
        = concat (repeat [Assistant; User] (Z.to_nat (turns cfg))))
  /\ List.length (messages_a st') = (1 + 2 * Z.to_nat (turns cfg))%nat
  /\ List.length (messages_b st') = (2 + 2 * Z.to_nat (turns cfg))%nat.
Proof.
  intros no_stop H.
  assert (G : exists turns_a turns_b,
     messages_a st' = {| role := System; content := base_sys cfg AgentA |}
                      :: turns_a
     /\ messages_b st' = {| role := System; content := base_sys cfg AgentB |}
                         :: {| role := User; content := initial_prompt cfg |}
                         :: turns_b
     /\ map role turns_a
        = concat (repeat [User; Assistant] (Z.to_nat (turns cfg)))
     /\ map role turns_b
        = concat (repeat [Assistant; User] (Z.to_nat (turns cfg)))).
  { unfold run_conversation in H.
    unfold bind at 1 2 3 4 in H.
    unfold set_messages_a at 1, set_messages_b at 1, effect at 1, append_b at 1
      in H.
    unfold bind at 1 in H. unfold get at 1, set_messages_b at 1 in H.
    cbn [fst snd messages_a messages_b now drains log_file trace initial app] in H.
    match type of H with
    | Scheduler.for_range _ _ _ ?st0 = _ =>
        pose proof (grows_for_range (round word_char lower env cfg)
                      [User; Assistant] [Assistant; User]
                      (Z.to_nat (turns cfg))
                      (fun i => grows_cli_round i no_stop) O st0) as G
    end.
    rewrite H in G. destruct G as (_ & xa & xb & Ea & Ra & Eb & Rb).
    cbn [messages_a messages_b] in Ea, Eb.
    exists xa, xb. auto. }
  split; [exact G|].
  destruct G as (ta & tb & Ea & Eb & Ra & Rb).
  apply (f_equal (@List.length _)) in Ra, Rb.
  rewrite length_map, concat_repeat_length in Ra, Rb.
  rewrite Ea, Eb. cbn [List.length]. simpl in Ra, Rb. lia.
Qed.

(** *** Calls *)

(** [c] adds [k] calls at most. *)
Definition calls_within {A} (k : nat) (c : M A) : Prop :=
  forall st,
    (List.length (called (snd (c st))) <= List.length (called st) + k)%nat.

Lemma within_mute {A} (c : M A) : frame called c -> calls_within 0 c.
Proof. intros H st. rewrite (H st). lia. Qed.

Lemma within_ret {A} (k : nat) (a : A) : calls_within k (ret a).
Proof. intros st. cbn. lia. Qed.

Lemma within_bind {A B} (k1 k2 : nat) (c : M A) (k : A -> M B) :
  calls_within k1 c -> (forall a, calls_within k2 (k a)) ->
  calls_within (k1 + k2) (bind c k).
Proof.
  intros Hc Hk st. unfold bind. specialize (Hc st).
  destruct (c st) as [[a|e] st1]; cbn [snd] in *; [|lia].
  specialize (Hk a st1). lia.
Qed.

Lemma within_reply (who : Agent) :
  calls_within 3 (agent_reply word_char lower env cfg who).
Proof.
  intros st.
  destruct (agent_reply_calls word_char lower env cfg who st) as (new & T & L).
  unfold called. rewrite T, callers_app, length_app, <- !count_callers. lia.
Qed.

Lemma callers_sleeps (ds : list Q) : callers (map ESleep ds) = [].
Proof. induction ds; [reflexivity | exact IHds]. Qed.

Lemma mute_interruptible_delay (d : Q) : frame called (interruptible_delay env d).
Proof.
  intros st. unfold interruptible_delay, called.
  destruct (delay_loop_polls env (Z.to_nat (Qround.Qceiling (d * 20))) 0 d st)
    as (ds & _ & T & _).
  rewrite T, callers_app, callers_sleeps. apply app_nil_r.
Qed.

Lemma mute_log (message : str) : frame called (log env message).
Proof.
  unfold log. apply frame_bind; [apply frame_get|].
  intros t. now apply mute_effect.
Qed.

Lemma within_round (i : nat) :
  calls_within 6 (round word_char lower env cfg i).
Proof.
  unfold round.
  apply (within_bind 0 6); [apply within_mute, frame_is_set|].
  intros s1. destruct s1; [apply within_ret|].
  apply (within_bind 0 6); [apply within_mute, mute_log|]. intros _.
  apply (within_bind 3 3); [apply within_reply|]. intros _.
  apply (within_bind 0 3); [apply within_mute, frame_is_set|].
  intros s2. destruct s2; [apply within_ret|].
  apply (within_bind 3 0); [apply within_reply|]. intros _.
  apply (within_bind 0 0); [apply within_mute, mute_interruptible_delay|].
  intros _. apply within_mute, frame_ret.
Qed.

Lemma within_for_range (body : nat -> M Scheduler.LoopCtl) (k n : nat) :
  (forall i, calls_within k (body i)) ->
  forall i, calls_within (n * k) (Scheduler.for_range n i body).
Proof.
  intros Hb. induction n as [|n IH]; intros i; cbn [Scheduler.for_range].
  - apply within_mute, frame_ret.
  - apply (within_bind k (n * k)); [apply Hb|].
    intros [|]; [apply IH | apply within_ret].
Qed.

(** X16. A command-line run of [N] rounds makes at most [6N] agent calls: in a
    round each agent is called once and retried twice at most. *)
Theorem cli_calls_bound :
  (count is_call (trace (snd (run_conversation word_char lower env cfg initial)))
   <= 6 * Z.to_nat (turns cfg))%nat.
Proof.
  rewrite count_callers. fold (called (snd (run_conversation word_char lower env cfg initial))).
  assert (H : calls_within (0 + (0 + (0 + (0 + Z.to_nat (turns cfg) * 6))))
                (run_conversation word_char lower env cfg)).
  { unfold run_conversation.
    apply within_bind; [apply within_mute; frame_steps|]. intros _.
    apply within_bind; [apply within_mute; frame_steps|]. intros _.
    apply within_bind; [apply within_mute; now apply mute_effect|]. intros _.
    apply within_bind; [apply within_mute; frame_steps|]. intros _.
    apply within_for_range. intros i. apply within_round. }
  specialize (H initial). unfold called in *.
  cbn [initial trace callers List.length] in H. lia.
Qed.

End CliRunFacts.

(** ** TopicGuard: the threshold *)

Section GuardFacts.

Import Run TopicGuard.

Variable word_char : char -> bool.
Variable lower : str -> str.

(** X17. A reply passes the topic guard (its score is not below 0.5) exactly
    when reply and topic are non-empty, the reply has at least one word,
    and at least half of its words, counted with repetitions, are words of
    the topic. *)
Theorem on_topic_iff_half_the_words (text topic : str) :
  let toks := findall_words word_char (lower text) in
  let tset := findall_words word_char (lower topic) in
  let common := List.length (filter (fun t => in_set t tset) toks) in
  Qlt_bool (topic_similarity word_char lower text topic) (1 # 2) = false
  <-> (text <> [] /\ topic <> []
       /\ (0 < List.length toks)%nat /\ (List.length toks <= 2 * common)%nat).
Proof.
  intros toks tset common.
  assert (Hzero : Qlt_bool 0 (1 # 2) = false <-> False)
    by (split; [discriminate | contradiction]).
  unfold topic_similarity. fold toks tset. fold common.
  assert (Hle : (common <= List.length toks)%nat) by apply filter_length_le.
  assert (Hnone : tset = [] -> common = O).
  { intros E. unfold common. rewrite E. clear.
    induction toks as [|x l IH]; [reflexivity | exact IH]. }
  clearbody common toks tset.
  destruct text as [|c text']; [cbn [is_empty orb]; rewrite Hzero; tauto|].
  destruct topic as [|d topic'];
    [cbn [is_empty orb]; rewrite Hzero; tauto|].
  cbn [is_empty orb].
  destruct tset as [|w ws].
  { rewrite Hzero. split; [contradiction|]. intros (_ & _ & H1 & H2).
    specialize (Hnone eq_refl). lia. }
  unfold Qlt_bool. rewrite negb_false_iff, Qle_bool_iff.
  unfold Qle. cbn [Qnum Qden]. rewrite pos_of_max.
  split.
  - intros H. repeat split; try discriminate; lia.
  - intros (_ & _ & H1 & H2). lia.
Qed.

End GuardFacts.

(** ** The command-line orchestrator: [truncate_text] *)

Section TruncateFacts.

Import Run TopicGuard.

(** X18. The command-line truncation only cuts: what it returns is an initial
    part of the stripped reply. Without [short_turn] a positive limit is a
    hard cap; with it, the first sentence is returned whole, whatever the
    limit. *)
Theorem truncate_text_cuts_only (cfg : CliConfig) (text : str) :
  (exists rest, strip text = truncate_text cfg text ++ rest)
  /\ (forall m, short_turn cfg = false -> max_chars cfg = Some m -> (0 < m)%Z ->
      (List.length (truncate_text cfg text) <= Z.to_nat m)%nat)
  /\ (forall g, text <> [] -> short_turn cfg = true ->
      re_search (strip text) = Some g -> truncate_text cfg text = g).
Proof.
  unfold truncate_text.
  destruct text as [|c text']; [repeat split; [now exists [] | intros; simpl; lia | congruence]|].
  set (t := strip (c :: text')).
  assert (Ht : trimmed t) by apply strip_is_trimmed.
  split; [|split].
  - destruct (if short_turn cfg then re_search t else None) as [g|] eqn:E.
    + destruct (short_turn cfg); [|discriminate].
      rewrite (strip_trimmed_id g (first_sentence_trimmed t g Ht E)).
      destruct (re_search_prefix t g E) as (h & u & x & rest & E1 & _).
      now exists rest.
    + destruct (max_chars cfg) as [m|]; [|exists []; now rewrite app_nil_r].
      destruct (negb (m =? 0)%Z && (0 <? m)%Z);
        [|exists []; now rewrite app_nil_r].
      exists (skipn (Z.to_nat m) t). now rewrite firstn_skipn.
  - intros m Hs Hm Hpos. rewrite Hs, Hm.
    replace (negb (m =? 0)%Z && (0 <? m)%Z) with true
      by (symmetry; apply andb_true_iff; split;
          [apply negb_true_iff, Z.eqb_neq | apply Z.ltb_lt]; lia).
    rewrite length_firstn. lia.
  - intros g _ Hs Hg. rewrite Hs, Hg.
    apply strip_trimmed_id, (first_sentence_trimmed t g Ht Hg).
Qed.

End TruncateFacts.

(** A retry that scores higher replaces the reply. *)
Definition improving (k : nat) : Run.Call :=
  reply_with (py "Remote work is great.") 1.

Lemma enforce_never_lowers_score_witness :
  fst (TopicGuard.enforce TopicGuard.ascii_word_char TopicGuard.ascii_lower
         (quiet_env None improving) remote_work Sanitizer.AgentB 2
         (py "I like bananas.") Run.initial)
  = Run.Val (py "Remote work is great.")
  /\ score TopicGuard.ascii_word_char TopicGuard.ascii_lower remote_work
       (py "I like bananas.")
     < score TopicGuard.ascii_word_char TopicGuard.ascii_lower remote_work
         (py "Remote work is great.").
Proof.
  assert (H : fst (TopicGuard.enforce TopicGuard.ascii_word_char
                     TopicGuard.ascii_lower (quiet_env None improving)
                     remote_work Sanitizer.AgentB 2
                     (py "I like bananas.") Run.initial)
              = Run.Val (py "Remote work is great."))
    by (vm_compute; reflexivity).
  split; [exact H|].
  apply (enforce_never_lowers_score TopicGuard.ascii_word_char
           TopicGuard.ascii_lower (quiet_env None improving) remote_work
           Sanitizer.AgentB 2 _ _ Run.initial H).
  discriminate.
Defined.

Definition on_topic (k : nat) : Run.Call :=
  reply_with (py "Remote work works.") 1.

Lemma cli_histories_after_rounds_witness :
  Run.stop_at (quiet_env None on_topic) = None
  /\ List.length (Run.messages_a (cli_run on_topic)) = 3%nat
  /\ List.length (Run.messages_b (cli_run on_topic)) = 4%nat.
Proof.
  split; [reflexivity|].
  assert (H : TopicGuard.run_conversation TopicGuard.ascii_word_char
                TopicGuard.ascii_lower (quiet_env None on_topic) remote_work
                Run.initial
              = (Run.Val tt, cli_run on_topic))
    by (vm_compute; reflexivity).
  destruct (cli_histories_after_rounds TopicGuard.ascii_word_char
              TopicGuard.ascii_lower (quiet_env None on_topic) remote_work
              (cli_run on_topic) eq_refl H) as (_ & Ha & Hb).
  split; [exact Ha | exact Hb].
Defined.

Definition cli_short (m : Z) : TopicGuard.CliConfig :=
  {| TopicGuard.AGENT_A_URL := py "http://a";
     TopicGuard.AGENT_A_NAME := py "Agent_A";
     TopicGuard.AGENT_B_URL := py "http://b";
     TopicGuard.AGENT_B_NAME := py "Agent_B";
     TopicGuard.topic := py "remote work";
     TopicGuard.turns := 1;
     TopicGuard.delay := 0;
     TopicGuard.humanize := false;
     TopicGuard.greeting := None;
     TopicGuard.persona_a := None;
     TopicGuard.persona_b := None;
     TopicGuard.max_chars := Some m;
     TopicGuard.short_turn := true |}.

Lemma truncate_text_cuts_only_witness :
  py "Hi there. Bye." <> []
  /\ TopicGuard.short_turn (cli_short 3) = true
  /\ TopicGuard.truncate_text (cli_short 3) (py "Hi there. Bye.") = py "Hi there.".
Proof.
  split; [discriminate|]. split; [reflexivity|].
  destruct (truncate_text_cuts_only (cli_short 3) (py "Hi there. Bye."))
    as (_ & _ & H).
  apply H; [discriminate | reflexivity | reflexivity].
Defined.

(** ** The rolling memory: the summary prompt *)

Section SummaryFacts.

Import Brain.

Lemma last_n_last_n {A} (m n : nat) (l : list A) :
  (m <= n)%nat -> last_n m (last_n n l) = last_n m l.
Proof.
  intros H. unfold last_n at 1 3. rewrite last_n_length.
  unfold last_n. rewrite skipn_skipn. f_equal. lia.
Qed.

Lemma last_n_app_long {A} (n : nat) (old recent : list A) :
  (n <= List.length recent)%nat -> last_n n (old ++ recent) = last_n n recent.
Proof.
  intros H. unfold last_n. rewrite length_app, skipn_app.
  rewrite skipn_all2 by lia. cbn [app]. f_equal. lia.
Qed.

Lemma last_n_snoc {A} (n : nat) (l : list A) (e : A) :
  last_n (S n) (l ++ [e]) = last_n n l ++ [e].
Proof.
  unfold last_n. rewrite length_app, skipn_app. cbn [List.length].
  replace (List.length l + 1 - S n)%nat with (List.length l - n)%nat by lia.
  replace (List.length l - n - List.length l)%nat with O by lia.
  reflexivity.
Qed.

Lemma join_snoc (sep : str) (xs : list str) (x : str) :
  exists before, join sep (xs ++ [x]) = before ++ x.
Proof.
  induction xs as [|y ys [before IH]]; [now exists []|].
  cbn [app]. destruct (ys ++ [x]) as [|z zs] eqn:E.
  - now destruct ys.
  - cbn [join]. cbn [join] in IH. exists (y ++ sep ++ before).
    rewrite IH, <- !app_assoc. reflexivity.
Qed.

(** X19. The summary prompt is built from the last 40 entries of the history
    and from nothing else: entries older than that never change it. With
    no brain file it is the instruction alone. *)
Theorem summary_reads_last_40 (old recent : list Entry) :
  (40 <= List.length recent)%nat ->
  get_brain_summary_prompt (save_brain (old ++ recent))
  = get_brain_summary_prompt (save_brain recent)
  /\ get_brain_summary_prompt (save_brain (old ++ recent))
     = HEADER ++ join [NL] (map line (last_n 40 recent))
  /\ get_brain_summary_prompt None = HEADER.
Proof.
  intros H. unfold get_brain_summary_prompt, save_brain, load_brain.
  rewrite (last_n_app_long 40 old recent H).
  split; [reflexivity|]. split; reflexivity.
Qed.

(** X20. After [add_to_brain], the summary prompt ends with the line of the
    entry just added, and it is the summary of the last 40 entries of the
    extended history: the 200-entry cap of the file never shows in it. *)
Theorem summary_after_add (now agent message role : str) (file : BrainFile) :
  let e := {| timestamp := now; agent := agent; role := role;
              message := message |} in
  let after := add_to_brain now agent message role file in
  get_brain_summary_prompt after
  = HEADER ++ join [NL] (map line (last_n 40 (load_brain file ++ [e])))
  /\ (exists before,
        get_brain_summary_prompt after
        = before ++ agent ++ py " (" ++ role ++ py "): " ++ message)
  /\ (load_brain file = [] ->
      get_brain_summary_prompt after
      = HEADER ++ agent ++ py " (" ++ role ++ py "): " ++ message).
Proof.
  intros e after.
  assert (E : get_brain_summary_prompt after
              = HEADER ++ join [NL] (map line (last_n 40 (load_brain file ++ [e])))).
  { unfold get_brain_summary_prompt, after.
    change (load_brain (add_to_brain now agent message role file))
      with (load_brain (add_to_brain (timestamp e) (Brain.agent e)
                          (Brain.message e) (Brain.role e) file)).
    rewrite (load_add e file). unfold LIMIT.
    rewrite last_n_last_n by lia. reflexivity. }
  split; [exact E|]. split.
  - rewrite E. rewrite (last_n_snoc 39), map_app. cbn [map].
    destruct (join_snoc [NL] (map line (last_n 39 (load_brain file))) (line e))
      as [before Hb].
    exists (HEADER ++ before). rewrite Hb, <- app_assoc. reflexivity.
  - intros Hnil. rewrite E, Hnil. reflexivity.
Qed.

End SummaryFacts.

(** ** The recent endpoints *)

Section RecentFacts.

Import RecentUrls.

Lemma member_In (u : str) (l : list str) : member u l = true <-> In u l.
Proof.
  unfold member. rewrite existsb_exists. split.
  - intros (x & Hx & E). apply eqb_eq in E. now subst.
  - intros H. exists u. split; [exact H | apply eqb_refl].
Qed.

Lemma remove_In (u x : str) (l : list str) : In x (remove u l) -> In x l.
Proof.
  induction l as [|y l IH]; [auto|]. cbn [remove].
  destruct (eqb y u); [now right|].
  intros [-> | H]; [now left | right; auto].
Qed.

Lemma remove_keeps (u x : str) (l : list str) :
  In x l -> x <> u -> In x (remove u l).
Proof.
  induction l as [|y l IH]; [auto|]. cbn [remove].
  intros [-> | H] Hx.
  - destruct (eqb x u) eqn:E; [apply eqb_eq in E; contradiction | now left].
  - destruct (eqb y u); [exact H | right; auto].
Qed.

Lemma remove_NoDup (u : str) (l : list str) :
  NoDup l -> NoDup (remove u l) /\ ~ In u (remove u l).
Proof.
  induction 1 as [|y l Hy Hl [IH1 IH2]]; [split; [constructor | auto]|].
  cbn [remove]. destruct (eqb y u) eqn:E.
  - apply eqb_eq in E. subst y. now split.
  - split.
    + constructor; [|exact IH1]. intros H. now apply Hy, (remove_In u).
    + intros [-> | H]; [now rewrite eqb_refl in E | contradiction].
Qed.

Lemma remove_length (u : str) (l : list str) :
  In u l -> S (List.length (remove u l)) = List.length l.
Proof.
  induction l as [|y l IH]; [contradiction|]. cbn [remove].
  destruct (eqb y u) eqn:E; [reflexivity|].
  intros [-> | H]; [now rewrite eqb_refl in E|].
  cbn [List.length]. now rewrite IH.
Qed.

Lemma NoDup_firstn {A} (n : nat) (l : list A) : NoDup l -> NoDup (firstn n l).
Proof.
  intros H. rewrite <- (firstn_skipn n l) in H.
  now apply NoDup_app_remove_r in H.
Qed.

Lemma In_firstn {A} (n : nat) (l : list A) (x : A) :
  In x (firstn n l) -> In x l.
Proof.
  revert l. induction n as [|n IH]; intros l H; [destruct H|].
  destruct l as [|y l]; [destruct H|].
  destruct H as [-> | H]; [now left | right; auto].
Qed.

(** What the list holds after a string with something in it was added. *)
Lemma add_recent_url_added (lst : list str) (raw : str) :
  strip raw <> [] ->
  _add_recent_url lst (Some raw)
  = firstn CAPACITY
      (strip raw :: (if member (strip raw) lst then remove (strip raw) lst
                     else lst)).
Proof.
  intros H. unfold _add_recent_url.
  destruct raw as [|c s]; [now destruct H|].
  destruct (strip (c :: s)); [now destruct H | reflexivity].
Qed.

Lemma add_recent_url_ignored (lst : list str) (url : option str) :
  match url with Some raw => strip raw = [] | None => True end ->
  _add_recent_url lst url = lst.
Proof.
  destruct url as [[|c s]|]; try reflexivity.
  intros H. unfold _add_recent_url. now rewrite H.
Qed.

(** X21. Adding an endpoint puts its stripped text at the front of the list. An
    endpoint that was already listed moves there, so the list does not
    grow and loses no entry; the list never holds more than ten entries
    afterwards, and every entry is the new one or was there before. A
    blank string, or a value that is not a string, leaves the list as it
    is. *)
Theorem add_recent_url_moves_to_front (lst : list str) (raw : str) :
  strip raw <> [] ->
  let out := _add_recent_url lst (Some raw) in
  hd [] out = strip raw
  /\ (List.length out <= 10)%nat
  /\ (forall x, In x out -> x = strip raw \/ In x lst)
  /\ (In (strip raw) lst -> (List.length lst <= 10)%nat ->
      List.length out = List.length lst /\ forall x, In x lst -> In x out)
  /\ (forall blank, strip blank = [] -> _add_recent_url lst (Some blank) = lst)
  /\ _add_recent_url lst None = lst.
Proof.
  intros H out. unfold out. rewrite (add_recent_url_added lst raw H). unfold CAPACITY.
  set (u := strip raw).
  split; [reflexivity|].
  split; [rewrite length_firstn; lia|].
  split; [|split; [|split]].
  - intros x Hx. apply In_firstn in Hx. destruct Hx as [<- | Hx]; [now left|].
    right. destruct (member u lst); [now apply (remove_In u) | exact Hx].
  - intros Hin Hlen. apply member_In in Hin as Hm. rewrite Hm.
    pose proof (remove_length u lst Hin) as L.
    rewrite firstn_all2 by (cbn [List.length]; lia).
    split; [cbn [List.length]; lia|].
    intros x Hx. destruct (eqb x u) eqn:E.
    + apply eqb_eq in E. now left.
    + right. apply remove_keeps; [exact Hx|]. intros ->.
      now rewrite eqb_refl in E.
  - intros blank Hb. now apply (add_recent_url_ignored lst (Some blank)).
  - reflexivity.
Qed.

Definition tidy (u : str) : Prop := u <> [] /\ strip u = u.

Lemma add_keeps_invariant (lst : list str) (url : option str) :
  NoDup lst /\ (List.length lst <= 10)%nat /\ Forall tidy lst ->
  NoDup (_add_recent_url lst url)
  /\ (List.length (_add_recent_url lst url) <= 10)%nat
  /\ Forall tidy (_add_recent_url lst url).
Proof.
  intros (Hn & Hl & Ht).
  destruct url as [raw|]; [|now rewrite add_recent_url_ignored].
  destruct (strip raw) as [|c s] eqn:E; [now rewrite add_recent_url_ignored|].
  rewrite add_recent_url_added by (rewrite E; discriminate). rewrite E.
  set (u := c :: s) in *. unfold CAPACITY.
  assert (Hu : tidy u).
  { split; [discriminate|]. rewrite <- E. apply strip_idem. }
  split; [|split].
  - apply NoDup_firstn. destruct (member u lst) eqn:Hm.
    + destruct (remove_NoDup u lst Hn) as [H1 H2]. now constructor.
    + constructor; [|exact Hn]. intros H. apply member_In in H. congruence.
  - rewrite length_firstn. lia.
  - apply Forall_forall. intros x Hx. apply In_firstn in Hx.
    rewrite Forall_forall in Ht.
    destruct Hx as [<- | Hx]; [exact Hu|].
    apply Ht. destruct (member u lst); [now apply (remove_In u) | exact Hx].
Qed.

(** X22. Whatever is added to an empty list of recent endpoints, in whatever
    order, the list holds no endpoint twice, holds ten entries at most, and
    holds only non-empty stripped strings. *)
Theorem recent_urls_invariant (urls : list (option str)) :
  let lst := fold_left _add_recent_url urls [] in
  NoDup lst /\ (List.length lst <= 10)%nat /\ Forall tidy lst.
Proof.
  cbv zeta.
  assert (G : forall start,
            NoDup start /\ (List.length start <= 10)%nat /\ Forall tidy start ->
            NoDup (fold_left _add_recent_url urls start)
            /\ (List.length (fold_left _add_recent_url urls start) <= 10)%nat
            /\ Forall tidy (fold_left _add_recent_url urls start)).
  { induction urls as [|url urls IH]; intros start Hs; [exact Hs|].
    cbn [fold_left]. apply IH. now apply add_keeps_invariant. }
  apply G. repeat split; [constructor | simpl; lia | constructor].
Qed.

End RecentFacts.

Lemma add_recent_url_moves_to_front_witness :
  strip (py " http://b ") <> []
  /\ RecentUrls._add_recent_url [py "http://a"; py "http://b"] (Some (py " http://b "))
     = [py "http://b"; py "http://a"].
Proof.
  split; [discriminate|]. 
  destruct (add_recent_url_moves_to_front [py "http://a"; py "http://b"]
              (py " http://b ")) as (H & _); [discriminate|].
  reflexivity.
Defined.

Lemma summary_reads_last_40_witness :
  (40 <= List.length (repeat {| Brain.timestamp := []; Brain.agent := py "Ava";
                               Brain.role := py "user"; Brain.message := py "hi" |} 40))%nat
  /\ Brain.get_brain_summary_prompt
       (Brain.save_brain
          ([{| Brain.timestamp := []; Brain.agent := py "Orion";
               Brain.role := py "assistant"; Brain.message := py "old" |}]
           ++ repeat {| Brain.timestamp := []; Brain.agent := py "Ava";
                        Brain.role := py "user"; Brain.message := py "hi" |} 40))
     = Brain.get_brain_summary_prompt
         (Brain.save_brain
            (repeat {| Brain.timestamp := []; Brain.agent := py "Ava";
                       Brain.role := py "user"; Brain.message := py "hi" |} 40)).
Proof.
  split; [simpl; lia|].
  apply summary_reads_last_40. simpl. lia.
Defined.

(** ** TurnScheduler: how soon a stop request takes effect *)

(** [max(a, b)] *)
Definition qmax (a b : Q) : Q := if Qle_bool a b then b else a.

Section StopFacts.

Import Run Scheduler.
Local Open Scope run_scope.

Variable env : Env.
Variables t d : Q.

Hypothesis stop_known : stop_at env = Some t.
Hypothesis delay_known : 0 <= d.

Lemma qmax_bounds (a b : Q) : a <= qmax a b /\ b <= qmax a b.
Proof.
  unfold qmax. destruct (Qle_bool a b) eqn:E.
  - apply Qle_bool_iff in E. split; [exact E | apply Qle_refl].
  - split; [apply Qle_refl|].
    apply Qlt_le_weak, Qnot_le_lt. intros H. apply Qle_bool_iff in H. congruence.
Qed.

(** The flag is not set yet. *)
Definition early (x : Q) : Prop := x < t.

(** Not later than the longest wait after the flag was set. *)
Definition on_time (x : Q) : Prop := x <= t + qmax 20 d.

Lemma early_on_time (x : Q) : early x -> on_time x.
Proof.
  unfold early, on_time. destruct (qmax_bounds 20 d) as [H20 _]. intros H. lra.
Qed.

(** A wait that starts before the flag is set ends on time. *)
Lemma early_wait {A} (m : Q) (c : M A) :
  lasts m c -> m <= qmax 20 d -> triple now early c on_time on_time.
Proof.
  intros [_ H] Hm st E. specialize (H st). unfold early, on_time in *.
  destruct (c st) as [[a|e] st1]; cbn [snd] in H; lra.
Qed.

Lemma early_instant {A} (c : M A) :
  frame now c -> triple now early c early on_time.
Proof.
  intros H. apply (triple_post now early early early); auto using early_on_time.
  now apply triple_still.
Qed.

(** What follows a check of the flag starts early, or does not start. *)
Lemma checked {A} (stop : A) (k : M A) :
  triple now early k on_time on_time ->
  triple now on_time
    (stopped <- is_set env ;; if stopped then ret stop else k)
    on_time on_time.
Proof.
  intros Hk st H. unfold bind, is_set. rewrite stop_known.
  destruct (Qle_bool t (now st)) eqn:E; [exact H|].
  apply Hk. unfold early. apply Qnot_le_lt. intros L.
  apply Qle_bool_iff in L. congruence.
Qed.

Lemma on_time_round (cfg : Config) (turns : Z) (url_a url_b : str) (i : nat) :
  triple now on_time (round env cfg turns d url_a url_b i) on_time on_time.
Proof.
  destruct (qmax_bounds 20 d) as [H20 Hd].
  unfold round. apply checked.
  apply (triple_bind now _ early); [apply early_instant; frame_steps|].
  intros _.
  apply (triple_bind now _ early); [apply early_instant, instant_drain|].
  intros _.
  apply (triple_bind now _ on_time);
    [apply (early_wait 20); [apply lasts_agent_turn | exact H20]|].
  intros _. apply checked.
  apply (triple_bind now _ on_time);
    [apply (early_wait 20); [apply lasts_agent_turn | exact H20]|].
  intros _. unfold inter_turn_delay. apply checked.
  apply (early_wait d); [|exact Hd].
  apply then_instant; [now apply lasts_sleep | intros; apply frame_ret].
Qed.

End StopFacts.

Section StopRunFacts.

Import Run Scheduler.
Local Open Scope run_scope.

(** X23. Once the stop flag is set, a run is over within 20 seconds or within
    the inter-turn delay, whichever is longer: the flag is read before each
    agent call and before the sleep, so at most one call or one sleep is
    waited for after it. *)
Theorem stop_takes_effect_within (env : Env) (cfg : Config) (t d : Q) :
  stop_at env = Some t -> 0 <= t ->
  delay cfg = Some d -> 0 <= d ->
  now (_run_conversation env cfg) <= t + qmax 20 d.
Proof.
  intros Hs Ht Hd Hd0.
  assert (Hbody : triple now (on_time t d) (body env cfg)
                    (on_time t d) (on_time t d)).
  { unfold body. intros st H.
    pose proof (instant_prologue env cfg st) as Hp. unfold bind.
    destruct (prologue env cfg st) as [[s|e] st1] eqn:Ep; cbn [snd] in Hp;
      [|now rewrite Hp].
    destruct (prologue_settings env cfg s st st1 Ep) as [_ E2].
    rewrite Hd in E2. injection E2 as <-.
    apply (triple_for_range now (on_time t d)).
    - intros i. now apply on_time_round.
    - now rewrite Hp. }
  unfold _run_conversation.
  assert (H0 : on_time t d (now initial)).
  { unfold on_time. simpl (now initial). destruct (qmax_bounds 20 d). lra. }
  specialize (Hbody initial H0). fold (on_time t d (now (_run_conversation env cfg))).
  unfold _run_conversation.
  destruct (body env cfg initial) as [[u|e] st1].
  - now rewrite instant_finally.
  - now rewrite instant_finally, instant_handler.
Qed.

End StopRunFacts.

Lemma stop_takes_effect_within_witness :
  Run.stop_at (quiet_env (Some (3 # 2)) ok_sure) = Some (3 # 2)
  /\ 0 <= 3 # 2
  /\ Scheduler.delay (tea_cfg (Some 2%Z) 5) = Some 5
  /\ 0 <= 5
  /\ Run.now (Scheduler._run_conversation (quiet_env (Some (3 # 2)) ok_sure)
                (tea_cfg (Some 2%Z) 5))
     <= (3 # 2) + qmax 20 5.
Proof.
  split; [reflexivity|]. split; [lra|]. split; [reflexivity|]. split; [lra|].
  exact (stop_takes_effect_within (quiet_env (Some (3 # 2)) ok_sure)
           (tea_cfg (Some 2%Z) 5) (3 # 2) 5 eq_refl ltac:(lra) eq_refl
           ltac:(lra)).
Defined.

(** ** TurnScheduler: a run that nothing disturbs completes *)

Section CompletionFacts.

Import Run Scheduler.
Local Open Scope run_scope.

(** [c] always returns, and what it returns satisfies [P]. *)
Definition yields {A} (P : A -> Prop) (c : M A) : Prop :=
  forall st, exists a st', c st = (Val a, st') /\ P a.


Lemma yields_weaken {A} (P Q : A -> Prop) (c : M A) :
  (forall a, P a -> Q a) -> yields P c -> yields Q c.
Proof.
  intros H Hc st. destruct (Hc st) as (a & st' & E & Pa).
  exists a, st'. auto.
Qed.








Variable env : Env.

Hypothesis no_stop : stop_at env = None.
Hypothesis calls_start : forall k e, outcome (script env k) <> NotStarted e.









End CompletionFacts.


(** ** AgentClient: which part of the payload is read *)

Section ClientFacts.

Import AgentClient.

Variable py_str : pyval -> str.
Variable extract_re : str -> str.
Variable clean_re : str -> str.

(** X25. When the payload holds a message object, the reply is read from it
    alone: from its content when that is a non-empty string; from its text
    when the content is missing or falsy (an empty string counts as
    missing); from the printed form of the message when both are. Nothing
    else in the payload, a top-level content included, changes the
    result. *)
Theorem chat_reads_message (client_url : str) (d m : list (str * pyval)) :
  lookup MESSAGE d = Some (PDict m) ->
  let out := chat_with_ollama py_str extract_re clean_re client_url
               (Answered (PDict d)) in
  (forall s, get CONTENT m = PStr s -> s <> [] ->
   out = as_text extract_re clean_re s)
  /\ (truthy (get CONTENT m) = false ->
      forall s, get TEXT m = PStr s -> s <> [] ->
      out = as_text extract_re clean_re s)
  /\ (truthy (get CONTENT m) = false -> truthy (get TEXT m) = false ->
      out = as_text extract_re clean_re (py_str (PDict m)))
  /\ (forall d', lookup MESSAGE d' = Some (PDict m) ->
      chat_with_ollama py_str extract_re clean_re client_url
        (Answered (PDict d')) = out).
Proof.
  intros Hm out. unfold out, chat_with_ollama, read_response. rewrite Hm.
  unfold py_or, as_text.
  split; [|split; [|split]].
  - intros s Hs Hne. rewrite Hs. destruct s; [congruence | reflexivity].
  - intros Hc s Hs Hne. rewrite Hc, Hs. destruct s; [congruence | reflexivity].
  - intros Hc Ht. now rewrite Hc, Ht.
  - intros d' Hd'. now rewrite Hd'.
Qed.

End ClientFacts.

Lemma chat_reads_message_witness :
  AgentClient.lookup AgentClient.MESSAGE
    [(AgentClient.CONTENT, AgentClient.PStr (py "top"));
     (AgentClient.MESSAGE,
      AgentClient.PDict [(AgentClient.CONTENT, AgentClient.PStr []);
                         (AgentClient.TEXT, AgentClient.PStr (py "hello"))])]
  = Some (AgentClient.PDict
            [(AgentClient.CONTENT, AgentClient.PStr []);
             (AgentClient.TEXT, AgentClient.PStr (py "hello"))])
  /\ AgentClient.chat_with_ollama (fun _ => py "?") (fun s => s) (fun s => s)
       (py "http://a")
       (AgentClient.Answered
          (AgentClient.PDict
             [(AgentClient.CONTENT, AgentClient.PStr (py "top"));
              (AgentClient.MESSAGE,
               AgentClient.PDict
                 [(AgentClient.CONTENT, AgentClient.PStr []);
                  (AgentClient.TEXT, AgentClient.PStr (py "hello"))])]))
     = AgentClient.Content (py "hello").
Proof.
  split; [reflexivity|].
  destruct (chat_reads_message (fun _ => py "?") (fun s => s) (fun s => s)
              (py "http://a")
              [(AgentClient.CONTENT, AgentClient.PStr (py "top"));
               (AgentClient.MESSAGE,
                AgentClient.PDict
                  [(AgentClient.CONTENT, AgentClient.PStr []);
                   (AgentClient.TEXT, AgentClient.PStr (py "hello"))])]
              [(AgentClient.CONTENT, AgentClient.PStr []);
               (AgentClient.TEXT, AgentClient.PStr (py "hello"))]
              eq_refl) as (_ & H & _).
  exact (H eq_refl (py "hello") eq_refl ltac:(discriminate)).
Defined.
